(** * devstats: the [pr] command

    A shallow embedding of [cmd/pr.go]: the statistics engine ([calcStats],
    [calculateStats]), the search query ([searchByAuthor]), the concurrent
    fetch-and-enrich pipeline ([pullRequests]) and the per-author loop
    ([run]).

    The pipeline is five goroutines under one [errgroup] plus the calling
    goroutine; it is modelled as a transition system whose actions are the
    goroutines' atomic steps (one channel operation, one remote call, one
    deferred call), so every interleaving of the Go program is a path of the
    system. *)

From Stdlib Require Import ZArith String Ascii List DecimalString Floats Lia.
From stdpp Require Import base option list strings sorting.

Local Open Scope Z_scope.

(** ** Go basics *)

(** A Go [error] is represented by its message; [nil] is [None]. *)
Definition error := string.

(** [%d] of [fmt]: decimal, with a leading minus for negatives. *)
Definition fmt_d (z : Z) : string := NilZero.string_of_int (Z.to_int z).

(** Wrap-around of Go's fixed-width signed integers. *)
Definition wrap (w : Z) (z : Z) : Z := (z + 2 ^ (w - 1)) mod 2 ^ w - 2 ^ (w - 1).
Definition int32 (z : Z) : Z := wrap 32 z.
Definition int64 (z : Z) : Z := wrap 64 z.

(** [len] of a slice, as a Go [int]. *)
Definition len {A} (l : list A) : Z := Z.of_nat (length l).

(** [strings.Split(s, sep)] for a one-byte separator, the only use in the
    source ([strings.Split(repo, "/")]): the substrings between the
    separators, so one more token than there are separators. *)
Fixpoint Split (s : string) (sep : ascii) : list string :=
  match s with
  | EmptyString => [EmptyString]
  | String c s' =>
      if Ascii.eqb c sep then EmptyString :: Split s' sep
      else match Split s' sep with
           | tok :: toks => String c tok :: toks
           | [] => [String c EmptyString]
           end
  end.

(** ** package time *)
Module time.
(** An instant, in nanoseconds since the zero [Time] (January 1, year 1,
    00:00:00 UTC); a [Duration] is an [int64] count of nanoseconds. *)
Definition Time := Z.
Definition Duration := Z.

Definition zero : Time := 0.
Definition minDuration : Duration := - 2 ^ 63.
Definition maxDuration : Duration := 2 ^ 63 - 1.
Definition Hour : Duration := 3600 * 1000000000.

(** [t.Sub(u)]: the duration [t-u], saturated to the range of a
    [Duration]. *)
Definition Sub (t u : Time) : Duration :=
  Z.max minDuration (Z.min maxDuration (t - u)).
End time.

(** ** package github (the fields and accessors the source reads) *)
Module github.
Record Timestamp := { Time : time.Time }.

Record Issue := {
  Number : option Z;
  PullRequestLinks : option unit
}.

Record PullRequest := {
  ID : option Z;
  CreatedAt : option Timestamp;
  MergedAt : option Timestamp;
  Additions : option Z;
  Deletions : option Z;
  Commits : option Z;
  Comments : option Z
}.

Record ListOptions := { Page : Z; PerPage : Z }.

Record IssuesSearchResult := { Issues : list Issue }.

(** The part of [*github.Response] the source reads: the next-page token,
    the HTTP status, and the body with the result of closing it. *)
Record Response := {
  NextPage : Z;
  StatusCode : Z;
  Body : string;
  Body_Close : option error
}.

Definition GetNumber (i : Issue) : Z := default 0 (Number i).
Definition IsPullRequest (i : Issue) : bool :=
  match PullRequestLinks i with Some _ => true | None => false end.

Definition GetCreatedAt (p : PullRequest) : Timestamp :=
  default {| Time := time.zero |} (CreatedAt p).
Definition GetMergedAt (p : PullRequest) : Timestamp :=
  default {| Time := time.zero |} (MergedAt p).
Definition GetAdditions (p : PullRequest) : Z := default 0 (Additions p).
Definition GetDeletions (p : PullRequest) : Z := default 0 (Deletions p).
Definition GetCommits (p : PullRequest) : Z := default 0 (Commits p).
Definition GetComments (p : PullRequest) : Z := default 0 (Comments p).

(** The two remote calls of [*github.Client] the pipeline makes.  Each takes
    the state of the context it is handed ([true]: already cancelled) and
    its arguments, and answers with the triple the Go call returns.  The
    client is stateless: equal calls get equal answers. *)
Record Client := {
  Search_Issues :
    bool -> string -> ListOptions ->
    IssuesSearchResult * Response * option error;
  PullRequests_Get :
    bool -> string -> string -> Z ->
    PullRequest * Response * option error
}.
End github.

(** ** cmd/pr.go: options and constants *)

Record SearchPROpts := {
  FromDate : string;
  Authors : list string;
  Repo : string
}.

Definition nWorkers : Z := 4.
Definition workerChanSize : Z := 1024.
Definition ownerRepoTokenLen : Z := 2.

Definition errRepoFmt : error :=
  "repo format error: must provide owner and repo. ex: jtsiros/devstats".

(** [context.Canceled], what [ctx.Err()] is once the group cancelled. *)
Definition Canceled : error := "context canceled".

(** [searchByAuthor], with the package-level [prOpts] passed in. *)
Definition searchByAuthor (prOpts : SearchPROpts) (author repo : string) : string :=
  let sb := "is:pull-request is:closed is:merged" in
  let sb := sb +:+ (" repo:" +:+ repo) in
  let sb := if negb (len (list_ascii_of_string (FromDate prOpts)) =? 0)
            then sb +:+ (" created:>" +:+ FromDate prOpts) else sb in
  let sb := sb +:+ (" author:" +:+ author) in
  sb.

(** ** [pullRequests] as a transition system *)

(** A buffered channel: the queued values, oldest first, and whether it was
    closed.  Its capacity is [workerChanSize] for both channels. *)
Record Chan (A : Type) := { buf : list A; closed : bool }.
Arguments buf {A} _.
Arguments closed {A} _.

Definition has_room {A} (c : Chan A) : bool := len (buf c) <? workerChanSize.
Definition push {A} (x : A) (c : Chan A) : Chan A :=
  {| buf := buf c ++ [x]; closed := closed c |}.
Definition close {A} (c : Chan A) : Chan A :=
  {| buf := buf c; closed := true |}.

(** A goroutine started by [g.Go]: inside the function body at point [pc],
    returned with its deferred call still to run, inside errgroup's wrapper
    (which records the error and signals the wait group), or gone. *)
Inductive Goroutine (PC : Type) :=
| Running (pc : PC)
| Deferred (e : option error)
| Exiting (e : option error)
| Done (e : option error).
Arguments Running {PC} _.
Arguments Deferred {PC} _.
Arguments Exiting {PC} _.
Arguments Done {PC} _.

(** Program points of the producer (the first [g.Go]). *)
Inductive Producer :=
| PSearch (page : Z)
    (* about to call gc.Search.Issues with opt.Page = page *)
| PSend (rest : list github.Issue) (next : Z).
    (* ranging over sr.Issues, [rest] still to send; resp.NextPage = next *)

(** Program points of a worker (the [g.Go] of the loop). *)
Inductive Worker :=
| WRange
    (* at [for i := range issues] *)
| WGot (i : github.Issue)
    (* received [i], about to test and fetch it *)
| WSelect (pr : github.PullRequest).
    (* at the select: ctx.Done() or [prs <- pr] *)

(** The calling goroutine: the reduce loop, [g.Wait()], returned. *)
Inductive Main :=
| MRange
| MWait
| MReturned (res : list github.PullRequest * option error).

Record State := {
  producer : Goroutine Producer;
  issues : Chan github.Issue;
  pool : list (Goroutine Worker);
  workers : Z;
  prs : Chan github.PullRequest;
  ctx_done : bool;
  g_err : option error;
  allPRs : list github.PullRequest;
  main : Main;
  panicked : bool
}.

Definition set_producer p s :=
  {| producer := p; issues := issues s; pool := pool s; workers := workers s;
     prs := prs s; ctx_done := ctx_done s; g_err := g_err s;
     allPRs := allPRs s; main := main s; panicked := panicked s |}.
Definition set_issues c s :=
  {| producer := producer s; issues := c; pool := pool s; workers := workers s;
     prs := prs s; ctx_done := ctx_done s; g_err := g_err s;
     allPRs := allPRs s; main := main s; panicked := panicked s |}.
Definition set_pool p s :=
  {| producer := producer s; issues := issues s; pool := p; workers := workers s;
     prs := prs s; ctx_done := ctx_done s; g_err := g_err s;
     allPRs := allPRs s; main := main s; panicked := panicked s |}.
Definition set_workers n s :=
  {| producer := producer s; issues := issues s; pool := pool s; workers := n;
     prs := prs s; ctx_done := ctx_done s; g_err := g_err s;
     allPRs := allPRs s; main := main s; panicked := panicked s |}.
Definition set_prs c s :=
  {| producer := producer s; issues := issues s; pool := pool s; workers := workers s;
     prs := c; ctx_done := ctx_done s; g_err := g_err s;
     allPRs := allPRs s; main := main s; panicked := panicked s |}.
Definition set_ctx_done b s :=
  {| producer := producer s; issues := issues s; pool := pool s; workers := workers s;
     prs := prs s; ctx_done := b; g_err := g_err s;
     allPRs := allPRs s; main := main s; panicked := panicked s |}.
Definition set_g_err e s :=
  {| producer := producer s; issues := issues s; pool := pool s; workers := workers s;
     prs := prs s; ctx_done := ctx_done s; g_err := e;
     allPRs := allPRs s; main := main s; panicked := panicked s |}.
Definition set_allPRs l s :=
  {| producer := producer s; issues := issues s; pool := pool s; workers := workers s;
     prs := prs s; ctx_done := ctx_done s; g_err := g_err s;
     allPRs := l; main := main s; panicked := panicked s |}.
Definition set_main m s :=
  {| producer := producer s; issues := issues s; pool := pool s; workers := workers s;
     prs := prs s; ctx_done := ctx_done s; g_err := g_err s;
     allPRs := allPRs s; main := m; panicked := panicked s |}.
Definition panic s :=
  {| producer := producer s; issues := issues s; pool := pool s; workers := workers s;
     prs := prs s; ctx_done := ctx_done s; g_err := g_err s;
     allPRs := allPRs s; main := main s; panicked := true |}.

(** What an execution does that others can observe. *)
Inductive event :=
| EvSearch (done : bool) (query : string) (opt : github.ListOptions)
| EvGet (done : bool) (owner name : string) (number : Z)
| EvIssue (i : github.Issue)
| EvPR (pr : github.PullRequest)
| EvCloseIssues
| EvClosePRs (w : nat)
| EvCancel
| EvPanic.

(** The goroutine that moves; at a worker's select, [pick_done] says which
    case the runtime picks (Go picks any ready case). *)
Inductive action :=
| AProducer
| AWorker (w : nat) (pick_done : bool)
| AMain.

Definition is_Done {PC} (g : Goroutine PC) : bool :=
  match g with Done _ => true | _ => false end.

(** errgroup's wrapper around a function that returned [e]: the first
    non-nil error is kept and cancels the context. *)
Definition g_exit (e : option error) (s : State) : State * list event :=
  match e, g_err s with
  | Some err, None => (set_ctx_done true (set_g_err (Some err) s), [EvCancel])
  | _, _ => (s, [])
  end.

Section Pipeline.
Variable gc : github.Client.
Variable prOpts : SearchPROpts.
Variables repo author : string.

Definition ownerAndRepo : list string := Split repo "/".
Definition owner : string := nth 0 ownerAndRepo EmptyString.
Definition name : string := nth 1 ownerAndRepo EmptyString.
Definition sba : string := searchByAuthor prOpts author repo.

(** The error of a detail response that is not a 200. *)
Definition Errorf (status number : Z) (body : string) : error :=
  "PR GET (" +:+ fmt_d status +:+ "): [" +:+ fmt_d number +:+ "] - " +:+ body.

Definition producer_step (s : State) : option (State * list event) :=
  match producer s with
  | Running (PSearch page) =>
      let opt := {| github.Page := page; github.PerPage := 100 |} in
      let '(sr, resp, err) := github.Search_Issues gc (ctx_done s) sba opt in
      let ev := [EvSearch (ctx_done s) sba opt] in
      match err with
      | Some e => Some (set_producer (Deferred (Some e)) s, ev)
      | None =>
          Some (set_producer
                  (Running (PSend (github.Issues sr) (github.NextPage resp))) s, ev)
      end
  | Running (PSend (i :: rest) next) =>
      if closed (issues s) then Some (panic s, [EvPanic])
      else if has_room (issues s) then
        Some (set_producer (Running (PSend rest next))
                (set_issues (push i (issues s)) s), [EvIssue i])
      else None
  | Running (PSend [] next) =>
      if next =? 0 then Some (set_producer (Deferred None) s, [])
      else Some (set_producer (Running (PSearch next)) s, [])
  | Deferred e =>
      if closed (issues s) then Some (panic s, [EvPanic])
      else Some (set_producer (Exiting e) (set_issues (close (issues s)) s),
                 [EvCloseIssues])
  | Exiting e =>
      let '(s', ev) := g_exit e s in
      Some (set_producer (Done e) s', ev)
  | Done _ => None
  end.

Definition set_worker (w : nat) (g : Goroutine Worker) (s : State) : State :=
  set_pool (<[w := g]> (pool s)) s.

(** One item in a worker's hands: the body of the range loop up to the
    select. *)
Definition process (done : bool) (i : github.Issue) : Goroutine Worker * list event :=
  if negb (github.IsPullRequest i) then (Running WRange, [])
  else
    let '(pr, resp, err) :=
      github.PullRequests_Get gc done owner name (github.GetNumber i) in
    let ev := [EvGet done owner name (github.GetNumber i)] in
    match err with
    | Some _ => (Running WRange, ev)
    | None =>
        if negb (github.StatusCode resp =? 200) then
          let body := github.Body resp in
          match github.Body_Close resp with
          | Some e => (Deferred (Some e), ev)
          | None =>
              (Deferred (Some (Errorf (github.StatusCode resp)
                                 (github.GetNumber i) body)), ev)
          end
        else (Running (WSelect pr), ev)
    end.

Definition worker_step (w : nat) (pick_done : bool) (s : State)
  : option (State * list event) :=
  match pool s !! w with
  | Some (Running WRange) =>
      match buf (issues s) with
      | i :: rest =>
          Some (set_worker w (Running (WGot i))
                  (set_issues {| buf := rest; closed := closed (issues s) |} s), [])
      | [] =>
          if closed (issues s) then Some (set_worker w (Deferred None) s, [])
          else None
      end
  | Some (Running (WGot i)) =>
      let '(g, ev) := process (ctx_done s) i in
      Some (set_worker w g s, ev)
  | Some (Running (WSelect pr)) =>
      if pick_done then
        if ctx_done s then Some (set_worker w (Deferred (Some Canceled)) s, [])
        else None
      else if closed (prs s) then Some (panic s, [EvPanic])
      else if has_room (prs s) then
        Some (set_worker w (Running WRange) (set_prs (push pr (prs s)) s),
              [EvPR pr])
      else None
  | Some (Deferred e) =>
      let n := int32 (workers s + -1) in
      let s := set_worker w (Exiting e) (set_workers n s) in
      if n =? 0 then
        if closed (prs s) then Some (panic s, [EvPanic])
        else Some (set_prs (close (prs s)) s, [EvClosePRs w])
      else Some (s, [])
  | Some (Exiting e) =>
      let '(s', ev) := g_exit e s in
      Some (set_worker w (Done e) s', ev)
  | Some (Done _) | None => None
  end.

Definition main_step (s : State) : option (State * list event) :=
  match main s with
  | MRange =>
      match buf (prs s) with
      | pr :: rest =>
          Some (set_allPRs (allPRs s ++ [pr])
                  (set_prs {| buf := rest; closed := closed (prs s) |} s), [])
      | [] =>
          if closed (prs s) then Some (set_main MWait s, []) else None
      end
  | MWait =>
      if is_Done (producer s) && forallb is_Done (pool s) then
        Some (set_main (MReturned (allPRs s, g_err s)) (set_ctx_done true s), [])
      else None
  | MReturned _ => None
  end.

(** One step of the program; nothing moves after a panic. *)
Definition step (a : action) (s : State) : option (State * list event) :=
  if panicked s then None
  else match a with
       | AProducer => producer_step s
       | AWorker w pick_done => worker_step w pick_done s
       | AMain => main_step s
       end.

(** The state once the channels are made and all goroutines started. *)
Definition init : State :=
  {| producer := Running (PSearch 0);
     issues := {| buf := []; closed := false |};
     pool := replicate (Z.to_nat nWorkers) (Running WRange);
     workers := int32 nWorkers;
     prs := {| buf := []; closed := false |};
     ctx_done := false;
     g_err := None;
     allPRs := [];
     main := MRange;
     panicked := false |}.

(** Executions: the steps taken from a state, with what they emitted. *)
Inductive exec (s : State) : list event -> State -> Prop :=
| exec_refl : exec s [] s
| exec_step tr s' a s'' ev :
    exec s tr s' -> step a s' = Some (s'', ev) -> exec s (tr ++ ev) s''.

(** [pullRequests] returns [res] after the events [tr]: at once when the
    repository does not split into two tokens, else when the calling
    goroutine gets past [g.Wait()]. *)
Inductive pullRequests (tr : list event)
  (res : list github.PullRequest * option error) : Prop :=
| pullRequests_fmt :
    len ownerAndRepo <> ownerRepoTokenLen ->
    tr = [] -> res = ([], Some errRepoFmt) ->
    pullRequests tr res
| pullRequests_run s :
    len ownerAndRepo = ownerRepoTokenLen ->
    exec init tr s -> main s = MReturned res ->
    pullRequests tr res.

(** *** Running the system under a scheduling policy *)

Fixpoint first_enabled (policy : list action) (s : State)
  : option (State * list event) :=
  match policy with
  | [] => None
  | a :: policy' =>
      match step a s with
      | Some r => Some r
      | None => first_enabled policy' s
      end
  end.

Fixpoint run_policy (policy : list action) (fuel : nat) (s : State)
  : list event * State :=
  match fuel with
  | O => ([], s)
  | S fuel' =>
      match first_enabled policy s with
      | Some (s', ev) =>
          let '(tr, s'') := run_policy policy fuel' s' in (ev ++ tr, s'')
      | None => ([], s)
      end
  end.

Fixpoint run_actions (sched : list action) (s : State)
  : option (list event * State) :=
  match sched with
  | [] => Some ([], s)
  | a :: sched' =>
      match step a s with
      | Some (s', ev) =>
          match run_actions sched' s' with
          | Some (tr, s'') => Some (ev ++ tr, s'')
          | None => None
          end
      | None => None
      end
  end.

(** A schedule in phases, each a policy with the steps it gets. *)
Fixpoint run_phases (phases : list (list action * nat)) (s : State)
  : list event * State :=
  match phases with
  | [] => ([], s)
  | (policy, fuel) :: phases' =>
      let '(tr, s') := run_policy policy fuel s in
      let '(tr', s'') := run_phases phases' s' in (tr ++ tr', s'')
  end.

(** The actions that can be enabled in a state. *)
Definition all_actions (s : State) : list action :=
  AProducer :: AMain ::
  flat_map (fun w => [AWorker w false; AWorker w true]) (seq 0 (length (pool s))).
End Pipeline.

(** ** float64 and slices of float64 *)

(** Go's [float64] is IEEE 754 binary64, as are Rocq's primitive floats. *)
Abbreviation float64 := PrimFloat.float.

(** [float64(n)] for an integer [n]: the nearest float, ties to even. *)
Definition float64_of_int (n : Z) : float64 :=
  SF2Prim (SpecFloat.binary_normalize FloatOps.prec FloatOps.emax n 0 false).

(** The memory the statistics code works on: the backing arrays of the
    [[]float64] values, by address.  A slice is a window on one of them, so
    two slices on one array alias. *)
Abbreviation heap := (list (list float64)).
Record slice := { arr : nat; off : nat; slen : nat }.

(** The elements a slice shows, and the heap after overwriting them. *)
Definition read (h : heap) (s : slice) : list float64 :=
  take (slen s) (drop (off s) (default [] (h !! arr s))).
Definition write (s : slice) (vs : list float64) (h : heap) : heap :=
  alter (fun a => take (off s) a ++ vs ++ drop (off s + length vs) a) (arr s) h.

(** Code that reads and writes the heap. *)
Definition M (A : Type) : Type := heap -> A * heap.
#[global] Instance M_ret : MRet M := fun A x h => (x, h).
#[global] Instance M_bind : MBind M :=
  fun A B k c h => let '(x, h') := c h in k x h'.

(** [make([]float64, n)]: a fresh zeroed array and the slice of all of it. *)
Definition make (n : nat) : M slice :=
  fun h => ({| arr := length h; off := 0; slen := n |},
            h ++ [replicate n 0%float]).
(** [s[lo:hi]] *)
Definition subslice (s : slice) (lo hi : nat) : slice :=
  {| arr := arr s; off := off s + lo; slen := hi - lo |}.
(** [s[i]] and [s[i] = v] *)
Definition index (s : slice) (i : nat) : M float64 :=
  fun h => (nth i (read h s) 0%float, h).
Definition store (s : slice) (i : nat) (v : float64) : M unit :=
  fun h => (tt, write s (<[i := v]> (read h s)) h).
(** The builtin [copy(dst, src)] for slices of equal length. *)
Definition copy (dst src : slice) : M unit :=
  fun h => (tt, write dst (read h src) h).
(** [for key, value := range s { s[key] = f(value) }] *)
Definition range_update (s : slice) (f : float64 -> float64) : M unit :=
  fun h => (tt, write s (map f (read h s)) h).

(** ** package sort *)
Module sort.
(** [Float64Slice.Less]: not-a-number values are ordered before the others. *)
Definition Less (x y : float64) : bool :=
  (x <? y)%float || (PrimFloat.is_nan x && negb (PrimFloat.is_nan y)).

(** [insertionSort], which is what [sort.Float64s] runs on a slice of at most
    twelve elements; on longer ones the result can differ only in the order
    of elements that compare equal.  [sorted] is the sorted prefix, its last
    element first: the new element moves left past every element it is
    [Less] than. *)
Fixpoint insert (x : float64) (sorted : list float64) : list float64 :=
  match sorted with
  | y :: sorted' => if Less x y then y :: insert x sorted' else x :: sorted
  | [] => [x]
  end.
Definition insertionSort (l : list float64) : list float64 :=
  rev (fold_left (fun sorted x => insert x sorted) l []).

(** [sort.Float64s(s)] sorts in place. *)
Definition Float64s (s : slice) : M unit :=
  fun h => (tt, write s (insertionSort (read h s)) h).
End sort.

(** ** package stats (github.com/montanaflynn/stats) *)
Module stats.
Definition EmptyInputErr : error := "Input must not be empty.".

Definition copyslice (input : slice) : M slice :=
  s ← make (slen input);
  copy s input;;
  mret s.

Definition sortedCopy (input : slice) : M slice :=
  c ← copyslice input;
  sort.Float64s c;;
  mret c.

Definition Sum (input : slice) : M (float64 * option error) :=
  fun h =>
    if (slen input =? 0)%nat then ((nan, Some EmptyInputErr), h)
    else ((fold_left PrimFloat.add (read h input) 0%float, None), h).

Definition Mean (input : slice) : M (float64 * option error) :=
  if (slen input =? 0)%nat then mret (nan, Some EmptyInputErr)
  else
    '(sum, _) ← Sum input;
    mret ((sum / float64_of_int (Z.of_nat (slen input)))%float, None).

Definition Median (input : slice) : M (float64 * option error) :=
  c ← sortedCopy input;
  let l := slen c in
  if (l =? 0)%nat then mret (nan, Some EmptyInputErr)
  else if (l mod 2 =? 0)%nat then
    '(median, _) ← Mean (subslice c (l / 2 - 1) (l / 2 + 1));
    mret (median, None)
  else
    median ← index c (l / 2);
    mret (median, None).

Definition MedianAbsoluteDeviationPopulation (input : slice)
  : M (float64 * option error) :=
  if (slen input =? 0)%nat then mret (nan, Some EmptyInputErr)
  else
    i ← copyslice input;
    '(m, _) ← Median i;
    range_update i (fun value => PrimFloat.abs (value - m));;
    Median i.

Definition MedianAbsoluteDeviation (input : slice) : M (float64 * option error) :=
  MedianAbsoluteDeviationPopulation input.
End stats.

(** ** cmd/pr.go: the statistics *)

Record Statistics := {
  Mean : float64;
  Median : float64;
  MedianAbsoluteDeviation : float64
}.

Record ContributorStats := {
  Comments : Statistics;
  Commits : Statistics;
  MergeTime : Statistics;
  PRs : Z;
  ChangeSize : Statistics;
  Author : string
}.

Definition calcStats (s : slice) : M Statistics :=
  if (slen s =? 0)%nat then
    mret {| Mean := 0; Median := 0; MedianAbsoluteDeviation := 0 |}
  else
    '(mR, _) ← stats.Mean s;
    '(medR, _) ← stats.Median s;
    '(madR, _) ← stats.MedianAbsoluteDeviation s;
    mret {| Mean := mR; Median := medR; MedianAbsoluteDeviation := madR |}.

(** [d.Hours()] *)
Definition Hours (d : time.Duration) : float64 :=
  let hour := Z.quot d time.Hour in
  let nsec := Z.rem d time.Hour in
  (float64_of_int hour + float64_of_int nsec / (60 * 60 * 1e9))%float.

(** The four numbers [calculateStats] takes from one pull request. *)
Definition delta (pr : github.PullRequest) : float64 :=
  Hours (time.Sub (github.Time (github.GetMergedAt pr))
                  (github.Time (github.GetCreatedAt pr))).
Definition change (pr : github.PullRequest) : float64 :=
  float64_of_int (int64 (github.GetAdditions pr + github.GetDeletions pr)).

(** The body of [for i, pr := range prs], from index [i] on. *)
Fixpoint fill (mergeDeltas commits comments changeSize : slice)
  (i : nat) (prs : list github.PullRequest) : M unit :=
  match prs with
  | [] => mret tt
  | pr :: prs' =>
      store mergeDeltas i (delta pr);;
      store changeSize i (change pr);;
      store commits i (float64_of_int (github.GetCommits pr));;
      store comments i (float64_of_int (github.GetComments pr));;
      fill mergeDeltas commits comments changeSize (S i) prs'
  end.

Definition calculateStats (prs : list github.PullRequest) : M ContributorStats :=
  mergeDeltas ← make (length prs);
  commits ← make (length prs);
  comments ← make (length prs);
  changeSize ← make (length prs);
  fill mergeDeltas commits comments changeSize 0 prs;;
  mt ← calcStats mergeDeltas;
  cm ← calcStats commits;
  cs ← calcStats changeSize;
  co ← calcStats comments;
  mret {| MergeTime := mt; Commits := cm; ChangeSize := cs; Comments := co;
         PRs := len prs; Author := "" |}.

Definition set_Author (a : string) (s : ContributorStats) : ContributorStats :=
  {| Comments := Comments s; Commits := Commits s; MergeTime := MergeTime s;
     PRs := PRs s; ChangeSize := ChangeSize s; Author := a |}.

(** ** [run] *)

(** What a call of [run] did: the pipelines it ran, in order, each with the
    author it ran for and the events of that run. *)
Definition run_log := list (string * list event).

(** [run] from the head of the loop over [prOpts.Authors], with [authors]
    still to go and [cstats] built so far.  It ends by rendering the records
    and returning nil, or by returning the error of a pipeline. *)
Inductive run_from (gc : github.Client) (prOpts : SearchPROpts)
  : list string -> list ContributorStats -> run_log ->
    option (list ContributorStats) * option error -> Prop :=
| run_render cstats :
    run_from gc prOpts [] cstats [] (Some cstats, None)
| run_fail a authors cstats tr prs e :
    pullRequests gc prOpts (Repo prOpts) a tr (prs, Some e) ->
    run_from gc prOpts (a :: authors) cstats [(a, tr)] (None, Some e)
| run_next a authors cstats tr prs log res :
    pullRequests gc prOpts (Repo prOpts) a tr (prs, None) ->
    run_from gc prOpts authors
      (cstats ++ [set_Author a (calculateStats prs []).1]) log res ->
    run_from gc prOpts (a :: authors) cstats ((a, tr) :: log) res.

Definition run (gc : github.Client) (prOpts : SearchPROpts)
  : run_log -> option (list ContributorStats) * option error -> Prop :=
  run_from gc prOpts (Authors prOpts) [].

(** * Specification vocabulary *)

(** ** What the pipeline is expected to compute *)

(** The issues an execution put on the input queue, in order. *)
Definition emitted (tr : list event) : list github.Issue :=
  omap (fun ev => match ev with EvIssue i => Some i | _ => None end) tr.

(** A remote call made with a context that was not cancelled. *)
Definition live_call (ev : event) : Prop :=
  match ev with
  | EvSearch done _ _ | EvGet done _ _ _ => done = false
  | _ => True
  end.

Definition is_call (ev : event) : bool :=
  match ev with EvSearch _ _ _ | EvGet _ _ _ _ => true | _ => false end.
Definition is_search (ev : event) : bool :=
  match ev with EvSearch _ _ _ => true | _ => false end.
Definition closes_prs (ev : event) : bool :=
  match ev with EvClosePRs _ => true | _ => false end.

Section PipelineSpec.
Variable gc : github.Client.
Variable prOpts : SearchPROpts.
Variables repo author : string.

(** The search stage on its own, never cancelled: from page [page] on it
    puts [ms] on the input queue and returns [r].  It stops without error at
    the first response without a next-page token, and with the error of the
    first failed call. *)
Inductive searchStage : Z -> list github.Issue -> option error -> Prop :=
| searchStage_err page sr resp e :
    github.Search_Issues gc false (sba prOpts repo author)
      {| github.Page := page; github.PerPage := 100 |} = (sr, resp, Some e) ->
    searchStage page [] (Some e)
| searchStage_last page sr resp :
    github.Search_Issues gc false (sba prOpts repo author)
      {| github.Page := page; github.PerPage := 100 |} = (sr, resp, None) ->
    github.NextPage resp = 0 ->
    searchStage page (github.Issues sr) None
| searchStage_more page sr resp ms r :
    github.Search_Issues gc false (sba prOpts repo author)
      {| github.Page := page; github.PerPage := 100 |} = (sr, resp, None) ->
    github.NextPage resp <> 0 ->
    searchStage (github.NextPage resp) ms r ->
    searchStage page (github.Issues sr ++ ms) r.

(** The detail record of a match: there is one when the match is a pull
    request and the detail call (context not cancelled) returned no error. *)
Definition fetched (i : github.Issue) : option github.PullRequest :=
  if github.IsPullRequest i then
    match github.PullRequests_Get gc false (owner repo) (name repo)
            (github.GetNumber i) with
    | (pr, _, None) => Some pr
    | (_, _, Some _) => None
    end
  else None.

(** What the producer will still emit and return, if never cancelled. *)
Definition future (g : Goroutine Producer)
  (ms : list github.Issue) (r : option error) : Prop :=
  match g with
  | Running (PSearch page) => searchStage page ms r
  | Running (PSend rest next) =>
      exists ms', ms = rest ++ ms' /\
        if next =? 0 then ms' = [] /\ r = None else searchStage next ms' r
  | Deferred e | Exiting e | Done e => ms = [] /\ r = e
  end.
End PipelineSpec.

(** ** Invariants of the transition system *)

(** Counting the elements of a list that pass a test. *)
Fixpoint count_of {A} (P : A -> bool) (l : list A) : Z :=
  match l with
  | [] => 0
  | x :: l' => (if P x then 1 else 0) + count_of P l'
  end.

(** Goroutine states by what they did already. *)
Definition returned {PC} (g : Goroutine PC) : bool :=
  match g with Exiting _ | Done _ => true | _ => false end.
Definition counted (g : Goroutine Worker) : bool := negb (returned g).
Definition errored {PC} (g : Goroutine PC) : bool :=
  match g with
  | Deferred (Some _) | Exiting (Some _) | Done (Some _) => true
  | _ => false
  end.
Definition returned_nil {PC} (g : Goroutine PC) : bool :=
  match g with
  | Deferred None | Exiting None | Done None => true
  | _ => false
  end.
Definition is_returned (m : Main) : bool :=
  match m with MReturned _ => true | _ => false end.
Definition held (g : Goroutine Worker) : option github.Issue :=
  match g with Running (WGot i) => Some i | _ => None end.
Definition inflight (g : Goroutine Worker) : option github.PullRequest :=
  match g with Running (WSelect pr) => Some pr | _ => None end.

(** The records that are on their way from the input queue to the result:
    those of the matches still queued or held by a worker, those a worker
    holds at its send, those queued for the reduce stage, and those
    appended already. *)
Definition in_flight (gc : github.Client) (repo : string) (s : State)
  : list github.PullRequest :=
  omap (fetched gc repo) (buf (issues s)) ++
  omap (fetched gc repo) (omap held (pool s)) ++
  omap inflight (pool s) ++ buf (prs s) ++ allPRs s.

(** The countdown: [workers] counts the workers that did not run their
    deferred call yet, and each channel is closed exactly when its closer
    ran. *)
Record countdown_inv (tr : list event) (s : State) : Prop := {
  ci_panic : panicked s = false;
  ci_pool : length (pool s) = 4%nat;
  ci_workers : workers s = count_of counted (pool s);
  ci_prs : closed (prs s) = true <-> workers s = 0;
  ci_issues : closed (issues s) = returned (producer s);
  ci_closes : count_of closes_prs tr = if closed (prs s) then 1 else 0
}.

(** The group: the context is cancelled once an error is recorded (or the
    call returned), and every goroutine that is gone with an error had it
    recorded. *)
Record group_inv (s : State) : Prop := {
  gi_ctx : ctx_done s = true -> g_err s <> None \/ is_returned (main s) = true;
  gi_err : g_err s <> None -> ctx_done s = true;
  gi_producer : forall e, producer s = Done (Some e) -> g_err s <> None;
  gi_pool : forall w e, pool s !! w = Some (Done (Some e)) -> g_err s <> None;
  gi_ret : forall res, main s = MReturned res ->
           res = (allPRs s, g_err s) /\
           is_Done (producer s) = true /\
           Forall (fun g => is_Done g = true) (pool s)
}.

(** Draining: the reduce loop is left only with the output queue closed and
    empty; a worker returns nil only with the input queue closed and empty. *)
Record drain_inv (s : State) : Prop := {
  di_prs : main s <> MRange -> buf (prs s) = [] /\ closed (prs s) = true;
  di_issues : forall w g, pool s !! w = Some g -> returned_nil g = true ->
              buf (issues s) = [] /\ closed (issues s) = true
}.

(** ** Liveness vocabulary *)

(** [inevitably step P s]: on every path of the system from [s], whatever
    the scheduler does, a state satisfying [P] is reached, and the system is
    never stuck before that. *)
Inductive inevitably (step : action -> State -> option (State * list event))
  (P : State -> Prop) : State -> Prop :=
| inevitably_now s : P s -> inevitably step P s
| inevitably_later s :
    (exists a s' ev, step a s = Some (s', ev)) ->
    (forall a s' ev, step a s = Some (s', ev) -> inevitably step P s') ->
    inevitably step P s.

(** No goroutine can move. *)
Definition stuck (step : action -> State -> option (State * list event))
  (s : State) : Prop :=
  forall a, step a s = None.

(** The work a state still holds, with the weights that make every step of
    the system decrease the pair ([pages_left], [work_left]) in the
    lexicographic order. *)
Definition worker_weight (g : Goroutine Worker) : nat :=
  match g with
  | Running (WGot _) => 6
  | Running (WSelect _) => 5
  | Running WRange => 3
  | Deferred _ => 2
  | Exiting _ => 1
  | Done _ => 0
  end.
Definition producer_weight (g : Goroutine Producer) : nat :=
  match g with
  | Running (PSend rest _) => 5 * length rest + 3
  | Running (PSearch _) => 3
  | Deferred _ => 2
  | Exiting _ => 1
  | Done _ => 0
  end.
Definition main_weight (m : Main) : nat :=
  match m with MRange => 2 | MWait => 1 | MReturned _ => 0 end.
Definition work_left (s : State) : nat :=
  producer_weight (producer s) + 4 * length (buf (issues s)) +
  sum_list_with worker_weight (pool s) + length (buf (prs s)) +
  main_weight (main s) + (if panicked s then 0 else 1).
Definition pages_left (rank : Z -> nat) (s : State) : nat :=
  match producer s with
  | Running (PSearch page) => 2 * rank page + 2
  | Running (PSend _ next) => if next =? 0 then 1 else 2 * rank next + 3
  | _ => 0
  end.

(** Pagination ends: [rank] bounds the number of pages that follow a page.
    (Whatever the state of the context the call is made with.) *)
Definition pagination_ends (gc : github.Client) (query : string)
  (rank : Z -> nat) : Prop :=
  forall done page sr resp,
    github.Search_Issues gc done query
      {| github.Page := page; github.PerPage := 100 |} = (sr, resp, None) ->
    github.NextPage resp <> 0 ->
    (rank (github.NextPage resp) < rank page)%nat.

(** A client that honours the context: a call made with a cancelled context
    returns an error. *)
Definition honours_ctx (gc : github.Client) : Prop :=
  (forall q o, (github.Search_Issues gc true q o).2 <> None) /\
  (forall o n k, (github.PullRequests_Get gc true o n k).2 <> None).

(** What an execution did after the group cancelled the context. *)
Fixpoint after_cancel (tr : list event) : list event :=
  match tr with
  | [] => []
  | EvCancel :: tr' => tr'
  | _ :: tr' => after_cancel tr'
  end.

(** A remote call, if one, made with the cancelled context. *)
Definition call_done (ev : event) : Prop :=
  match ev with
  | EvSearch done _ _ | EvGet done _ _ _ => done = true
  | _ => True
  end.

(** Every remote call after the cancellation is made with the cancelled
    context. *)
Definition cancelled_after (tr : list event) : Prop :=
  Forall call_done (after_cancel tr).

(** The text of the search query. *)
Definition query_text (prOpts : SearchPROpts) (author repo : string) : string :=
  "is:pull-request is:closed is:merged repo:" +:+ repo +:+
  (if String.eqb (FromDate prOpts) "" then ""
   else " created:>" +:+ FromDate prOpts) +:+
  " author:" +:+ author.

(** The repository identifier splits on "/" into exactly two tokens, both
    non-empty. *)
Definition two_nonempty_tokens (repo : string) : Prop :=
  exists a b, Split repo "/" = [a; b] /\ a <> EmptyString /\ b <> EmptyString.

(** The number of separators in a string. *)
Fixpoint count_sep (sep : ascii) (s : string) : nat :=
  match s with
  | EmptyString => 0
  | String c s' => (if Ascii.eqb c sep then 1 else 0) + count_sep sep s'
  end.

(** * Example clients and runs *)

Definition example_issue (pull : bool) (n : Z) : github.Issue :=
  {| github.Number := Some n;
     github.PullRequestLinks := if pull then Some tt else None |}.

Definition example_pull (n : Z) : github.PullRequest :=
  {| github.ID := Some n; github.CreatedAt := None; github.MergedAt := None;
     github.Additions := Some n; github.Deletions := Some 1;
     github.Commits := Some 1; github.Comments := Some 0 |}.

Definition example_response (next status : Z) (close_err : option error)
  : github.Response :=
  {| github.NextPage := next; github.StatusCode := status;
     github.Body := "boom"; github.Body_Close := close_err |}.

(** A client that honours the context.  [pages] gives the items and the
    next-page token of a page; [detail] gives the status, the error of the
    call and the error of closing the body for an item number. *)
Definition example_client
  (pages : Z -> list github.Issue * Z)
  (detail : Z -> Z * option error * option error) : github.Client :=
  {| github.Search_Issues := fun done _ opt =>
       if done then
         ({| github.Issues := [] |}, example_response 0 0 None, Some Canceled)
       else
         let '(items, next) := pages (github.Page opt) in
         ({| github.Issues := items |}, example_response next 200 None, None);
     github.PullRequests_Get := fun done _ _ n =>
       if done then (example_pull n, example_response 0 0 None, Some Canceled)
       else
         let '(status, err, close_err) := detail n in
         (example_pull n, example_response 0 status close_err, err) |}.

Definition example_opts : SearchPROpts :=
  {| FromDate := "2021-01-01"; Authors := ["alice"; "bob"];
     Repo := "jtsiros/devstats" |}.

(** The numbers [from], [from+1], ... ([n] of them) as pull-request matches. *)
Definition example_matches (from : Z) (n : nat) : list github.Issue :=
  map (fun k => example_issue true (from + Z.of_nat k)) (seq 0 n).

(** Fifty matches on one page; the detail call of the first five fails with
    "not found". *)
Definition client50 : github.Client :=
  example_client
    (fun _ => (example_matches 1 50, 0))
    (fun n => if n <=? 5 then (404, Some "404 Not Found", None)
              else (200, None, None)).

(** Three pages of 100, 100 and 7 matches. *)
Definition client207 : github.Client :=
  example_client
    (fun page =>
       if page =? 0 then (example_matches 1 100, 2)
       else if page =? 2 then (example_matches 101 100, 3)
       else (example_matches 201 7, 0))
    (fun _ => (200, None, None)).
Definition rank207 (page : Z) : nat :=
  if page =? 0 then 2%nat else if page =? 2 then 1%nat else 0%nat.

(** Three matches, one of them not a pull request; the detail call of
    number 1 answers 500 with no error. *)
Definition client500 : github.Client :=
  example_client
    (fun _ => ([example_issue true 1; example_issue false 2;
                example_issue true 3; example_issue true 4], 0))
    (fun n => if n =? 1 then (500, None, None) else (200, None, None)).

(** Detail calls answer 404 together with an error, as go-github does for
    every status outside 2xx. *)
Definition client404 : github.Client :=
  example_client
    (fun _ => ([example_issue true 1], 0))
    (fun _ => (404, Some "404 Not Found", None)).

(** Detail calls answer 500 with no error, and closing the body fails. *)
Definition client_close : github.Client :=
  example_client
    (fun _ => ([example_issue true 1], 0))
    (fun _ => (500, None, Some "close failed")).

(** Two scheduling policies: the consumers first, and the producer first. *)
Definition consumers_first : list action :=
  [AMain; AWorker 0 false; AWorker 1 false; AWorker 2 false; AWorker 3 false;
   AWorker 0 true; AWorker 1 true; AWorker 2 true; AWorker 3 true; AProducer].
Definition producer_first : list action :=
  [AProducer; AWorker 0 false; AWorker 1 false; AWorker 2 false;
   AWorker 3 false; AWorker 0 true; AWorker 1 true; AWorker 2 true;
   AWorker 3 true; AMain].

Definition run50 : list event * State :=
  run_policy client50 example_opts "jtsiros/devstats" "alice"
    consumers_first 400 (init).
Definition run207 : list event * State :=
  run_policy client207 example_opts "jtsiros/devstats" "alice"
    [AProducer] 300 (init).
Definition run207_all : list event * State :=
  run_policy client207 example_opts "jtsiros/devstats" "alice"
    consumers_first 1500 (init).
Definition run500 : list event * State :=
  run_policy client500 example_opts "jtsiros/devstats" "alice"
    producer_first 100 (init).
Definition run_slash : list event * State :=
  run_policy client50 example_opts "owner/" "alice"
    consumers_first 400 (init).
Definition run500_late : list event * State :=
  run_policy client500 example_opts "jtsiros/devstats" "alice"
    consumers_first 100 (init).

(** Eleven pages of 100 matches each; the detail call of number 1 answers
    202 with no error, every other one 200. *)
Definition client_flood : github.Client :=
  example_client
    (fun page =>
       let k := Z.max page 1 in
       (example_matches ((k - 1) * 100 + 1) 100, if k <? 11 then k + 1 else 0))
    (fun n => if n =? 1 then (202, None, None) else (200, None, None)).

(** The producer runs until the input queue is full; every worker takes a
    match and the workers 1, 2 and 3 fetch theirs; then worker 0 fetches
    its own, and from there on a worker at its select takes the ctx.Done()
    case when it can. *)
Definition cancel_first : list action :=
  [AWorker 0 true; AWorker 1 true; AWorker 2 true; AWorker 3 true;
   AProducer; AMain].
Definition flood_phases : list (list action * nat) :=
  [([AProducer], 1100%nat);
   ([AWorker 0 false], 1%nat); ([AWorker 1 false], 1%nat);
   ([AWorker 2 false], 1%nat); ([AWorker 3 false], 1%nat);
   ([AWorker 1 false], 1%nat); ([AWorker 2 false], 1%nat);
   ([AWorker 3 false], 1%nat);
   (cancel_first, 100%nat)].
Definition run_flood : list event * State :=
  run_phases client_flood example_opts "jtsiros/devstats" "alice"
    flood_phases (init).

(** * The statistics, as the specification words them *)

(** The arithmetic mean: the sum of the sample over its size. *)
Definition mean (l : list float64) : float64 :=
  (fold_left PrimFloat.add l 0 / float64_of_int (len l))%float.

(** The median: the middle value of the sorted sample, or the mean of the
    two middle values when the size is even. *)
Definition median (l : list float64) : float64 :=
  let c := sort.insertionSort l in
  let n := length c in
  if (n mod 2 =? 0)%nat
  then mean [nth (n / 2 - 1) c 0%float; nth (n / 2) c 0%float]
  else nth (n / 2) c 0%float.

(** The median absolute deviation: the median of the distances of the
    sample's points to the sample's median. *)
Definition mad (l : list float64) : float64 :=
  let m := median l in
  median (map (fun x => PrimFloat.abs (x - m)) l).

Definition stats_of (l : list float64) : Statistics :=
  match l with
  | [] => {| Mean := 0; Median := 0; MedianAbsoluteDeviation := 0 |}
  | _ => {| Mean := mean l; Median := median l;
            MedianAbsoluteDeviation := mad l |}
  end.

(** A slice that lies within its backing array. *)
Definition valid (h : heap) (s : slice) : Prop :=
  exists a, h !! arr s = Some a /\ (off s + slen s <= length a)%nat.

(** Equality of [float64] values as numbers: Go's [==], or both not a
    number.  (It identifies the two zeros, which differ in their sign bit
    only.) *)
Definition float_eq (x y : float64) : Prop :=
  (x =? y)%float = true \/
  (PrimFloat.is_nan x = true /\ PrimFloat.is_nan y = true).

(** The four samples [calculateStats] builds from the enriched set. *)
Definition mergeDeltas (prs : list github.PullRequest) : list float64 :=
  map delta prs.
Definition commits (prs : list github.PullRequest) : list float64 :=
  map (fun pr => float64_of_int (github.GetCommits pr)) prs.
Definition comments (prs : list github.PullRequest) : list float64 :=
  map (fun pr => float64_of_int (github.GetComments pr)) prs.
Definition changeSize (prs : list github.PullRequest) : list float64 :=
  map change prs.

(** The record [run] appends for an author whose pipeline returned [prs]. *)
Definition stats_for (a : string) (prs : list github.PullRequest)
  : ContributorStats :=
  set_Author a (calculateStats prs []).1.

(** ** Slices and arrays in the proofs *)

(** The slice of the whole of array [k], of length [n]. *)
Definition whole (k n : nat) : slice := {| arr := k; off := 0; slen := n |}.

(** The array after the loop wrote [f pr] at [i], [i+1], ... *)
Definition filled {A} (f : A -> float64) (i : nat) (prs : list A)
  (a : list float64) : list float64 :=
  take i a ++ map f prs ++ drop (i + length prs) a.

(** ** The order of [sort.Less] *)

(** A float's place in the order: not-a-number first, then the negative
    infinity, the negative numbers, the two zeros, the positive numbers and
    the positive infinity. *)
Definition sf_key (f : spec_float) : Z * Z * Z :=
  match f with
  | S754_nan => (-3, 0, 0)
  | S754_infinity true => (-2, 0, 0)
  | S754_finite true m e => (-1, - e, - Z.pos m)
  | S754_zero _ => (0, 0, 0)
  | S754_finite false m e => (1, e, Z.pos m)
  | S754_infinity false => (2, 0, 0)
  end.
Definition key_lt (a b : Z * Z * Z) : Prop :=
  a.1.1 < b.1.1 \/
  (a.1.1 = b.1.1 /\ (a.1.2 < b.1.2 \/ (a.1.2 = b.1.2 /\ a.2 < b.2))).
Definition float_key (x : float64) : Z * Z * Z := sf_key (Prim2SF x).

(** [x] is not ordered after [y]. *)
Definition not_after (x y : float64) : Prop := sort.Less y x = false.

(** The same float64, or two zeros (which differ in the sign bit only). *)
Definition same_number (x y : float64) : Prop :=
  x = y \/ exists s s', Prim2SF x = S754_zero s /\ Prim2SF y = S754_zero s'.

(** ** More examples *)

(** A pull request created on 2021-01-01 and not merged. *)
Definition example_unmerged : github.PullRequest :=
  {| github.ID := Some 7;
     github.CreatedAt :=
       Some {| github.Time := 737790 * 86400 * 1000000000 |};
     github.MergedAt := None;
     github.Additions := Some 10; github.Deletions := Some 2;
     github.Commits := Some 3; github.Comments := Some 4 |}.

Definition run50_bob : list event * State :=
  run_policy client50 example_opts "jtsiros/devstats" "bob"
    consumers_first 400 (init).
Definition run50_log : run_log := [("alice", run50.1); ("bob", run50_bob.1)].
Definition run50_stats : list ContributorStats :=
  [stats_for "alice" (allPRs run50.2); stats_for "bob" (allPRs run50_bob.2)].

(** * More vocabulary for the pipeline *)

(** The numbers of the detail calls an execution made, in order. *)
Definition gets (tr : list event) : list Z :=
  omap (fun ev => match ev with EvGet _ _ _ n => Some n | _ => None end) tr.

(** The number of a match that is a pull request. *)
Definition pull_number (i : github.Issue) : option Z :=
  if github.IsPullRequest i then Some (github.GetNumber i) else None.
Definition pulls (ms : list github.Issue) : list Z := omap pull_number ms.

(** The pull requests that wait for their detail call: queued, or in a
    worker's hands. *)
Definition waiting (s : State) : list Z :=
  pulls (buf (issues s)) ++ pulls (omap held (pool s)).

(** The error a goroutine has returned and the group has not recorded
    yet. *)
Definition pending {PC} (g : Goroutine PC) : option error :=
  match g with Deferred e | Exiting e => e | _ => None end.

Section Causes.
Variable gc : github.Client.
Variable prOpts : SearchPROpts.
Variables repo author : string.

(** An error a search call returns while the context is live. *)
Definition search_error (e : error) : Prop :=
  exists page,
    (github.Search_Issues gc false (sba prOpts repo author)
       {| github.Page := page; github.PerPage := 100 |}).2 = Some e.

(** The error a worker makes of a detail response that is not a 200, the
    call having returned no error while the context was live. *)
Definition detail_error (e : error) : Prop :=
  exists i pr resp,
    github.IsPullRequest i = true /\
    github.PullRequests_Get gc false (owner repo) (name repo)
      (github.GetNumber i) = (pr, resp, None) /\
    github.StatusCode resp <> 200 /\
    e = match github.Body_Close resp with
        | Some c => c
        | None => Errorf (github.StatusCode resp) (github.GetNumber i)
                    (github.Body resp)
        end.

Definition live_error (e : error) : Prop := search_error e \/ detail_error e.

(** Every error a goroutine holds is a live one, unless another one was
    recorded before. *)
Record cause_inv (s : State) : Prop := {
  ca_err : forall e, g_err s = Some e -> live_error e;
  ca_producer : forall e, pending (producer s) = Some e ->
                live_error e \/ g_err s <> None;
  ca_pool : forall w g e, pool s !! w = Some g -> pending g = Some e ->
            live_error e \/ g_err s <> None
}.
End Causes.

(** Ten matches on one page; the detail call of number 8 answers 500 with
    no error. *)
Definition client_partial : github.Client :=
  example_client
    (fun _ => (example_matches 1 10, 0))
    (fun n => if n =? 8 then (500, None, None) else (200, None, None)).
Definition run_partial : list event * State :=
  run_policy client_partial example_opts "jtsiros/devstats" "alice"
    consumers_first 400 (init).

(** A goroutine that has left its function body. *)
Definition stopped {PC} (g : Goroutine PC) : Prop :=
  match g with Running _ => False | _ => True end.

(** * More vocabulary for the statistics *)

(** A float64 other than the negative zero. *)
Definition not_negative_zero (x : float64) : Prop :=
  Prim2SF x <> S754_zero true.

(** Two statistics that agree on the median, as a number, and on the median
    absolute deviation. *)
Definition same_spread (a b : Statistics) : Prop :=
  float_eq (Median a) (Median b) /\
  MedianAbsoluteDeviation a = MedianAbsoluteDeviation b.

(** * More examples *)

(** The options with the repository flag left at its default. *)
Definition default_repo_opts : SearchPROpts :=
  {| FromDate := "2021-01-01"; Authors := ["alice"; "bob"];
     Repo := "cockroach" |}.

(** The fifty matches on another schedule: worker 1 gets the record of
    match 7 to the output queue before worker 0 has fetched match 6. *)
Definition run50_interleaved : list event * State :=
  run_phases client50 example_opts "jtsiros/devstats" "alice"
    [([AProducer], 12%nat); ([AWorker 0 false], 11%nat);
     ([AWorker 1 false], 3%nat); (consumers_first, 400%nat)] (init).

(** * cmd/pr.go: rendering *)

(** ** [fmt.Sprintf("%.2f", f)] *)

(** [num/den] rounded to the nearest integer, a tie going to the even one
    ([num >= 0], [den > 0]): strconv rounds the exact decimal expansion of
    the float64 in this way. *)
Definition round_half_even (num den : Z) : Z :=
  let q := num / den in
  let r := num mod den in
  if 2 * r <? den then q
  else if den <? 2 * r then q + 1
  else if Z.even q then q else q + 1.

(** The hundredths in [m * 2^e], rounded. *)
Definition hundredths (m : positive) (e : Z) : Z :=
  if 0 <=? e then Z.pos m * 2 ^ e * 100
  else round_half_even (Z.pos m * 100) (2 ^ (- e)).

Definition two_digits (n : Z) : string :=
  if n <? 10 then "0" +:+ fmt_d n else fmt_d n.

(** Sign, integer part, point, two digits. *)
Definition fixed2 (neg : bool) (n : Z) : string :=
  (if neg then "-" else "") +:+ fmt_d (n / 100) +:+ "." +:+ two_digits (n mod 100).

(** [shortFmt]: the verb [%.2f] on a float64.  The negative zero and the
    negative values that round to zero keep their sign. *)
Definition shortFmt (f : float64) : string :=
  match Prim2SF f with
  | S754_nan => "NaN"
  | S754_infinity neg => if neg then "-Inf" else "+Inf"
  | S754_zero neg => fixed2 neg 0
  | S754_finite neg m e => fixed2 neg (hundredths m e)
  end.

(** [combined] *)
Definition combined (s : Statistics) : string :=
  shortFmt (Mean s) +:+ "/" +:+ shortFmt (Median s) +:+ "/" +:+
  shortFmt (MedianAbsoluteDeviation s).

(** ** package table (github.com/jedib0t/go-pretty), as [render] uses it *)
Module table.
(** A cell of a [table.Row]: [render] puts strings and one [int] in. *)
Inductive Cell := Str (s : string) | Int (n : Z).
Definition Row := list Cell.

(** What a [table.Writer] has been given when [Render] draws it. *)
Record Writer := {
  header : list Row;
  rows : list Row;
  footer : list Row;
  separators : list nat;
  style : string
}.

Definition NewWriter : Writer :=
  {| header := []; rows := []; footer := []; separators := []; style := "" |}.
Definition AppendHeader (r : Row) (t : Writer) : Writer :=
  {| header := header t ++ [r]; rows := rows t; footer := footer t;
     separators := separators t; style := style t |}.
Definition AppendRow (r : Row) (t : Writer) : Writer :=
  {| header := header t; rows := rows t ++ [r]; footer := footer t;
     separators := separators t; style := style t |}.
(** A separator after the rows appended so far. *)
Definition AppendSeparator (t : Writer) : Writer :=
  {| header := header t; rows := rows t; footer := footer t;
     separators := separators t ++ [length (rows t)]; style := style t |}.
Definition SetStyle (st : string) (t : Writer) : Writer :=
  {| header := header t; rows := rows t; footer := footer t;
     separators := separators t; style := st |}.
End table.

(** The body of [for _, s := range stats] in [render]: the running sum of
    the counts and the row. *)
Definition render_step (acc : table.Writer * Z) (s : ContributorStats)
  : table.Writer * Z :=
  let '(t, prs) := acc in
  let prs := int64 (prs + PRs s) in
  (table.AppendRow
     [table.Str (Author s);
      table.Str (combined (MergeTime s));
      table.Str (combined (Comments s));
      table.Str (combined (Commits s));
      table.Str (combined (ChangeSize s));
      table.Int (PRs s)] t, prs).

(** [render]: the table [t.Render()] draws, and the sum [prs], which the
    function computes and does not use. *)
Definition render (stats : list ContributorStats) : table.Writer * Z :=
  let t := table.NewWriter in
  let t := table.AppendHeader
             [table.Str "Author";
              table.Str "Merge Time (mean/median/mad) hours";
              table.Str "Comments (mean/median/mad)";
              table.Str "Commits (mean/median/mad)";
              table.Str "Change Size +/- (mean/median/mad)";
              table.Str "# of PRs"] t in
  let '(t, prs) := fold_left render_step stats (t, 0) in
  let t := table.AppendSeparator t in
  let t := table.SetStyle "StyleColoredBlackOnGreenWhite" t in
  (t, prs).

(** * Shutting down *)

Definition closes_issues (ev : event) : bool :=
  match ev with EvCloseIssues => true | _ => false end.

(** * Signs *)

(** The sign bit of a float64 is clear, or it is not a number. *)
Definition sf_sign_clear (x : spec_float) : Prop :=
  match x with
  | S754_zero s | S754_infinity s | S754_finite s _ _ => s = false
  | S754_nan => True
  end.
Definition sign_clear (x : float64) : Prop := sf_sign_clear (Prim2SF x).

(** * Clients that report every status other than 200 as an error *)

(** go-github returns an error with every response outside 2xx; with such a
    client, and a server that answers a successful detail request with
    200, a detail call that returns no error returns a 200. *)
Definition non200_is_error (gc : github.Client) : Prop :=
  forall done o n k pr resp,
    github.PullRequests_Get gc done o n k = (pr, resp, None) ->
    github.StatusCode resp = 200.

(** Eleven pages of 100 matches each, every detail call answered 200. *)
Definition client1100 : github.Client :=
  example_client
    (fun page =>
       let k := Z.max page 1 in
       (example_matches ((k - 1) * 100 + 1) 100, if k <? 11 then k + 1 else 0))
    (fun _ => (200, None, None)).
Definition rank1100 (page : Z) : nat := Z.to_nat (11 - Z.max page 1).

(** * Facts about the transition system *)

Lemma int32_small z : - 2 ^ 31 <= z < 2 ^ 31 -> int32 z = z.
Proof.
  intros Hz. unfold int32, wrap.
  rewrite Z.mod_small by (change (2 ^ (32 - 1)) with 2147483648;
    change (2 ^ 32) with 4294967296; change (2 ^ 31) with 2147483648 in Hz; lia).
  lia.
Qed.

Lemma count_of_bounds {A} (P : A -> bool) l : 0 <= count_of P l <= len l.
Proof.
  unfold len. induction l as [|x l IH]; simpl length; simpl count_of; [lia|].
  destruct (P x); lia.
Qed.

Lemma count_of_insert {A} (P : A -> bool) l w x0 x :
  l !! w = Some x0 ->
  count_of P (<[w := x]> l) =
  count_of P l - (if P x0 then 1 else 0) + (if P x then 1 else 0).
Proof.
  revert w. induction l as [|y l IH]; intros [|w] Hw; simplify_eq/=; [lia|].
  rewrite (IH _ Hw). lia.
Qed.

Lemma count_of_lookup_pos {A} (P : A -> bool) l w x :
  l !! w = Some x -> P x = true -> 1 <= count_of P l.
Proof.
  revert w. induction l as [|y l IH]; intros [|w] Hw HP; simplify_eq/=.
  - rewrite HP. pose proof (count_of_bounds P l). lia.
  - specialize (IH _ Hw HP). destruct (P y); lia.
Qed.

Lemma count_of_zero {A} (P : A -> bool) l :
  count_of P l = 0 <-> Forall (fun x => P x = false) l.
Proof.
  induction l as [|y l IH]; simpl.
  - split; [constructor|done].
  - pose proof (count_of_bounds P l). split.
    + intros H0. destruct (P y) eqn:E; [lia|]. constructor; [done|]. apply IH. lia.
    + intros HF. inversion HF; subst. rewrite H2. apply IH in H3. lia.
Qed.

Lemma omap_insert_split {A B} (f : A -> option B) l w x0 x :
  l !! w = Some x0 ->
  exists R, omap f l ≡ₚ option_list (f x0) ++ R /\
            omap f (<[w := x]> l) ≡ₚ option_list (f x) ++ R.
Proof.
  revert w. induction l as [|y l IH]; intros [|w] Hw; simplify_eq/=.
  - exists (omap f l). by destruct (f x0), (f x).
  - destruct (IH _ Hw) as (R & H1 & H2).
    exists (option_list (f y) ++ R). destruct (f y); simpl.
    + rewrite H1, H2. split; apply Permutation_middle.
    + by rewrite H1, H2.
Qed.

Lemma Forall_insert_inv {A} (P : A -> Prop) l w x0 x :
  l !! w = Some x0 -> P x0 -> Forall P (<[w := x]> l) -> Forall P l.
Proof.
  intros Hw Hx0 HF.
  rewrite <-(list_insert_id l w x0), <-(list_insert_insert_eq l w x0 x) by done.
  by apply Forall_insert.
Qed.

Lemma Forall_insert_lookup {A} (P : A -> Prop) l w x0 x :
  l !! w = Some x0 -> Forall P (<[w := x]> l) -> P x.
Proof.
  intros Hw HF. eapply Forall_lookup_1; [done|].
  apply list_lookup_insert_eq. by eapply lookup_lt_Some.
Qed.

Lemma sum_list_with_insert {A} (f : A -> nat) l w x0 x :
  l !! w = Some x0 ->
  (sum_list_with f (<[w := x]> l) + f x0 = sum_list_with f l + f x)%nat.
Proof.
  revert w. induction l as [|y l IH]; intros [|w] Hw; simplify_eq/=; [lia|].
  specialize (IH _ Hw). lia.
Qed.

Lemma count_of_pos_lookup {A} (P : A -> bool) l :
  1 <= count_of P l -> exists w x, l !! w = Some x /\ P x = true.
Proof.
  induction l as [|y l IH]; simpl; [lia|].
  destruct (P y) eqn:E.
  - intros _. by exists 0%nat, y.
  - intros Hc. destruct IH as (w & x & Hw & Hx); [lia|]. by exists (S w), x.
Qed.

Lemma append_assoc (s1 s2 s3 : string) : (s1 +:+ s2) +:+ s3 = s1 +:+ s2 +:+ s3.
Proof.
  induction s1 as [|c s1 IH]; [done|].
  change (String c ((s1 +:+ s2) +:+ s3) = String c (s1 +:+ s2 +:+ s3)).
  by rewrite IH.
Qed.

Lemma searchByAuthor_text prOpts author repo :
  searchByAuthor prOpts author repo = query_text prOpts author repo.
Proof.
  unfold searchByAuthor, query_text.
  destruct (FromDate prOpts) as [|c d]; simpl; by rewrite ?append_assoc.
Qed.

Lemma Split_length s sep : length (Split s sep) = S (count_sep sep s).
Proof.
  induction s as [|c s IH]; simpl; [done|].
  destruct (Ascii.eqb c sep); simpl; [by rewrite IH|].
  destruct (Split s sep); simpl in *; lia.
Qed.

Lemma after_cancel_app tr ev :
  after_cancel (tr ++ ev) = after_cancel tr ++ ev /\ EvCancel ∈ tr \/
  after_cancel (tr ++ ev) = after_cancel ev /\ after_cancel tr = [].
Proof.
  induction tr as [|e tr IH]; simpl; [by right|].
  destruct e; try (destruct IH as [[-> ?]|[-> ?]]; [left|right]; split;
                   [done|by right|done|done]).
  left. split; [done|by left].
Qed.

Lemma cancelled_after_app tr ev :
  cancelled_after tr ->
  (EvCancel ∈ tr -> Forall call_done ev) ->
  cancelled_after ev ->
  cancelled_after (tr ++ ev).
Proof.
  unfold cancelled_after. intros Hc Hin Hev.
  destruct (after_cancel_app tr ev) as [[-> ?]|[-> ?]]; [|done].
  apply Forall_app. auto.
Qed.

(** Names for the definitions that the sections below abbreviate. *)
Local Abbreviation step_def := step (only parsing).
Local Abbreviation fetched_def := fetched (only parsing).
Local Abbreviation in_flight_def := in_flight (only parsing).

Lemma g_exit_inv e s s' ev :
  g_exit e s = (s', ev) ->
  (s' = s /\ ev = [] /\ (e = None \/ g_err s <> None)) \/
  (exists err, e = Some err /\ g_err s = None /\
     s' = set_ctx_done true (set_g_err (Some err) s) /\ ev = [EvCancel]).
Proof.
  unfold g_exit. destruct e as [err|], (g_err s) eqn:E; intros [= <- <-];
    try (left; split_and!; auto; right; congruence).
  right. by exists err.
Qed.

(** Case analysis on a step: one goal per transition of the program. *)
Ltac step_cases H :=
  unfold step_def in H;
  match type of H with
  | (if ?p then _ else _) = _ => destruct p eqn:?; [discriminate|]
  end;
  match type of H with
  | match ?a with _ => _ end = _ => destruct a
  end;
  unfold producer_step, worker_step, main_step, process in H;
  repeat (match type of H with
          | context [match ?x with _ => _ end] =>
              lazymatch x with
              | context [match _ with _ => _ end] => fail
              | _ => destruct x eqn:?
              end
          end; try discriminate);
  simplify_eq;
  repeat match goal with
         | G : g_exit _ _ = _ |- _ =>
             apply g_exit_inv in G as [(-> & -> & ?)|(? & -> & ? & -> & ->)]
         end.

(** A lookup in the pool after one worker moved. *)
Ltac pool_lookup H :=
  match type of H with
  | <[?w := _]> (pool ?s) !! ?w0 = Some _ =>
      destruct (decide (w = w0)) as [->|];
      [rewrite list_lookup_insert_eq in H by (eapply lookup_lt_Some; eassumption)
      |rewrite list_lookup_insert_ne in H by done]
  end.

Section PipelineFacts.
Variable gc : github.Client.
Variable prOpts : SearchPROpts.
Variables repo author : string.

Local Abbreviation step := (step gc prOpts repo author).
Local Abbreviation exec := (exec gc prOpts repo author).

Lemma exec_trans s tr1 s1 tr2 s2 :
  exec s tr1 s1 -> exec s1 tr2 s2 -> exec s (tr1 ++ tr2) s2.
Proof.
  intros H1 H2. induction H2 as [|tr2 s2 a s3 ev H2 IH Hs].
  - by rewrite app_nil_r.
  - rewrite app_assoc. by eapply exec_step.
Qed.

Lemma exec_one a s s' ev : step a s = Some (s', ev) -> exec s ev s'.
Proof. intros H. apply (exec_step _ _ _ _ _ [] s a s' ev); [constructor|done]. Qed.

Lemma first_enabled_step policy s s' ev :
  first_enabled gc prOpts repo author policy s = Some (s', ev) ->
  exists a, step a s = Some (s', ev).
Proof.
  induction policy as [|a policy IH]; simpl; [done|].
  destruct (step a s) as [r|] eqn:E; [|done].
  intros [= ->]. by exists a.
Qed.

Lemma run_policy_exec policy fuel s tr s' :
  run_policy gc prOpts repo author policy fuel s = (tr, s') -> exec s tr s'.
Proof.
  revert s tr s'. induction fuel as [|fuel IH]; intros s tr s'; simpl.
  - intros [= <- <-]. constructor.
  - destruct (first_enabled _ _ _ _ policy s) as [[s1 ev]|] eqn:E.
    + destruct (run_policy _ _ _ _ policy fuel s1) as [tr1 s2] eqn:E2.
      intros [= <- <-]. apply first_enabled_step in E as [a Ha].
      eapply exec_trans; [by eapply exec_one|by apply IH].
    + intros [= <- <-]. constructor.
Qed.

Lemma run_actions_exec sched s tr s' :
  run_actions gc prOpts repo author sched s = Some (tr, s') -> exec s tr s'.
Proof.
  revert s tr s'. induction sched as [|a sched IH]; intros s tr s'; simpl.
  - intros [= <- <-]. constructor.
  - destruct (step a s) as [[s1 ev]|] eqn:E; [|done].
    destruct (run_actions _ _ _ _ sched s1) as [[tr1 s2]|] eqn:E2; [|done].
    intros [= <- <-]. eapply exec_trans; [by eapply exec_one|by apply IH].
Qed.

Lemma run_phases_exec phases s :
  exec s (run_phases gc prOpts repo author phases s).1
         (run_phases gc prOpts repo author phases s).2.
Proof.
  revert s. induction phases as [|[policy fuel] phases IH]; intros s; simpl.
  - constructor.
  - destruct (run_policy _ _ _ _ policy fuel s) as [tr s'] eqn:E.
    specialize (IH s').
    destruct (run_phases _ _ _ _ phases s') as [tr' s'']. simpl in *.
    eapply exec_trans; [by eapply run_policy_exec|done].
Qed.

Lemma first_enabled_None policy s a :
  first_enabled gc prOpts repo author policy s = None ->
  a ∈ policy -> step a s = None.
Proof.
  induction policy as [|b policy IH]; simpl; [by intros _ ?%elem_of_nil|].
  destruct (step b s) as [r|] eqn:E; [done|].
  intros H [->|Ha]%elem_of_cons; [done|by apply IH].
Qed.

(** A state in which none of [all_actions] is enabled is stuck. *)
Lemma stuck_check s :
  first_enabled gc prOpts repo author (all_actions s) s = None ->
  stuck step s.
Proof.
  intros H a. destruct a as [|w pd|].
  - eapply first_enabled_None; [done|]. by left.
  - destruct (decide (w < length (pool s))%nat) as [Hw|Hw].
    + eapply first_enabled_None; [done|]. unfold all_actions. do 2 right.
      apply list_elem_of_In, in_flat_map. exists w.
      split; [apply in_seq; lia|]. destruct pd; simpl; auto.
    + unfold step_def, worker_step.
      rewrite (lookup_ge_None_2 (pool s) w) by lia.
      by destruct (panicked s).
  - eapply first_enabled_None; [done|]. right. by left.
Qed.

(** ** The countdown and the two closes *)

Lemma count_of_app {A} (P : A -> bool) l1 l2 :
  count_of P (l1 ++ l2) = count_of P l1 + count_of P l2.
Proof. induction l1; simpl; lia. Qed.

Lemma countdown_init : countdown_inv [] init.
Proof. by split. Qed.

Lemma countdown_step tr s a s' ev :
  countdown_inv tr s -> step a s = Some (s', ev) -> countdown_inv (tr ++ ev) s'.
Proof.
  intros [Hp Hl Hw Hc Hi Hn] Hs.
  assert (Hb := count_of_bounds counted (pool s)). unfold len in Hb.
  step_cases Hs;
    try match goal with
        | G : pool s !! _ = Some _ |- _ =>
            pose proof (count_of_lookup_pos counted _ _ _ G eq_refl)
        end;
    rewrite ?int32_small in * by lia;
    split; simpl in *; rewrite ?app_nil_r, ?count_of_app, ?length_insert;
    simpl; try done; try lia; try congruence;
    try (erewrite count_of_insert by done; simpl; lia);
    try (destruct (closed (prs s)) eqn:?; simpl in *; intuition (try lia; try congruence)).
Qed.

Lemma countdown_exec tr s : exec init tr s -> countdown_inv tr s.
Proof.
  induction 1 as [|tr s a s' ev _ IH Hs]; [apply countdown_init|].
  by eapply countdown_step.
Qed.

(** ** The group's error and the context *)

Lemma Forall_is_Done_lookup (l : list (Goroutine Worker)) w g :
  Forall (fun g => is_Done g = true) l -> l !! w = Some g -> is_Done g = true.
Proof. intros HF Hw. by eapply Forall_lookup_1 in HF. Qed.

Lemma group_init : group_inv init.
Proof. split; try done. intros [|[|[|[|[|]]]]] e; done. Qed.

Lemma step_not_returned s a s' ev :
  group_inv s -> step a s = Some (s', ev) -> is_returned (main s) = false.
Proof.
  intros [_ _ _ _ Hr] Hs.
  destruct (main s) as [| |res] eqn:Hm; try done.
  destruct (Hr _ eq_refl) as (_ & Hp & Hw).
  step_cases Hs;
    try match goal with
        | G : pool s !! _ = Some _ |- _ =>
            pose proof (Forall_is_Done_lookup _ _ _ Hw G)
        end;
    simplify_eq/=.
Qed.

Lemma group_step s a s' ev :
  group_inv s -> step a s = Some (s', ev) -> group_inv s'.
Proof.
  intros Hinv Hs. pose proof (step_not_returned _ _ _ _ Hinv Hs) as Hnr.
  destruct Hinv as [Hc He Hp Hw Hr].
  step_cases Hs; split; simpl in *; try done; try congruence; eauto;
    try (intros res Hm; rewrite Hm in Hnr; done);
    try (intros w0 e0 Hl; pool_lookup Hl; simplify_eq; eauto);
    try (intros; simplify_eq; intuition congruence).
  intros res [= <-].
  match goal with G : _ && _ = true |- _ => apply andb_prop in G as [G1 G2] end.
  split_and!; try done. rewrite forallb_forall in G2.
  apply Forall_forall. intros g Hg. by apply G2, list_elem_of_In.
Qed.

Lemma group_exec tr s : exec init tr s -> group_inv s.
Proof.
  induction 1 as [|tr s a s' ev _ IH Hs]; [apply group_init|].
  by eapply group_step.
Qed.

(** ** Draining the queues *)

Lemma drain_init : drain_inv init.
Proof. split; try done. intros [|[|[|[|[|]]]]] g; simpl; intros [= <-]; done. Qed.

Lemma drain_step tr s a s' ev :
  countdown_inv tr s -> drain_inv s -> step a s = Some (s', ev) -> drain_inv s'.
Proof.
  intros [Hp Hl Hw Hc Hi Hn] [Hd1 Hd2] Hs.
  assert (Hb := count_of_bounds counted (pool s)). unfold len in Hb.
  step_cases Hs;
    try match goal with
        | G : pool s !! _ = Some _ |- _ =>
            pose proof (count_of_lookup_pos counted _ _ _ G eq_refl)
        end;
    split; simpl in *; try done; try congruence; eauto;
    try (intros w0 g0 Hl0 Hg0; pool_lookup Hl0; simplify_eq/=; eauto);
    try (intros Hm; destruct (Hd1 Hm) as [? ?]; split; congruence);
    try (intros; edestruct Hd2 as [? ?]; [eassumption|eassumption|];
         split; congruence).
Qed.

(** The three invariants together. *)
Lemma invariants tr s :
  exec init tr s -> countdown_inv tr s /\ group_inv s /\ drain_inv s.
Proof.
  induction 1 as [|tr s a s' ev _ (IH1 & IH2 & IH3) Hs].
  - split_and!; [apply countdown_init|apply group_init|apply drain_init].
  - split_and!; [by eapply countdown_step|by eapply group_step|by eapply drain_step].
Qed.

(** ** Calls and cancellation *)

Lemma step_live s a s' ev :
  group_inv s -> step a s = Some (s', ev) -> g_err s' = None ->
  g_err s = None /\ ctx_done s = false /\ Forall live_call ev.
Proof.
  intros Hinv Hs. pose proof (step_not_returned _ _ _ _ Hinv Hs) as Hnr.
  destruct Hinv as [Hc He Hp Hw Hr].
  assert (Hd : g_err s = None -> ctx_done s = false).
  { intros Hg. destruct (ctx_done s); [|done].
    destruct (Hc eq_refl); congruence. }
  step_cases Hs; simpl; intros Hg; try done;
    (split_and!; [done|by apply Hd|]);
    repeat constructor; simpl; by apply Hd.
Qed.

Lemma live_calls tr s : exec init tr s -> g_err s = None -> Forall live_call tr.
Proof.
  induction 1 as [|tr s a s' ev Hex IH Hs]; [constructor|].
  intros Hg. apply invariants in Hex as (_ & Hgi & _).
  destruct (step_live _ _ _ _ Hgi Hs Hg) as (Hg0 & _ & Hev).
  apply Forall_app. auto.
Qed.

(** ** The producer against the search stage *)

Lemma emitted_app tr1 tr2 : emitted (tr1 ++ tr2) = emitted tr1 ++ emitted tr2.
Proof. apply omap_app. Qed.

Lemma producer_future tr s :
  exec init tr s -> Forall live_call tr ->
  forall ms r, future gc prOpts repo author (producer s) ms r ->
               searchStage gc prOpts repo author 0 (emitted tr ++ ms) r.
Proof.
  induction 1 as [|tr s a s' ev Hex IH Hs]; [by intros _ ms r Hf|].
  intros [Hl Hev]%Forall_app ms r. specialize (IH Hl). revert Hev.
  rewrite emitted_app.
  step_cases Hs; simpl; rewrite ?app_nil_r; intros Hev Hf;
    try match goal with G : producer s = _ |- _ => rewrite G in Hf end;
    try (by apply IH).
  - destruct Hf as [-> ->]. apply IH. simpl.
    apply Forall_cons_1 in Hev as [Hd _]. simpl in Hd. rewrite Hd in *.
    by econstructor.
  - destruct Hf as (ms' & -> & Hms). apply IH. simpl.
    apply Forall_cons_1 in Hev as [Hd _]. simpl in Hd. rewrite Hd in *.
    destruct (github.NextPage _ =? 0) eqn:En.
    + destruct Hms as [-> ->]. rewrite app_nil_r. econstructor; [done|lia].
    + econstructor; [done|lia|done].
  - destruct Hf as [-> ->]. apply IH. exists []. split; [done|].
    match goal with G : (_ =? 0) = true |- _ => by rewrite G end.
  - apply IH. exists ms. split; [done|].
    match goal with G : (_ =? 0) = false |- _ => by rewrite G end.
  - rewrite <-app_assoc. apply IH. destruct Hf as (ms' & -> & Hms).
    by exists ms'.
Qed.

Lemma producer_past tr s :
  exec init tr s -> Forall live_call tr ->
  forall ms r, searchStage gc prOpts repo author 0 ms r ->
  exists ms', ms = emitted tr ++ ms' /\
              future gc prOpts repo author (producer s) ms' r.
Proof.
  induction 1 as [|tr s a s' ev Hex IH Hs]; [intros _ ms r Hst; by exists ms|].
  intros [Hl Hev]%Forall_app ms r Hst.
  destruct (IH Hl ms r Hst) as (ms' & -> & Hf). clear IH Hst. revert Hev Hf.
  rewrite emitted_app.
  step_cases Hs; simpl; rewrite ?app_nil_r; intros Hev Hf;
    try (by exists ms');
    try (exists ms'; split; [done|];
         match goal with G : producer s = _ |- _ => by rewrite G end);
    try match goal with G : producer s = _ |- _ => rewrite G in Hf end;
    try (apply Forall_cons_1 in Hev as [Hd _]; simpl in Hd; rewrite Hd in * ).
  - inversion Hf as [? ? ? ? Hq|? ? ? Hq|? ? ? ? ? Hq]; subst;
      rewrite Heqp0 in Hq; simplify_eq. by exists [].
  - inversion Hf as [? ? ? ? Hq|? ? ? Hq Hn|? ? ? ? ? Hq Hn]; subst;
      rewrite Heqp0 in Hq; simplify_eq.
    + eexists. split; [done|]. exists []. rewrite app_nil_r.
      split; [done|]. by rewrite Hn.
    + eexists. split; [done|]. eexists. split; [done|].
      by rewrite (proj2 (Z.eqb_neq _ _)).
  - destruct Hf as (m & -> & Hm).
    match goal with G : (_ =? 0) = true |- _ => rewrite G in Hm end.
    destruct Hm as [-> ->]. by exists [].
  - destruct Hf as (m & -> & Hm).
    match goal with G : (_ =? 0) = false |- _ => rewrite G in Hm end.
    by exists m.
  - destruct Hf as (m & -> & Hm). exists (l ++ m).
    split; [by rewrite <-app_assoc|]. by exists m.
Qed.

(** ** Every match is accounted for *)

Local Abbreviation fetched := (fetched gc repo).
Local Abbreviation in_flight := (in_flight gc repo).

Lemma fetched_not_pr i : github.IsPullRequest i = false -> fetched i = None.
Proof. unfold fetched_def. by intros ->. Qed.

Lemma fetched_err i pr r e :
  github.IsPullRequest i = true ->
  github.PullRequests_Get gc false (owner repo) (name repo)
    (github.GetNumber i) = (pr, r, Some e) ->
  fetched i = None.
Proof. unfold fetched_def. by intros -> ->. Qed.

Lemma fetched_ok i pr r :
  github.IsPullRequest i = true ->
  github.PullRequests_Get gc false (owner repo) (name repo)
    (github.GetNumber i) = (pr, r, None) ->
  fetched i = Some pr.
Proof. unfold fetched_def. by intros -> ->. Qed.

Lemma flow tr s :
  exec init tr s -> Forall live_call tr ->
  Forall (fun g => errored g = false) (pool s) ->
  omap fetched (emitted tr) ≡ₚ in_flight s.
Proof.
  unfold in_flight_def.
  induction 1 as [|tr s a s' ev Hex IH Hs]; [by intros _ _|].
  intros [Hl Hev]%Forall_app. specialize (IH Hl). revert Hev.
  rewrite emitted_app, omap_app.
  step_cases Hs; simpl; rewrite ?app_nil_r; intros Hev Hne;
    try (by apply IH);
    try (apply Forall_cons_1 in Hev as [Hd _]; simpl in Hd; rewrite Hd in * );
    repeat match goal with
           | G : negb _ = true |- _ => apply negb_true_iff in G
           | G : negb _ = false |- _ => apply negb_false_iff in G
           end;
    try lazymatch goal with
        | Hw : pool s !! ?w = Some ?g0,
          Hn : Forall _ (<[?w := ?g]> (pool s)) |- _ =>
            let Hg := fresh "Hg" in
            pose proof (Forall_insert_lookup _ _ _ _ _ Hw Hn) as Hg;
            simpl in Hg; try discriminate Hg;
            (apply (Forall_insert_inv _ _ _ _ _ Hw) in Hn;
             [|first [reflexivity|exact Hg]]);
            destruct (omap_insert_split held _ w g0 g Hw) as (Rh & Hh1 & Hh2);
            destruct (omap_insert_split inflight _ w g0 g Hw) as (Ri & Hi1 & Hi2);
            cbn [held inflight option_list] in Hh1, Hh2, Hi1, Hi2;
            rewrite Hh2, Hi2
        end;
    specialize (IH Hne);
    try rewrite Hh1, Hi1 in IH;
    try match goal with G : buf (issues s) = _ |- _ => rewrite G end;
    try match goal with G : buf (prs s) = _ |- _ => rewrite G end;
    try match goal with
        | G : buf _ = ?x :: ?l |- _ => change (x :: l) with ([x] ++ l) in *
        end;
    rewrite ?omap_app in *; simpl in *;
    try (erewrite fetched_not_pr in * by eassumption);
    try (erewrite fetched_err in * by eassumption);
    try (erewrite fetched_ok in * by eassumption);
    simpl in *; rewrite IH; try solve_Permutation;
    try (destruct (fetched _); solve_Permutation).
Qed.

Lemma omap_all_None {A B} (f : A -> option B) l :
  Forall (fun x => f x = None) l -> omap f l = [].
Proof. induction 1 as [|x l Hx _ IH]; simpl; [done|]. by rewrite Hx. Qed.

(** The state in which [pullRequests] returned a nil error. *)
Lemma returned_nil_state tr s allPRs0 :
  exec init tr s -> main s = MReturned (allPRs0, None) ->
  allPRs0 = allPRs s /\ g_err s = None /\ producer s = Done None /\
  Forall (fun g => g = Done None) (pool s) /\
  buf (issues s) = [] /\ buf (prs s) = [].
Proof.
  intros Hex Hm. destruct (invariants _ _ Hex) as (Hc & Hg & Hd).
  destruct (gi_ret _ Hg _ Hm) as ([= -> Hge] & Hp & Hw).
  assert (Hpool : Forall (fun g => g = Done None) (pool s)).
  { apply Forall_lookup. intros w g Hl.
    pose proof (Forall_is_Done_lookup _ _ _ Hw Hl) as Hdone.
    destruct g as [| | |[e|]]; try done.
    destruct (gi_pool _ Hg _ _ Hl). by symmetry. }
  split_and!; try done.
  - destruct (producer s) as [| | |[e|]] eqn:E; try done.
    destruct (gi_producer _ Hg _ E). by symmetry.
  - destruct (pool s) as [|g l] eqn:E.
    { by pose proof (ci_pool _ _ Hc) as Hlen; rewrite E in Hlen. }
    apply Forall_cons_1 in Hpool as [-> _].
    apply (di_issues _ Hd 0%nat (Done None)); [by rewrite E|done].
  - apply (di_prs _ Hd). by rewrite Hm.
Qed.

(** C1: when [pullRequests] returns a nil error, the collection it returns
    holds exactly the detail records of the matches the search stage emitted
    that are pull requests and whose detail call returned no error: each of
    them once, and nothing else (no record for a match that is not a pull
    request or whose detail call failed). *)
Theorem pullRequests_reduces_fetched tr prs0 :
  pullRequests gc prOpts repo author tr (prs0, None) ->
  exists ms, searchStage gc prOpts repo author 0 ms None /\
             ms = emitted tr /\
             prs0 ≡ₚ omap fetched ms.
Proof.
  intros [? ? [=]|s _ Hex Hm].
  destruct (returned_nil_state _ _ _ Hex Hm) as (-> & Hge & Hp & Hw & Hi & Hprs).
  pose proof (live_calls _ _ Hex Hge) as Hlive.
  exists (emitted tr). split_and!; [|done|].
  - rewrite <-(app_nil_r (emitted tr)).
    apply (producer_future _ _ Hex Hlive). by rewrite Hp.
  - rewrite (flow _ _ Hex Hlive).
    + unfold in_flight_def. rewrite Hi, Hprs. simpl.
      rewrite (omap_all_None held), (omap_all_None inflight); [done| |].
      all: eapply Forall_impl; [exact Hw|]; by intros g ->.
    + eapply Forall_impl; [exact Hw|]. by intros g ->.
Qed.

(** ** Progress and termination *)

Lemma has_room_nil {A} (c : Chan A) : buf c = [] -> has_room c = true.
Proof. unfold has_room. by intros ->. Qed.

(** While the reduce loop runs, some goroutine can move. *)
Lemma reduce_progress tr s :
  exec init tr s -> main s = MRange ->
  exists a s' ev, step a s = Some (s', ev).
Proof.
  intros Hex Hm. destruct (invariants _ _ Hex) as ([Hp Hl Hw Hc Hi Hn] & _ & _).
  destruct (buf (prs s)) as [|pr rest] eqn:Eprs.
  2:{ exists AMain. unfold step_def, main_step. rewrite Hp, Hm, Eprs. eauto. }
  destruct (closed (prs s)) eqn:Ecl.
  { exists AMain. unfold step_def, main_step. rewrite Hp, Hm, Eprs, Ecl. eauto. }
  pose proof (count_of_bounds counted (pool s)) as Hb.
  destruct (count_of_pos_lookup counted (pool s)) as (w & g & Hg & Hcnt).
  { destruct (decide (workers s = 0)) as [H0|H0]; [|lia].
    apply Hc in H0. congruence. }
  pose proof (count_of_lookup_pos counted _ _ _ Hg Hcnt) as Hpos.
  assert (Hroom : has_room (prs s) = true) by by apply has_room_nil.
  destruct g as [[|i|pr]|e|e|e]; try done.
  - (* a worker at the range over issues *)
    destruct (buf (issues s)) as [|i rest] eqn:Eis.
    2:{ exists (AWorker w false). unfold step_def, worker_step.
        rewrite Hp, Hg, Eis. eauto. }
    destruct (closed (issues s)) eqn:Eic.
    { exists (AWorker w false). unfold step_def, worker_step.
      rewrite Hp, Hg, Eis, Eic. eauto. }
    exists AProducer. unfold step_def, producer_step. rewrite Hp.
    destruct (producer s) as [[page|[|i rest] next]|e|e|e]; try done.
    + destruct (github.Search_Issues _ _ _ _) as [[sr resp] [e|]]; eauto.
    + destruct (next =? 0); eauto.
    + rewrite Eic, (has_room_nil (issues s)) by done. eauto.
    + rewrite Eic. eauto.
  - exists (AWorker w false). unfold step_def, worker_step. rewrite Hp, Hg.
    destruct (process _ _ _ _) as [g ev]. eauto.
  - exists (AWorker w false). unfold step_def, worker_step.
    rewrite Hp, Hg, Ecl, Hroom. eauto.
  - exists (AWorker w false). unfold step_def, worker_step. rewrite Hp, Hg.
    simpl. rewrite Ecl. destruct (_ =? 0); eauto.
Qed.

(** ** Cancellation *)

Lemma cancel_recorded tr s :
  exec init tr s -> (EvCancel ∈ tr <-> g_err s <> None).
Proof.
  induction 1 as [|tr s a s' ev Hex IH Hs].
  - split; [by intros ?%elem_of_nil|done].
  - rewrite elem_of_app, IH.
    step_cases Hs; simpl; rewrite ?elem_of_cons, ?elem_of_nil;
      try (intuition congruence).
Qed.

Lemma cancelled_after_exec tr s : exec init tr s -> cancelled_after tr.
Proof.
  induction 1 as [|tr s a s' ev Hex IH Hs]; [by constructor|].
  apply cancelled_after_app; [done| |].
  - intros Hin. apply (cancel_recorded _ _ Hex) in Hin.
    destruct (invariants _ _ Hex) as (_ & Hg & _).
    pose proof (gi_err _ Hg Hin) as Hd.
    step_cases Hs; repeat constructor; done.
  - unfold cancelled_after. step_cases Hs; simpl; done.
Qed.

(** C2: the cancellation signal is handed to every remote call
    and checked by the pipeline itself at the workers' send on the output
    queue.  Once an error is recorded the context is cancelled and every
    later remote call is made with the cancelled context; with a client that
    honours the context, such a search call ends the producer, such a detail
    call is a skip (the worker goes on with the next item, nothing is put on
    the output queue), and a worker at its select can take the ctx.Done()
    case and return the context's error. *)
Theorem cancellation_reaches_calls tr s :
  exec init tr s ->
  cancelled_after tr /\
  (EvCancel ∈ tr <-> g_err s <> None) /\
  (g_err s <> None -> ctx_done s = true) /\
  (honours_ctx gc -> ctx_done s = true ->
   (forall page s' ev,
      producer s = Running (PSearch page) ->
      step AProducer s = Some (s', ev) ->
      exists e, producer s' = Deferred (Some e) /\ issues s' = issues s) /\
   (forall w pd i s' ev,
      pool s !! w = Some (Running (WGot i)) ->
      step (AWorker w pd) s = Some (s', ev) ->
      pool s' !! w = Some (Running WRange) /\ prs s' = prs s) /\
   (forall w pr,
      pool s !! w = Some (Running (WSelect pr)) ->
      step (AWorker w true) s =
      Some (set_worker w (Deferred (Some Canceled)) s, []))).
Proof.
  intros Hex. destruct (invariants _ _ Hex) as ([Hp _ _ _ _ _] & Hg & _).
  split_and!.
  - by eapply cancelled_after_exec.
  - by apply cancel_recorded.
  - apply (gi_err _ Hg).
  - intros [Hs Hget] Hd. split_and!.
    + intros page s' ev Hpr. unfold step_def, producer_step.
      rewrite Hp, Hpr, Hd. specialize (Hs (sba prOpts repo author)
        {| github.Page := page; github.PerPage := 100 |}).
      destruct (github.Search_Issues _ _ _ _) as [[sr resp] [e|]]; [|done].
      intros [= <- <-]. by exists e.
    + intros w pd i s' ev Hw. unfold step_def, worker_step, process.
      rewrite Hp, Hw, Hd.
      specialize (Hget (owner repo) (name repo) (github.GetNumber i)).
      destruct (github.IsPullRequest i); simpl.
      * destruct (github.PullRequests_Get _ _ _ _ _) as [[pr resp] [e|]];
          [|done].
        intros [= <- <-]. simpl. split; [|done].
        apply list_lookup_insert_eq. by eapply lookup_lt_Some.
      * intros [= <- <-]. simpl. split; [|done].
        apply list_lookup_insert_eq. by eapply lookup_lt_Some.
    + intros w pr Hw. unfold step_def, worker_step. by rewrite Hp, Hw, Hd.
Qed.

(** C4: what a worker does with a pull-request match.  A detail
    call that returns an error is a skip, whatever the status of the response
    that comes with it: no output, no error, the worker goes on.  A detail
    call that returns no error but a status other than 200 makes the worker
    return an error: the error of closing the response body if that fails,
    otherwise one made of the status code, the item number and the body.
    Once a worker has returned an error, a result of [pullRequests] carries a
    non-nil error. *)
Theorem worker_item_outcome done i pr resp err :
  github.IsPullRequest i = true ->
  github.PullRequests_Get gc done (owner repo) (name repo)
    (github.GetNumber i) = (pr, resp, err) ->
  let ev := [EvGet done (owner repo) (name repo) (github.GetNumber i)] in
  (err <> None -> process gc repo done i = (Running WRange, ev)) /\
  (err = None -> github.StatusCode resp = 200 ->
   process gc repo done i = (Running (WSelect pr), ev)) /\
  (err = None -> github.StatusCode resp <> 200 ->
   process gc repo done i =
   (Deferred (Some (match github.Body_Close resp with
                    | Some e => e
                    | None =>
                        "PR GET (" +:+ fmt_d (github.StatusCode resp) +:+
                        "): [" +:+ fmt_d (github.GetNumber i) +:+ "] - " +:+
                        github.Body resp
                    end)), ev)) /\
  (forall tr s w g res,
     exec init tr s -> pool s !! w = Some g -> errored g = true ->
     main s = MReturned res -> res.2 <> None).
Proof.
  intros Hpr Hget ev. unfold process. rewrite Hpr, Hget. simpl. split_and!.
  - by destruct err.
  - intros -> ->. done.
  - intros -> Hst. apply Z.eqb_neq in Hst. rewrite Hst. simpl.
    by destruct (github.Body_Close resp).
  - intros tr s w g res Hex Hw Hg Hm.
    destruct (invariants _ _ Hex) as (_ & Hgi & _).
    destruct (gi_ret _ Hgi _ Hm) as (-> & _ & Hdone).
    pose proof (Forall_is_Done_lookup _ _ _ Hdone Hw) as Hd.
    destruct g as [| | |[e|]]; try done. simpl.
    by eapply gi_pool.
Qed.

(** C5: a repository identifier that does not split on "/"
    into exactly two tokens (it does not hold exactly one "/"; the tokens
    themselves may be empty) makes [pullRequests] return a nil collection and
    [errRepoFmt], and nothing else: no remote call, no event at all. *)
Theorem repo_format_checked tr res :
  length (Split repo "/") <> 2%nat ->
  count_sep "/" repo <> 1%nat /\
  (pullRequests gc prOpts repo author tr res <->
   tr = [] /\ res = ([], Some errRepoFmt)).
Proof.
  intros Hlen. split; [rewrite Split_length in Hlen; lia|].
  assert (Hne : len (ownerAndRepo repo) <> ownerRepoTokenLen).
  { unfold len, ownerAndRepo, ownerRepoTokenLen. lia. }
  split.
  - by intros [? ? ?|s Heq _ _].
  - intros [-> ->]. by apply pullRequests_fmt.
Qed.

(** C7: the search stage.  Every search call carries the query
    "is:pull-request is:closed is:merged repo:<repo>[ created:><from>]
    author:<author>" and asks for 100 items a page; and, the context not
    being cancelled, when the producer has returned [e] it has put on the
    input queue exactly what [searchStage] says: the items of every page in
    the order of the pages, up to the first response without a next-page
    token ([e] nil) or up to the first failed call ([e] its error). *)
Theorem search_stage_emits tr s :
  exec init tr s ->
  Forall (fun ev => match ev with
                    | EvSearch _ q o =>
                        q = query_text prOpts author repo /\
                        github.PerPage o = 100
                    | _ => True
                    end) tr /\
  (Forall live_call tr ->
   forall e, producer s = Deferred e \/ producer s = Exiting e \/
             producer s = Done e ->
             searchStage gc prOpts repo author 0 (emitted tr) e) /\
  (Forall live_call tr ->
   forall ms e, searchStage gc prOpts repo author 0 ms e ->
                emitted tr `prefix_of` ms).
Proof.
  intros Hex. split_and!.
  - clear -Hex. induction Hex as [|tr s a s' ev Hex IH Hs]; [constructor|].
    apply Forall_app. split; [done|].
    step_cases Hs; repeat constructor; simpl; try done.
    all: by rewrite <-searchByAuthor_text.
  - intros Hlive e Hp.
    rewrite <-(app_nil_r (emitted tr)).
    apply (producer_future _ _ Hex Hlive).
    by destruct Hp as [->|[->| ->]].
  - intros Hlive ms e Hst.
    destruct (producer_past _ _ Hex Hlive ms e Hst) as (ms' & -> & _).
    by exists ms'.
Qed.

Section Termination.
Variable rank : Z -> nat.
Hypothesis Hrank : pagination_ends gc (sba prOpts repo author) rank.

(** Every step decreases ([pages_left], [work_left]). *)
Lemma step_decreases s a s' ev :
  step a s = Some (s', ev) ->
  (pages_left rank s' < pages_left rank s)%nat \/
  (pages_left rank s' = pages_left rank s /\ work_left s' < work_left s)%nat.
Proof.
  intros Hs. unfold pages_left, work_left.
  step_cases Hs; simpl;
    try match goal with
        | G : pool s !! ?w = Some ?g0 |- context [<[?w := ?g]> (pool s)] =>
            pose proof (sum_list_with_insert worker_weight _ w g0 g G) as Hsum;
            simpl in Hsum
        end;
    repeat match goal with
           | G : _ = _ |- _ => rewrite G
           end; simpl; rewrite ?length_app; simpl; try lia.
  left. destruct (github.NextPage r =? 0) eqn:E; [lia|].
  apply Z.eqb_neq in E.
  match goal with G : github.Search_Issues _ _ _ _ = _ |- _ =>
    pose proof (Hrank _ _ _ _ G E) end.
  lia.
Qed.

(** On every schedule the reduce loop is left: the calling goroutine gets
    to [g.Wait()]. *)
Lemma reduce_loop_ends tr s :
  exec init tr s -> inevitably step (fun s => main s <> MRange) s.
Proof.
  remember (pages_left rank s) as k eqn:Ek.
  remember (work_left s) as m eqn:Em.
  revert m tr s Ek Em.
  induction k as [k IHk] using lt_wf_ind.
  induction m as [m IHm] using lt_wf_ind.
  intros tr s -> -> Hex.
  destruct (main s) eqn:Hm;
    [|apply inevitably_now; congruence|apply inevitably_now; congruence].
  apply inevitably_later; [by eapply reduce_progress|].
  intros a s' ev Hs.
  assert (Hex' : exec init (tr ++ ev) s') by by eapply exec_step.
  destruct (step_decreases _ _ _ _ Hs) as [Hlt|[Heq Hlt]].
  - by eapply IHk.
  - eapply IHm; [exact Hlt|by rewrite Heq|done|done].
Qed.

(** C3: the output queue is closed exactly once.  In every execution the
    program never panics (no second close, no send on a closed channel);
    [close(prs)] has run once if the queue is closed and never otherwise; it
    is run by the worker whose decrement takes the countdown from 1 to 0,
    all others having decremented before; and, pagination being finite, on
    every schedule the reduce loop is left, on the error path as on the
    success path, by which time the queue was closed exactly once. *)
Theorem output_queue_closed_once tr s :
  exec init tr s ->
  panicked s = false /\
  count_of closes_prs tr = (if closed (prs s) then 1 else 0) /\
  (main s <> MRange -> count_of closes_prs tr = 1) /\
  (forall a s' ev w,
     step a s = Some (s', ev) -> EvClosePRs w ∈ ev ->
     exists e pd, a = AWorker w pd /\ pool s !! w = Some (Deferred e) /\
       workers s = 1 /\ workers s' = 0 /\ count_of counted (pool s') = 0) /\
  inevitably step (fun s => main s <> MRange) s.
Proof.
  intros Hex. destruct (invariants _ _ Hex) as (Hc & _ & Hd).
  split_and!.
  - apply Hc.
  - apply Hc.
  - intros Hm. destruct (di_prs _ Hd Hm) as [_ Hcl].
    by rewrite (ci_closes _ _ Hc), Hcl.
  - intros a s' ev w Hs Hin.
    pose proof (countdown_step _ _ _ _ _ Hc Hs) as Hc'.
    pose proof (ci_workers _ _ Hc') as Hw'.
    destruct Hc as [Hp Hl Hw Hcl Hi Hn].
    pose proof (count_of_bounds counted (pool s)) as Hb. unfold len in Hb.
    step_cases Hs;
      repeat (apply elem_of_cons in Hin as [Hin|Hin]; try discriminate);
      try (by apply elem_of_nil in Hin).
    simplify_eq.
    match goal with
    | G : pool s !! _ = Some _ |- _ =>
        pose proof (count_of_lookup_pos counted _ _ _ G eq_refl)
    end.
    rewrite int32_small in * by lia.
    match goal with G : (_ =? 0) = true |- _ => apply Z.eqb_eq in G end.
    simpl in *. eexists _, _. split_and!; try done; lia.
  - by eapply reduce_loop_ends.
Qed.
End Termination.
End PipelineFacts.

(** * The example runs *)

Lemma run_policy_exec' gc prOpts repo author policy fuel s :
  exec gc prOpts repo author s
    (run_policy gc prOpts repo author policy fuel s).1
    (run_policy gc prOpts repo author policy fuel s).2.
Proof.
  destruct (run_policy gc prOpts repo author policy fuel s) eqn:E.
  by eapply run_policy_exec.
Qed.

Lemma client207_pagination_ends query :
  pagination_ends client207 query rank207.
Proof.
  intros done page sr resp H Hn. destruct done; [done|].
  unfold rank207. simpl in H.
  destruct (page =? 0) eqn:E0; [|destruct (page =? 2) eqn:E2];
    simplify_eq/=; try done; lia.
Qed.

(** Fifty matches, five failed detail calls: 45 records and a nil error. *)
Lemma pullRequests_reduces_fetched_witness :
  pullRequests client50 example_opts "jtsiros/devstats" "alice"
    run50.1 (allPRs run50.2, None) /\
  length (emitted run50.1) = 50%nat /\
  length (allPRs run50.2) = 45%nat /\
  exists ms,
    searchStage client50 example_opts "jtsiros/devstats" "alice" 0 ms None /\
    ms = emitted run50.1 /\
    allPRs run50.2 ≡ₚ omap (fetched client50 "jtsiros/devstats") ms.
Proof.
  assert (H : pullRequests client50 example_opts "jtsiros/devstats" "alice"
                run50.1 (allPRs run50.2, None)).
  { eapply pullRequests_run;
      [vm_compute; reflexivity|apply run_policy_exec'|vm_compute; reflexivity]. }
  split_and!;
    [exact H|vm_compute; reflexivity|vm_compute; reflexivity|
     exact (pullRequests_reduces_fetched _ _ _ _ _ _ H)].
Defined.

(** One fatal detail response: the error is recorded, the context is
    cancelled, and the calls made afterwards carry the cancelled context. *)
Lemma cancellation_reaches_calls_witness :
  exec client500 example_opts "jtsiros/devstats" "alice" init
    run500.1 run500.2 /\
  g_err run500.2 = Some "PR GET (500): [1] - boom" /\
  cancelled_after run500.1 /\
  (EvCancel ∈ run500.1 <-> g_err run500.2 <> None).
Proof.
  assert (H : exec client500 example_opts "jtsiros/devstats" "alice" init
                run500.1 run500.2) by apply run_policy_exec'.
  split_and!;
    [exact H|vm_compute; reflexivity|
     exact (proj1 (cancellation_reaches_calls _ _ _ _ _ _ H))|
     exact (proj1 (proj2 (cancellation_reaches_calls _ _ _ _ _ _ H)))].
Defined.

(** After the fatal response to the detail call of match 1 has cancelled
    the context, the producer goes on to put the matches 2, 3 and 4 on the
    input queue, and a sibling worker goes on to issue the detail calls of
    the matches 3 and 4. *)
Lemma work_goes_on_after_cancel :
  honours_ctx client500 /\
  exec client500 example_opts "jtsiros/devstats" "alice" init
    run500_late.1 run500_late.2 /\
  main run500_late.2 = MReturned ([], Some "PR GET (500): [1] - boom") /\
  after_cancel run500_late.1 =
  [EvIssue (example_issue false 2); EvIssue (example_issue true 3);
   EvGet true "jtsiros" "devstats" 3; EvIssue (example_issue true 4);
   EvGet true "jtsiros" "devstats" 4; EvCloseIssues; EvClosePRs 3].
Proof.
  split_and!;
    [by split|apply run_policy_exec'|vm_compute; reflexivity|
     vm_compute; reflexivity].
Qed.

(** X1: [g.Wait()] can block for ever.  Eleven pages of 100 matches; worker 0
    gets a 202 for match 1 while the workers 1, 2 and 3 hold the records of
    the matches 2, 3 and 4 at their select.  Worker 0 returns its error, the
    others take the ctx.Done() case, the last one closes the output queue
    and the reduce loop ends.  The producer, which looks at the context
    only in its search calls, has refilled the input queue and is blocked
    at its send of match 1029 with nobody left to receive: no goroutine can
    move, and the caller is inside [g.Wait()]. *)
Theorem wait_can_block_forever :
  exec client_flood example_opts "jtsiros/devstats" "alice" init
    run_flood.1 run_flood.2 /\
  stuck (step client_flood example_opts "jtsiros/devstats" "alice")
    run_flood.2 /\
  main run_flood.2 = MWait /\
  ctx_done run_flood.2 = true /\
  g_err run_flood.2 = Some "PR GET (202): [1] - boom" /\
  pool run_flood.2 =
  [Done (Some "PR GET (202): [1] - boom"); Done (Some Canceled);
   Done (Some Canceled); Done (Some Canceled)] /\
  length (buf (issues run_flood.2)) = 1024%nat /\
  exists rest,
    producer run_flood.2 = Running (PSend (example_issue true 1029 :: rest) 0).
Proof.
  split_and!; try (vm_compute; reflexivity).
  - apply run_phases_exec.
  - apply stuck_check. vm_compute. reflexivity.
  - eexists. vm_compute. reflexivity.
Qed.

(** The three pages of 100, 100 and 7 matches: closed once, no panic. *)
Lemma output_queue_closed_once_witness :
  pagination_ends client207
    (sba example_opts "jtsiros/devstats" "alice") rank207 /\
  exec client207 example_opts "jtsiros/devstats" "alice" init
    run207_all.1 run207_all.2 /\
  panicked run207_all.2 = false /\
  count_of closes_prs run207_all.1 = 1 /\
  inevitably (step client207 example_opts "jtsiros/devstats" "alice")
    (fun s => main s <> MRange) run207_all.2.
Proof.
  assert (H : exec client207 example_opts "jtsiros/devstats" "alice" init
                run207_all.1 run207_all.2) by apply run_policy_exec'.
  pose proof (output_queue_closed_once _ _ _ _ _
                (client207_pagination_ends _) _ _ H) as (H1 & H2 & H3 & _ & H5).
  split_and!; [apply client207_pagination_ends|exact H|exact H1| |exact H5].
  apply H3. vm_compute. discriminate.
Defined.

(** The detail call of match 1 answers 500 with no error. *)
Lemma worker_item_outcome_witness :
  github.IsPullRequest (example_issue true 1) = true /\
  process client500 "jtsiros/devstats" false (example_issue true 1) =
  (Deferred (Some "PR GET (500): [1] - boom"),
   [EvGet false "jtsiros" "devstats" 1]).
Proof.
  split; [reflexivity|].
  refine (proj1 (proj2 (proj2
    (worker_item_outcome client500 example_opts "jtsiros/devstats" "alice"
       false (example_issue true 1) _ _ _ eq_refl eq_refl))) eq_refl _).
  vm_compute. discriminate.
Defined.

(** A 404 that comes with an error is skipped, and a failed close of the
    body replaces the error that carries the status code. *)
Lemma non200_is_not_always_that_error :
  github.StatusCode
    (github.PullRequests_Get client404 false "jtsiros" "devstats" 1).1.2 = 404 /\
  (process client404 "jtsiros/devstats" false (example_issue true 1)).1 =
  Running WRange /\
  github.StatusCode
    (github.PullRequests_Get client_close false "jtsiros" "devstats" 1).1.2
  = 500 /\
  (process client_close "jtsiros/devstats" false (example_issue true 1)).1 =
  Deferred (Some "close failed").
Proof. by vm_compute. Qed.

(** "cockroachdb" has no slash. *)
Lemma repo_format_checked_witness :
  length (Split "cockroachdb" "/") <> 2%nat /\
  pullRequests client50 example_opts "cockroachdb" "alice" []
    ([], Some errRepoFmt).
Proof.
  assert (H : length (Split "cockroachdb" "/") <> 2%nat)
    by (vm_compute; discriminate).
  split; [exact H|].
  apply (proj2 (repo_format_checked client50 example_opts "cockroachdb" "alice"
                  [] ([], Some errRepoFmt) H)).
  by split.
Defined.

(** "owner/" splits into "owner" and the empty token: the check passes and
    the pipeline runs, search call and all. *)
Lemma empty_token_passes :
  Split "owner/" "/" = ["owner"; ""] /\
  ~ two_nonempty_tokens "owner/" /\
  pullRequests client50 example_opts "owner/" "alice"
    run_slash.1 (allPRs run_slash.2, None) /\
  head run_slash.1 =
  Some (EvSearch false
          "is:pull-request is:closed is:merged repo:owner/ created:>2021-01-01 author:alice"
          {| github.Page := 0; github.PerPage := 100 |}) /\
  length (allPRs run_slash.2) = 45%nat.
Proof.
  split_and!; try (vm_compute; reflexivity).
  - intros (a & b & H & Ha & Hb). vm_compute in H. congruence.
  - eapply pullRequests_run;
      [vm_compute; reflexivity|apply run_policy_exec'|vm_compute; reflexivity].
Qed.

(** Pages of 100, 100 and 7 matches, the fourth absent: 207 emitted, nil. *)
Lemma search_stage_emits_witness :
  exec client207 example_opts "jtsiros/devstats" "alice" init
    run207.1 run207.2 /\
  producer run207.2 = Done None /\
  length (emitted run207.1) = 207%nat /\
  searchStage client207 example_opts "jtsiros/devstats" "alice" 0
    (emitted run207.1) None.
Proof.
  assert (H : exec client207 example_opts "jtsiros/devstats" "alice" init
                run207.1 run207.2) by apply run_policy_exec'.
  assert (Hp : producer run207.2 = Done None) by (vm_compute; reflexivity).
  split_and!; [exact H|exact Hp|vm_compute; reflexivity|].
  apply (proj1 (proj2 (search_stage_emits _ _ _ _ _ _ H))).
  - apply (live_calls _ _ _ _ _ _ H). vm_compute. reflexivity.
  - right. right. exact Hp.
Defined.

(** * [run] *)

Lemma run_from_spec gc prOpts authors cstats log res :
  run_from gc prOpts authors cstats log res ->
  match res with
  | (Some out, None) =>
      map fst log = authors /\
      exists new, out = cstats ++ new /\
        Forall2 (fun entry c =>
                   exists prs,
                     pullRequests gc prOpts (Repo prOpts) entry.1 entry.2
                       (prs, None) /\
                     c = stats_for entry.1 prs) log new
  | (None, Some e) =>
      exists before a after log0 tr prs,
        authors = before ++ a :: after /\
        log = log0 ++ [(a, tr)] /\ map fst log0 = before /\
        Forall (fun entry =>
                  exists prs, pullRequests gc prOpts (Repo prOpts)
                                entry.1 entry.2 (prs, None)) log0 /\
        pullRequests gc prOpts (Repo prOpts) a tr (prs, Some e)
  | _ => False
  end.
Proof.
  intros H.
  induction H as [cstats|a authors cstats tr prs e Hp|
                  a authors cstats tr prs log res Hp Hrun IH].
  - split; [done|]. exists []. by rewrite app_nil_r.
  - by exists [], a, authors, [], tr, prs.
  - destruct res as [[out|] [e|]]; try done.
    + destruct IH as (Hlog & new & -> & Hall).
      split; [by rewrite <-Hlog|].
      exists (stats_for a prs :: new). split; [by rewrite <-app_assoc|].
      constructor; [by exists prs|done].
    + destruct IH as (before & a' & after & log0 & tr' & prs' &
                      -> & -> & <- & Hall & Hlast).
      exists (a :: map fst log0), a', after, ((a, tr) :: log0), tr', prs'.
      split_and!; try done. constructor; [by exists prs|done].
Qed.

Lemma Author_stats_for a prs : Author (stats_for a prs) = a.
Proof. done. Qed.

(** C8: [run] goes through the requested authors in order, one pipeline
    each.  If it renders, every pipeline returned a nil error and there is
    one record per author, in the authors' order, each with its author's
    login and the statistics of what that author's pipeline returned.  If it
    returns an error, that is the error of the first pipeline that failed,
    every pipeline before it returned nil, and no pipeline was run for the
    authors after it. *)
Theorem run_in_order gc prOpts log res :
  run gc prOpts log res ->
  match res with
  | (Some cstats, None) =>
      map fst log = Authors prOpts /\
      map Author cstats = Authors prOpts /\
      Forall2 (fun entry c =>
                 exists prs,
                   pullRequests gc prOpts (Repo prOpts) entry.1 entry.2
                     (prs, None) /\
                   c = stats_for entry.1 prs) log cstats
  | (None, Some e) =>
      exists before a after log0 tr prs,
        Authors prOpts = before ++ a :: after /\
        log = log0 ++ [(a, tr)] /\ map fst log0 = before /\
        Forall (fun entry =>
                  exists prs, pullRequests gc prOpts (Repo prOpts)
                                entry.1 entry.2 (prs, None)) log0 /\
        pullRequests gc prOpts (Repo prOpts) a tr (prs, Some e)
  | _ => False
  end.
Proof.
  intros Hrun%run_from_spec. destruct res as [[out|] [e|]]; try done.
  destruct Hrun as (Hlog & new & -> & Hall). simpl.
  split_and!; [done| |done].
  rewrite <-Hlog. clear Hlog.
  induction Hall as [|entry c log new (prs & _ & ->) _ IH]; [done|].
  simpl. by rewrite IH.
Qed.

(** * The statistics engine *)

(** ** Slices and the heap *)

Lemma read_whole h1 a h2 :
  read (h1 ++ a :: h2) (whole (length h1) (length a)) = a.
Proof.
  unfold read, whole. cbn [arr off slen].
  rewrite list_lookup_middle by done. simpl. by rewrite take_ge.
Qed.

Lemma write_whole h1 a h2 vs :
  length vs = length a ->
  write (whole (length h1) (length a)) vs (h1 ++ a :: h2) = h1 ++ vs :: h2.
Proof.
  intros Hlen. unfold write, whole. cbn [arr off slen].
  rewrite alter_app_r_alt by done. rewrite Nat.sub_diag. simpl.
  rewrite Hlen, drop_all, app_nil_r. done.
Qed.

Lemma read_app h h' s : (arr s < length h)%nat -> read (h ++ h') s = read h s.
Proof. intros Hs. unfold read. by rewrite lookup_app_l. Qed.

Lemma valid_arr h s : valid h s -> (arr s < length h)%nat.
Proof. intros (a & Ha & _). by eapply lookup_lt_Some. Qed.

Lemma valid_length h s : valid h s -> length (read h s) = slen s.
Proof.
  intros (a & Ha & Hlen). unfold read. rewrite Ha. simpl.
  rewrite length_take, length_drop. lia.
Qed.

Lemma valid_app h h' s : valid h s -> valid (h ++ h') s.
Proof.
  intros (a & Ha & Hlen). exists a. split; [|done]. by apply lookup_app_l_Some.
Qed.

Lemma valid_whole h1 a h2 : valid (h1 ++ a :: h2) (whole (length h1) (length a)).
Proof. exists a. split; [by apply list_lookup_middle|simpl; lia]. Qed.

Lemma read_subslice h1 a h2 lo hi :
  (lo <= hi <= length a)%nat ->
  read (h1 ++ a :: h2) (subslice (whole (length h1) (length a)) lo hi) =
  take (hi - lo) (drop lo a).
Proof.
  intros Hb. unfold read, subslice, whole. cbn [arr off slen].
  by rewrite list_lookup_middle by done.
Qed.

Lemma lookup_nth {A} (l : list A) i d :
  (i < length l)%nat -> l !! i = Some (nth i l d).
Proof.
  intros Hi. destruct (lookup_lt_is_Some_2 l i Hi) as [x Hx].
  by rewrite (nth_lookup_Some _ _ d _ Hx).
Qed.

Lemma take2_drop {A} (l : list A) i d :
  (S i < length l)%nat -> take 2 (drop i l) = [nth i l d; nth (S i) l d].
Proof.
  revert i. induction l as [|x l IH]; intros i Hi; simpl in *; [lia|].
  destruct i as [|i]; simpl.
  - destruct l; simpl in *; [lia|done].
  - apply IH. lia.
Qed.

(** ** package sort *)

Lemma insert_length x l : length (sort.insert x l) = S (length l).
Proof.
  induction l as [|y l IH]; simpl; [done|].
  destruct (sort.Less x y); simpl; by rewrite ?IH.
Qed.

Lemma insertionSort_length l : length (sort.insertionSort l) = length l.
Proof.
  unfold sort.insertionSort. rewrite length_rev.
  assert (H : forall acc, length (fold_left (fun s x => sort.insert x s) l acc)
                          = (length l + length acc)%nat).
  { induction l as [|x l IH]; intros acc; simpl; [done|].
    rewrite IH, insert_length. lia. }
  rewrite H. simpl. lia.
Qed.

(** ** package stats, on valid slices *)

Lemma make_run n h :
  make n h = (whole (length h) (length (replicate n 0%float)),
              h ++ [replicate n 0%float]).
Proof. unfold make, whole. by rewrite length_replicate. Qed.

Lemma copyslice_run h s :
  valid h s ->
  stats.copyslice s h =
  (whole (length h) (length (read h s)), h ++ [read h s]).
Proof.
  intros Hv. unfold stats.copyslice, mbind, M_bind, mret, M_ret, copy.
  pose proof (valid_length _ _ Hv) as Hl.
  pose proof (valid_arr _ _ Hv) as Ha.
  rewrite make_run, read_app by done.
  rewrite write_whole by by rewrite length_replicate.
  by rewrite length_replicate, Hl.
Qed.

Lemma sortedCopy_run h s :
  valid h s ->
  stats.sortedCopy s h =
  (whole (length h) (length (sort.insertionSort (read h s))),
   h ++ [sort.insertionSort (read h s)]).
Proof.
  intros Hv. unfold stats.sortedCopy, mbind, M_bind, mret, M_ret, sort.Float64s.
  rewrite copyslice_run by done.
  rewrite read_whole, write_whole by by rewrite insertionSort_length.
  by rewrite insertionSort_length.
Qed.

Lemma Mean_run h s :
  valid h s -> slen s <> 0%nat ->
  stats.Mean s h = ((mean (read h s), None), h).
Proof.
  intros Hv Hn. unfold stats.Mean, stats.Sum, mbind, M_bind, mret, M_ret.
  apply Nat.eqb_neq in Hn. rewrite Hn. unfold mean, len.
  by rewrite (valid_length _ _ Hv).
Qed.

Lemma Median_run h s :
  valid h s -> slen s <> 0%nat ->
  stats.Median s h =
  ((median (read h s), None), h ++ [sort.insertionSort (read h s)]).
Proof.
  intros Hv Hn. unfold stats.Median, mbind, M_bind, mret, M_ret.
  rewrite sortedCopy_run by done. cbn [slen whole].
  pose proof (valid_length _ _ Hv) as Hl.
  set (c := sort.insertionSort (read h s)).
  assert (Hc : length c = slen s) by (unfold c; by rewrite insertionSort_length).
  destruct (length c =? 0)%nat eqn:E0; [apply Nat.eqb_eq in E0; lia|].
  unfold median. fold c.
  destruct (length c mod 2 =? 0)%nat eqn:E2.
  - apply Nat.eqb_eq in E2.
    assert (Hpos : (1 <= length c / 2)%nat).
    { apply Nat.eqb_neq in E0. 
      pose proof (Nat.div_mod_eq (length c) 2). lia. }
    assert (Hhalf : (length c / 2 + 1 <= length c)%nat).
    { pose proof (Nat.div_mod_eq (length c) 2). lia. }
    rewrite Mean_run.
    + rewrite (read_subslice h c []) by lia.
      replace (length c / 2 + 1 - (length c / 2 - 1))%nat with 2%nat by lia.
      rewrite (take2_drop _ _ 0%float) by lia.
      by replace (S (length c / 2 - 1)) with (length c / 2)%nat by lia.
    + destruct (valid_whole h c []) as (a & Ha & Hla).
      exists a. split; [done|]. simpl in *.
      rewrite list_lookup_middle in Ha by done. simplify_eq. lia.
    + simpl. lia.
  - unfold index. rewrite read_whole. done.
Qed.

Lemma MedianAbsoluteDeviation_run h s :
  valid h s -> slen s <> 0%nat ->
  exists extra,
    stats.MedianAbsoluteDeviation s h = ((mad (read h s), None), h ++ extra).
Proof.
  intros Hv Hn.
  unfold stats.MedianAbsoluteDeviation, stats.MedianAbsoluteDeviationPopulation.
  apply Nat.eqb_neq in Hn as Hn'. rewrite Hn'.
  unfold mbind, M_bind, range_update.
  rewrite copyslice_run by done.
  pose proof (valid_length _ _ Hv) as Hl.
  set (l := read h s) in *.
  rewrite Median_run; [|apply valid_whole|simpl; lia].
  rewrite read_whole. rewrite <-app_assoc. cbn [app].
  rewrite read_whole, write_whole by by rewrite length_map.
  set (f := fun value => PrimFloat.abs (value - median l)).
  rewrite <-(length_map f l).
  rewrite Median_run; [|apply valid_whole|rewrite length_map; simpl; lia].
  rewrite read_whole. rewrite <-app_assoc. by eexists.
Qed.

Lemma calcStats_run h s :
  valid h s ->
  exists extra, calcStats s h = (stats_of (read h s), h ++ extra).
Proof.
  intros Hv. unfold calcStats.
  pose proof (valid_length _ _ Hv) as Hl.
  destruct (slen s =? 0)%nat eqn:E.
  - apply Nat.eqb_eq in E. rewrite E in Hl.
    apply nil_length_inv in Hl. rewrite Hl. exists []. by rewrite app_nil_r.
  - apply Nat.eqb_neq in E.
    unfold mbind, M_bind, mret, M_ret.
    rewrite Mean_run, Median_run by done.
    destruct (MedianAbsoluteDeviation_run (h ++ [sort.insertionSort (read h s)]) s)
      as (extra & Hmad); [by apply valid_app|done|].
    rewrite Hmad. rewrite read_app by by apply valid_arr.
    rewrite <-app_assoc.
    exists ([sort.insertionSort (read h s)] ++ extra). f_equal.
    destruct (read h s); [simpl in Hl; lia|done].
Qed.

(** ** [calculateStats] *)

Lemma alter_lookup_insert {A} (f : A -> A) (l : list A) (k : nat) a :
  l !! k = Some a -> alter f k l = <[k := f a]> l.
Proof.
  revert k. induction l as [|x l IH]; intros [|k] Hk; simplify_eq/=; [done|].
  f_equal. by apply IH.
Qed.

Lemma read_at (h : heap) k a :
  h !! k = Some a -> read h (whole k (length a)) = a.
Proof.
  intros Hk. unfold read, whole. cbn [arr off slen]. rewrite Hk. simpl.
  by rewrite take_ge.
Qed.

Lemma write_at (h : heap) k a vs :
  h !! k = Some a -> length vs = length a ->
  write (whole k (length a)) vs h = <[k := vs]> h.
Proof.
  intros Hk Hlen. unfold write, whole. cbn [arr off slen].
  rewrite (alter_lookup_insert _ _ _ _ Hk). simpl.
  by rewrite Hlen, drop_all, app_nil_r.
Qed.

Lemma store_run (h : heap) k a i v :
  h !! k = Some a ->
  store (whole k (length a)) i v h = (tt, <[k := <[i := v]> a]> h).
Proof.
  intros Hk. unfold store. rewrite (read_at _ _ _ Hk).
  by rewrite (write_at _ _ a) by by rewrite ?length_insert.
Qed.

Lemma filled_nil {A} (f : A -> float64) i a : filled f i [] a = a.
Proof. unfold filled. simpl. by rewrite Nat.add_0_r, take_drop. Qed.

Lemma filled_cons {A} (f : A -> float64) i pr prs a :
  (i < length a)%nat ->
  filled f (S i) prs (<[i := f pr]> a) = filled f i (pr :: prs) a.
Proof.
  intros Hi. unfold filled.
  rewrite (take_S_r _ _ (f pr))
    by (apply list_lookup_insert_eq; lia).
  rewrite take_insert_ge by lia. rewrite drop_insert_lt by lia.
  simpl. rewrite <-app_assoc. simpl.
  by rewrite Nat.add_succ_r.
Qed.

Lemma filled_all {A} (f : A -> float64) prs a :
  length a = length prs -> filled f 0 prs a = map f prs.
Proof.
  intros Hl. unfold filled. simpl. by rewrite <-Hl, drop_all, app_nil_r.
Qed.

Lemma length_filled {A} (f : A -> float64) i prs a :
  (i + length prs <= length a)%nat -> length (filled f i prs a) = length a.
Proof.
  intros Hi. unfold filled.
  rewrite !length_app, length_take, length_map, length_drop. lia.
Qed.

Lemma fill_run prs : forall (h : heap) k1 k2 k3 k4 a1 a2 a3 a4 n i,
  h !! k1 = Some a1 -> h !! k2 = Some a2 ->
  h !! k3 = Some a3 -> h !! k4 = Some a4 ->
  k1 <> k2 -> k1 <> k3 -> k1 <> k4 -> k2 <> k3 -> k2 <> k4 -> k3 <> k4 ->
  length a1 = n -> length a2 = n -> length a3 = n -> length a4 = n ->
  (i + length prs <= n)%nat ->
  fill (whole k1 n) (whole k2 n) (whole k3 n) (whole k4 n) i prs h =
  (tt, <[k4 := filled change i prs a4]>
         (<[k3 := filled (fun pr => float64_of_int (github.GetComments pr))
                    i prs a3]>
            (<[k2 := filled (fun pr => float64_of_int (github.GetCommits pr))
                       i prs a2]>
               (<[k1 := filled delta i prs a1]> h)))).
Proof.
  induction prs as [|pr prs IH];
    intros h k1 k2 k3 k4 a1 a2 a3 a4 n i H1 H2 H3 H4 ? ? ? ? ? ? L1 L2 L3 L4 Hi.
  - simpl. rewrite !filled_nil. by rewrite !list_insert_id
      by by rewrite ?list_lookup_insert_ne by done.
  - simpl in Hi. cbn [fill]. unfold mbind, M_bind.
    subst n. rewrite (store_run _ _ _ _ _ H1).
    rewrite <-L4.
    rewrite (store_run _ k4 a4)
      by by rewrite list_lookup_insert_ne by done.
    rewrite L4, <-L2.
    rewrite (store_run _ k2 a2)
      by by rewrite !list_lookup_insert_ne by done.
    rewrite L2, <-L3.
    rewrite (store_run _ k3 a3)
      by by rewrite !list_lookup_insert_ne by done.
    rewrite L3.
    erewrite (IH _ k1 k2 k3 k4 _ _ _ _ (length a1) (S i)); cycle 1.
    { rewrite !list_lookup_insert_ne by done.
      apply list_lookup_insert_eq. by eapply lookup_lt_Some. }
    { rewrite list_lookup_insert_ne by done.
      apply list_lookup_insert_eq.
      rewrite !length_insert. by eapply lookup_lt_Some. }
    { apply list_lookup_insert_eq.
      rewrite !length_insert. by eapply lookup_lt_Some. }
    { rewrite !list_lookup_insert_ne by done.
      apply list_lookup_insert_eq.
      rewrite !length_insert. by eapply lookup_lt_Some. }
    all: try done; rewrite ?length_insert; try lia.
    rewrite (filled_cons delta), (filled_cons change),
      (filled_cons (fun pr => float64_of_int (github.GetComments pr))),
      (filled_cons (fun pr => float64_of_int (github.GetCommits pr))) by lia.
    f_equal. apply list_eq. intros k.
    destruct (decide (k = k4)) as [->|]; [by rewrite !list_lookup_insert_eq
      by (rewrite ?length_insert; by eapply lookup_lt_Some)|].
    rewrite !(list_lookup_insert_ne _ k4) by done.
    destruct (decide (k = k3)) as [->|]; [by rewrite !list_lookup_insert_eq
      by (rewrite ?length_insert; by eapply lookup_lt_Some)|].
    rewrite !(list_lookup_insert_ne _ k3) by done.
    destruct (decide (k = k2)) as [->|]; [by rewrite !list_lookup_insert_eq
      by (rewrite ?length_insert; by eapply lookup_lt_Some)|].
    rewrite !(list_lookup_insert_ne _ k2) by done.
    destruct (decide (k = k1)) as [->|]; [by rewrite !list_lookup_insert_eq
      by (rewrite ?length_insert; by eapply lookup_lt_Some)|].
    by rewrite !list_lookup_insert_ne by done.
Qed.

Lemma calcStats_at (h : heap) k a :
  h !! k = Some a ->
  exists extra,
    calcStats (whole k (length a)) h = (stats_of a, h ++ extra).
Proof.
  intros Hk.
  destruct (calcStats_run h (whole k (length a))) as (extra & Hrun).
  { exists a. split; [done|simpl; lia]. }
  exists extra. by rewrite Hrun, (read_at _ _ _ Hk).
Qed.

Lemma calculateStats_run prs h :
  exists extra,
    calculateStats prs h =
    ({| MergeTime := stats_of (mergeDeltas prs);
        Commits := stats_of (commits prs);
        ChangeSize := stats_of (changeSize prs);
        Comments := stats_of (comments prs);
        PRs := len prs; Author := "" |},
     h ++ [mergeDeltas prs; commits prs; comments prs; changeSize prs] ++ extra).
Proof.
  unfold calculateStats, mbind, M_bind, mret, M_ret.
  rewrite !make_run. rewrite !length_replicate.
  set (n := length prs). set (z := replicate n 0%float).
  assert (Hz : length z = n) by apply length_replicate.
  rewrite <-!app_assoc. cbn [app].
  rewrite !length_app. cbn [length].
  set (H := h ++ [z; z; z; z]).
  assert (Hk : forall j a, [z; z; z; z] !! j = Some a ->
                           H !! (length h + j)%nat = Some a).
  { intros j a Hj. unfold H. rewrite lookup_app_r by lia.
    by replace (length h + j - length h)%nat with j by lia. }
  replace (whole (length h) n) with (whole (length h + 0) n)
    by (f_equal; lia).
  replace (whole (length h + 1 + 1 + 1) n) with (whole (length h + 3) n)
    by (f_equal; lia).
  replace (whole (length h + 1 + 1) n) with (whole (length h + 2) n)
    by (f_equal; lia).
  rewrite (fill_run prs H _ _ _ _ z z z z n 0);
    [|by apply Hk|by apply Hk|by apply Hk|by apply Hk|lia..].
  rewrite !filled_all by done.
  unfold H. rewrite !insert_app_r. cbn [insert list_insert].
  fold (mergeDeltas prs) (commits prs) (comments prs) (changeSize prs).
  set (H' := h ++ [mergeDeltas prs; commits prs; comments prs; changeSize prs]).
  assert (Hk' : forall j a,
             [mergeDeltas prs; commits prs; comments prs; changeSize prs] !! j
             = Some a -> forall extra, (H' ++ extra) !! (length h + j)%nat = Some a).
  { intros j a Hj extra. unfold H'. rewrite <-app_assoc.
    rewrite lookup_app_r by lia.
    replace (length h + j - length h)%nat with j by lia.
    by apply lookup_app_l_Some. }
  assert (L1 : n = length (mergeDeltas prs))
    by (unfold mergeDeltas; by rewrite length_map).
  assert (L2 : n = length (commits prs))
    by (unfold commits; by rewrite length_map).
  assert (L3 : n = length (comments prs))
    by (unfold comments; by rewrite length_map).
  assert (L4 : n = length (changeSize prs))
    by (unfold changeSize; by rewrite length_map).
  destruct (calcStats_at (H' ++ []) (length h + 0) (mergeDeltas prs))
    as (e1 & R1); [by apply Hk'|].
  rewrite app_nil_r in R1. rewrite <-L1 in R1. rewrite R1.
  destruct (calcStats_at (H' ++ e1) (length h + 1) (commits prs))
    as (e2 & R2); [by apply Hk'|].
  rewrite <-L2 in R2. rewrite R2. rewrite <-app_assoc.
  destruct (calcStats_at (H' ++ e1 ++ e2) (length h + 3) (changeSize prs))
    as (e3 & R3); [by apply Hk'|].
  rewrite <-L4 in R3. rewrite R3. rewrite <-app_assoc.
  destruct (calcStats_at (H' ++ (e1 ++ e2) ++ e3) (length h + 2) (comments prs))
    as (e4 & R4); [by apply Hk'|].
  rewrite <-L3 in R4. rewrite R4.
  exists (((e1 ++ e2) ++ e3) ++ e4). f_equal.
  unfold H'. by rewrite <-!app_assoc.
Qed.

(** * The order [sort.Less] puts on float64 *)

Lemma SFcompare_refl X : X <> S754_nan -> SFcompare X X = Some Eq.
Proof.
  destruct X as [[|]|[|]| |[|] m e]; simpl; try done;
    by rewrite Z.compare_refl, Pos.compare_cont_spec, Pos.compare_refl.
Qed.

Lemma is_nan_spec x : PrimFloat.is_nan x = true <-> Prim2SF x = S754_nan.
Proof.
  unfold PrimFloat.is_nan. rewrite FloatAxioms.eqb_spec. unfold SFeqb.
  destruct (Prim2SF x) as [s|s| |s m e] eqn:E; try done;
    rewrite SFcompare_refl by done; done.
Qed.

Lemma is_nan_key x : PrimFloat.is_nan x = true <-> (float_key x).1.1 = -3.
Proof.
  rewrite is_nan_spec. unfold float_key.
  destruct (Prim2SF x) as [[|]|[|]| |[|] m e]; simpl; split; try done; lia.
Qed.

Lemma Less_key x y :
  sort.Less x y = true <-> key_lt (float_key x) (float_key y).
Proof.
  unfold sort.Less. rewrite orb_true_iff, andb_true_iff, negb_true_iff.
  rewrite <-not_true_iff_false, !is_nan_key, ltb_spec.
  unfold float_key, key_lt, SFltb.
  destruct (Prim2SF x) as [[|]|[|]| |[|] m e],
           (Prim2SF y) as [[|]|[|]| |[|] m' e']; simpl;
    try (split; [intros [?|[? ?]]; try done; lia|intros ?; try lia; auto; fail]);
    try (split; [intros [?|[? ?]]; try done; lia|intros ?; right; lia]).
  all: rewrite Pos.compare_cont_spec; simpl;
    destruct (Z.compare_spec e e'), (Pos.compare_spec m m'); simpl;
    split; try (intros [?|[? ?]]; try done; lia); try (intros ?; lia);
    intros ?; by left.
Qed.

Lemma not_after_key x y :
  not_after x y <-> ~ key_lt (float_key y) (float_key x).
Proof. unfold not_after. by rewrite <-not_true_iff_false, Less_key. Qed.

Lemma key_lt_trans a b c : key_lt a b -> key_lt b c -> key_lt a c.
Proof. unfold key_lt. lia. Qed.
Lemma key_le_lt_trans a b c : ~ key_lt b a -> key_lt b c -> key_lt a c.
Proof. unfold key_lt. lia. Qed.
Lemma key_le_trans a b c : ~ key_lt b a -> ~ key_lt c b -> ~ key_lt c a.
Proof. unfold key_lt. lia. Qed.
Lemma key_lt_irrefl a : ~ key_lt a a.
Proof. unfold key_lt. lia. Qed.
Lemma key_eq a b : ~ key_lt a b -> ~ key_lt b a -> a = b.
Proof.
  destruct a as [[a1 a2] a3], b as [[b1 b2] b3]. unfold key_lt. simpl.
  intros. repeat f_equal; lia.
Qed.

Lemma not_after_trans x y z : not_after x y -> not_after y z -> not_after x z.
Proof. rewrite !not_after_key. apply key_le_trans. Qed.
Lemma Less_not_after x y : sort.Less x y = true -> not_after x y.
Proof.
  rewrite not_after_key, Less_key. intros H1 H2.
  eapply key_lt_irrefl, key_lt_trans; eauto.
Qed.

(** ** Insertion sort sorts *)

Lemma insert_perm x l : sort.insert x l ≡ₚ x :: l.
Proof.
  induction l as [|y l IH]; simpl; [done|].
  destruct (sort.Less x y); [|done]. rewrite IH. apply Permutation_swap.
Qed.

(** The sorted prefix, last element first, is descending. *)
Lemma insert_descending x l :
  StronglySorted (fun a b => not_after b a) l ->
  StronglySorted (fun a b => not_after b a) (sort.insert x l).
Proof.
  induction l as [|y l IH]; simpl.
  - intros _. apply StronglySorted_cons. split; constructor.
  - intros [Hy Hl]%StronglySorted_cons.
    destruct (sort.Less x y) eqn:E; apply StronglySorted_cons.
    + split; [|by apply IH]. rewrite insert_perm.
      constructor; [by apply Less_not_after|done].
    + split; [|by apply StronglySorted_cons].
      constructor; [done|].
      eapply Forall_impl; [exact Hy|]. intros z Hz.
      eapply not_after_trans; [exact Hz|done].
Qed.

Lemma StronglySorted_rev {A} (R : relation A) l :
  StronglySorted (fun a b => R b a) l -> StronglySorted R (rev l).
Proof.
  induction l as [|x l IH]; simpl; [constructor|].
  intros [Hx Hl]%StronglySorted_cons.
  apply StronglySorted_app_2; [|by apply IH|repeat constructor].
  intros a b Ha ->%list_elem_of_singleton.
  apply list_elem_of_In, in_rev, list_elem_of_In in Ha.
  by eapply Forall_forall in Hx.
Qed.

Lemma insertionSort_sorted l : StronglySorted not_after (sort.insertionSort l).
Proof.
  unfold sort.insertionSort. apply StronglySorted_rev.
  assert (H : forall acc,
             StronglySorted (fun a b => not_after b a) acc ->
             StronglySorted (fun a b => not_after b a)
               (fold_left (fun s x => sort.insert x s) l acc)).
  { induction l as [|x l IH]; intros acc Hacc; simpl; [done|].
    by apply IH, insert_descending. }
  apply H. constructor.
Qed.

Lemma insertionSort_perm l : sort.insertionSort l ≡ₚ l.
Proof.
  unfold sort.insertionSort. rewrite <-Permutation_rev.
  assert (H : forall acc,
             fold_left (fun s x => sort.insert x s) l acc ≡ₚ l ++ acc).
  { induction l as [|x l IH]; intros acc; simpl; [done|].
    rewrite IH, insert_perm. by rewrite Permutation_middle. }
  rewrite H. by rewrite app_nil_r.
Qed.

(** ** The element at a position of a sorted sample *)

Lemma count_of_perm {A} (P : A -> bool) l l' :
  l ≡ₚ l' -> count_of P l = count_of P l'.
Proof. induction 1; simpl; lia. Qed.

Lemma count_of_app' {A} (P : A -> bool) l1 l2 :
  count_of P (l1 ++ l2) = count_of P l1 + count_of P l2.
Proof. induction l1; simpl; lia. Qed.

Lemma count_of_mono {A} (P Q : A -> bool) l :
  (forall x, P x = true -> Q x = true) -> count_of P l <= count_of Q l.
Proof.
  intros HPQ. induction l as [|x l IH]; simpl; [lia|].
  specialize (HPQ x). destruct (P x), (Q x); try lia.
  all: try by specialize (HPQ eq_refl).
Qed.

Lemma count_of_all {A} (P : A -> bool) l :
  Forall (fun x => P x = true) l -> count_of P l = len l.
Proof.
  unfold len. induction 1 as [|x l Hx _ IH]; simpl length; simpl; [done|].
  rewrite Hx. lia.
Qed.

Lemma count_of_none {A} (P : A -> bool) l :
  Forall (fun x => P x = false) l -> count_of P l = 0.
Proof. induction 1 as [|x l Hx _ IH]; simpl; [done|]. by rewrite Hx. Qed.

Lemma count_of_le_len {A} (P : A -> bool) l : 0 <= count_of P l <= len l.
Proof.
  unfold len. induction l as [|x l IH]; simpl length; simpl; [lia|].
  destruct (P x); lia.
Qed.

(** In a sorted sample, fewer than [i+1] elements are before the element at
    position [i], and more than [i] are not after it. *)
Lemma sorted_position c i x :
  StronglySorted not_after c -> c !! i = Some x ->
  count_of (fun y => sort.Less y x) c <= Z.of_nat i /\
  Z.of_nat i < count_of (fun y => negb (sort.Less x y)) c.
Proof.
  intros Hs Hi.
  pose proof (take_drop_middle _ _ _ Hi) as Hc.
  pose proof (lookup_lt_Some _ _ _ Hi) as Hlt.
  rewrite <-Hc in Hs.
  apply StronglySorted_app in Hs as (Hcross & _ & Hr).
  apply StronglySorted_cons in Hr as [Hafter _].
  assert (Hbefore : Forall (fun y => not_after y x) (take i c)).
  { apply Forall_forall. intros y Hy. apply Hcross; [done|by left]. }
  rewrite <-Hc at 1 2. rewrite !count_of_app'. simpl.
  assert (Hxx : sort.Less x x = false).
  { apply not_true_iff_false. rewrite Less_key. apply key_lt_irrefl. }
  rewrite Hxx. simpl.
  rewrite (count_of_none (fun y => sort.Less y x) (drop (S i) c)).
  2:{ eapply Forall_impl; [exact Hafter|]. by intros y Hy. }
  rewrite (count_of_all (fun y => negb (sort.Less x y)) (take i c)).
  2:{ eapply Forall_impl; [exact Hbefore|]. intros y Hy.
      unfold not_after in Hy. by rewrite Hy. }
  pose proof (count_of_le_len (fun y => sort.Less y x) (take i c)).
  pose proof (count_of_le_len (fun y => negb (sort.Less x y)) (drop (S i) c)).
  unfold len in *. rewrite length_take in *. lia.
Qed.

(** Two sorted arrangements of one sample agree at every position, up to
    the order. *)
Lemma sorted_perm_lookup c c' i x x' :
  StronglySorted not_after c -> StronglySorted not_after c' -> c ≡ₚ c' ->
  c !! i = Some x -> c' !! i = Some x' ->
  float_key x = float_key x'.
Proof.
  intros Hs Hs' Hp Hi Hi'.
  destruct (sorted_position _ _ _ Hs Hi) as [H1 H2].
  destruct (sorted_position _ _ _ Hs' Hi') as [H1' H2'].
  apply key_eq.
  - rewrite <-Less_key. intros HL.
    rewrite (count_of_perm _ _ _ Hp) in H2.
    enough (count_of (fun y => negb (sort.Less x y)) c' <=
            count_of (fun y => sort.Less y x') c') by lia.
    apply count_of_mono. intros y Hy. apply negb_true_iff, not_true_iff_false in Hy.
    rewrite Less_key in *. by eapply key_le_lt_trans.
  - rewrite <-Less_key. intros HL.
    rewrite <-(count_of_perm _ _ _ Hp) in H2'.
    enough (count_of (fun y => negb (sort.Less x' y)) c <=
            count_of (fun y => sort.Less y x) c) by lia.
    apply count_of_mono. intros y Hy. apply negb_true_iff, not_true_iff_false in Hy.
    rewrite Less_key in *. by eapply key_le_lt_trans.
Qed.

(** ** Values that are the same number *)

Lemma key_same_number x y : float_key x = float_key y -> same_number x y.
Proof.
  unfold float_key, same_number. intros H.
  destruct (Prim2SF x) as [[|]|[|]| |[|] m e] eqn:Ex,
           (Prim2SF y) as [[|]|[|]| |[|] m' e'] eqn:Ey;
    simpl in H; try discriminate;
    try (right; eauto; fail);
    left; apply Prim2SF_inj; rewrite Ex, Ey; try done.
  all: injection H; intros; f_equal; lia.
Qed.

Lemma same_number_float_eq x y : same_number x y -> float_eq x y.
Proof.
  intros [->|(s & s' & Hx & Hy)]; unfold float_eq.
  - destruct (PrimFloat.is_nan y) eqn:E; [by right|left].
    rewrite FloatAxioms.eqb_spec. unfold SFeqb.
    rewrite SFcompare_refl; [done|].
    intros Hn. apply is_nan_spec in Hn. congruence.
  - left. rewrite FloatAxioms.eqb_spec, Hx, Hy. by destruct s, s'.
Qed.

(** A sum that starts from [0] is never the negative zero, and adding either
    zero to such a sum gives the same float64. *)
Lemma zero_add_same_number a a' :
  same_number a a' -> (0 + a = 0 + a')%float.
Proof.
  intros [->|(s & s' & Ha & Ha')]; [done|].
  apply Prim2SF_inj. rewrite !FloatAxioms.add_spec, Ha, Ha'.
  by destruct s, s'.
Qed.

Lemma zero_add_not_negative_zero a : Prim2SF (0 + a) <> S754_zero true.
Proof.
  rewrite FloatAxioms.add_spec.
  by destruct (Prim2SF a) as [[|]|[|]| |[|] m e].
Qed.

Lemma add_same_number x b b' :
  Prim2SF x <> S754_zero true -> same_number b b' -> (x + b = x + b')%float.
Proof.
  intros Hx [->|(s & s' & Hb & Hb')]; [done|].
  apply Prim2SF_inj. rewrite !FloatAxioms.add_spec, Hb, Hb'.
  unfold SF64add, SFadd.
  destruct (Prim2SF x) as [[|]|[|]| |[|] m e]; try done; by destruct s, s'.
Qed.

Lemma mean_pair a a' b b' :
  same_number a a' -> same_number b b' -> mean [a; b] = mean [a'; b'].
Proof.
  intros Ha Hb. unfold mean. simpl fold_left.
  rewrite (zero_add_same_number a a' Ha).
  by rewrite (add_same_number _ b b' (zero_add_not_negative_zero a') Hb).
Qed.

Lemma sorted_perm_nth c c' i :
  StronglySorted not_after c -> StronglySorted not_after c' -> c ≡ₚ c' ->
  same_number (nth i c 0%float) (nth i c' 0%float).
Proof.
  intros Hs Hs' Hp. rewrite !nth_lookup.
  pose proof (Permutation_length Hp) as Hlen.
  destruct (c !! i) as [x|] eqn:Hi, (c' !! i) as [x'|] eqn:Hi'; simpl.
  - apply key_same_number. by apply (sorted_perm_lookup c c' i).
  - apply lookup_lt_Some in Hi. apply lookup_ge_None in Hi'. lia.
  - apply lookup_lt_Some in Hi'. apply lookup_ge_None in Hi. lia.
  - by left.
Qed.

(** The median of a sample does not depend on the order of the sample, as a
    number. *)
Lemma median_perm l l' : l ≡ₚ l' -> same_number (median l) (median l').
Proof.
  intros Hp. unfold median.
  assert (Hc : sort.insertionSort l ≡ₚ sort.insertionSort l')
    by by rewrite !insertionSort_perm.
  rewrite <-(Permutation_length Hc).
  pose proof (insertionSort_sorted l) as Hs.
  pose proof (insertionSort_sorted l') as Hs'.
  destruct (_ =? 0)%nat.
  - left. apply mean_pair; by apply sorted_perm_nth.
  - by apply sorted_perm_nth.
Qed.

(** * The statistics *)

(** C6: [calcStats] of an empty sample is all zeros; of a non-empty sample
    it is the arithmetic mean of the whole sample, the median (the middle
    value of the sorted sample, or the mean of the two middle values when
    the size is even) and the median absolute deviation (the median of the
    distances to the sample's median) of the whole sample.  No value is
    left out or changed beforehand, it returns no error, and the sorted
    sample is the sample rearranged so that no value is ordered after a
    later one. *)
Theorem calcStats_computes h s :
  valid h s ->
  (exists extra, calcStats s h = (stats_of (read h s), h ++ extra)) /\
  (read h s = [] ->
   (calcStats s h).1 =
   {| Mean := 0; Median := 0; MedianAbsoluteDeviation := 0 |}) /\
  (read h s <> [] ->
   (calcStats s h).1 =
   {| Mean := mean (read h s); Median := median (read h s);
      MedianAbsoluteDeviation := mad (read h s) |}) /\
  forall l, sort.insertionSort l ≡ₚ l /\
            StronglySorted not_after (sort.insertionSort l).
Proof.
  intros Hv. destruct (calcStats_run h s Hv) as (extra & Hrun).
  split_and!.
  - by exists extra.
  - intros Hl. by rewrite Hrun, Hl.
  - intros Hl. rewrite Hrun. simpl. by destruct (read h s).
  - intros l. split; [apply insertionSort_perm|apply insertionSort_sorted].
Qed.

(** The sample 24, 48: mean 36, median 36, deviation 12. *)
Lemma calcStats_computes_witness :
  valid [[24; 48]%float] (whole 0 2) /\
  (calcStats (whole 0 2) [[24; 48]%float]).1 =
  {| Mean := 36; Median := 36; MedianAbsoluteDeviation := 12 |}.
Proof.
  assert (Hv : valid [[24; 48]%float] (whole 0 2)).
  { exists [24; 48]%float. split; [reflexivity|simpl; lia]. }
  split; [exact Hv|].
  refine (eq_trans
    (proj1 (proj2 (proj2 (calcStats_computes _ _ Hv))) _) _).
  - discriminate.
  - vm_compute. reflexivity.
Defined.

(** C9: the medians [calcStats] gives for two arrangements of
    one sample are the same number (equal under Go's [==], or both not a
    number), and [calcStats] only allocates: the heap it leaves is the heap
    it was given followed by its own arrays, so every slice of the caller
    reads as before. *)
Theorem calcStats_median_order_independent h s h' s' :
  valid h s -> valid h' s' -> read h s ≡ₚ read h' s' ->
  float_eq (Median (calcStats s h).1) (Median (calcStats s' h').1) /\
  (exists extra, (calcStats s h).2 = h ++ extra) /\
  forall t, valid h t -> read (calcStats s h).2 t = read h t.
Proof.
  intros Hv Hv' Hp.
  destruct (calcStats_run h s Hv) as (extra & Hrun).
  destruct (calcStats_run h' s' Hv') as (extra' & Hrun').
  rewrite Hrun, Hrun'. simpl. split_and!.
  - apply same_number_float_eq.
    destruct (read h s) as [|x l] eqn:E.
    + apply Permutation_nil_l in Hp. rewrite Hp. by left.
    + destruct (read h' s') as [|x' l'] eqn:E'.
      * by apply Permutation_nil_r in Hp.
      * simpl. by apply median_perm.
  - by exists extra.
  - intros t Ht. apply read_app. by apply valid_arr.
Qed.

(** The samples -0, 0, 1 and 0, -0, 1. *)
Lemma calcStats_median_order_independent_witness :
  float_eq
    (Median (calcStats (whole 0 3) [[-0; 0; 1]%float; [0; -0; 1]%float]).1)
    (Median (calcStats (whole 1 3) [[-0; 0; 1]%float; [0; -0; 1]%float]).1) /\
  read (calcStats (whole 0 3) [[-0; 0; 1]%float; [0; -0; 1]%float]).2
    (whole 0 3) = [-0; 0; 1]%float.
Proof.
  assert (Hv : valid [[-0; 0; 1]%float; [0; -0; 1]%float] (whole 0 3)).
  { eexists. split; [reflexivity|simpl; lia]. }
  assert (Hv' : valid [[-0; 0; 1]%float; [0; -0; 1]%float] (whole 1 3)).
  { eexists. split; [reflexivity|simpl; lia]. }
  assert (Hp : read [[-0; 0; 1]%float; [0; -0; 1]%float] (whole 0 3) ≡ₚ
               read [[-0; 0; 1]%float; [0; -0; 1]%float] (whole 1 3)).
  { cbv [read whole arr off slen lookup list_lookup default drop take
         from_option id]. apply Permutation_swap. }
  pose proof (calcStats_median_order_independent _ _ _ _ Hv Hv' Hp)
    as (H1 & _ & H3).
  split; [exact H1|]. exact (H3 _ Hv).
Defined.

(** The median keeps the sign of the zero that the order of the sample put
    in the middle, and a median that is not a number is not [==] to
    itself. *)
Lemma median_follows_arrangement :
  valid [[-0; 0; 1]%float; [0; -0; 1]%float] (whole 0 3) /\
  valid [[-0; 0; 1]%float; [0; -0; 1]%float] (whole 1 3) /\
  read [[-0; 0; 1]%float; [0; -0; 1]%float] (whole 0 3) ≡ₚ
  read [[-0; 0; 1]%float; [0; -0; 1]%float] (whole 1 3) /\
  Median (calcStats (whole 0 3) [[-0; 0; 1]%float; [0; -0; 1]%float]).1 <>
  Median (calcStats (whole 1 3) [[-0; 0; 1]%float; [0; -0; 1]%float]).1 /\
  (Median (calcStats (whole 0 1) [[nan]]).1 =?
   Median (calcStats (whole 0 1) [[nan]]).1)%float = false.
Proof.
  split_and!.
  - eexists. split; [reflexivity|simpl; lia].
  - eexists. split; [reflexivity|simpl; lia].
  - cbv [read whole arr off slen lookup list_lookup default drop take
         from_option id]. apply Permutation_swap.
  - intros H. apply (f_equal PrimFloat.classify) in H.
    vm_compute in H. discriminate.
  - vm_compute. reflexivity.
Qed.

(** * [calculateStats] *)

Lemma lookup_map_Some {A B} (f : A -> B) (l : list A) i x :
  l !! i = Some x -> map f l !! i = Some (f x).
Proof. intros H. by rewrite list_lookup_fmap, H. Qed.

(** C10: a record of the enriched set that has no merge timestamp is
    neither refused nor skipped.  [calculateStats] returns a record (it has
    no error result); the four samples it computes the statistics of have
    one entry per record of the set, and [PRs] is the size of the set.  The
    entry of an unmerged record in the merge-time sample is the hours of the
    zero time minus the creation time; that duration is at most minus one
    year when the record was created a year or more after the zero time,
    and from 2^63 nanoseconds after the zero time on (the year 293) it is
    the least [Duration], about -2562047.79 hours. *)
Theorem calculateStats_counts_unmerged prs h i pr :
  prs !! i = Some pr -> github.MergedAt pr = None ->
  (exists extra,
     calculateStats prs h =
     ({| MergeTime := stats_of (mergeDeltas prs);
         Commits := stats_of (commits prs);
         ChangeSize := stats_of (changeSize prs);
         Comments := stats_of (comments prs);
         PRs := len prs; Author := "" |},
      h ++ [mergeDeltas prs; commits prs; comments prs; changeSize prs]
        ++ extra)) /\
  (length (mergeDeltas prs) = length prs /\
   length (commits prs) = length prs /\
   length (comments prs) = length prs /\
   length (changeSize prs) = length prs) /\
  (mergeDeltas prs !! i =
     Some (Hours (time.Sub time.zero
                    (github.Time (github.GetCreatedAt pr)))) /\
   commits prs !! i = Some (float64_of_int (github.GetCommits pr)) /\
   comments prs !! i = Some (float64_of_int (github.GetComments pr)) /\
   changeSize prs !! i = Some (change pr)) /\
  (365 * 24 * time.Hour <= github.Time (github.GetCreatedAt pr) ->
   time.Sub time.zero (github.Time (github.GetCreatedAt pr))
   <= - (365 * 24 * time.Hour)) /\
  (2 ^ 63 <= github.Time (github.GetCreatedAt pr) ->
   Hours (time.Sub time.zero (github.Time (github.GetCreatedAt pr)))
   = (-0x1.38bffe4ddaebep+21)%float).
Proof.
  intros Hi Hm. split_and!.
  - apply calculateStats_run.
  - unfold mergeDeltas. by rewrite length_map.
  - unfold commits. by rewrite length_map.
  - unfold comments. by rewrite length_map.
  - unfold changeSize. by rewrite length_map.
  - unfold mergeDeltas. rewrite (lookup_map_Some _ _ _ _ Hi).
    unfold delta, github.GetMergedAt. by rewrite Hm.
  - unfold commits. by rewrite (lookup_map_Some _ _ _ _ Hi).
  - unfold comments. by rewrite (lookup_map_Some _ _ _ _ Hi).
  - unfold changeSize. by rewrite (lookup_map_Some _ _ _ _ Hi).
  - unfold time.Sub, time.zero, time.minDuration, time.maxDuration, time.Hour.
    lia.
  - intros Hc.
    replace (time.Sub _ _) with time.minDuration; [by vm_compute|].
    unfold time.Sub, time.zero, time.minDuration, time.maxDuration. lia.
Qed.

(** One merged-less record between two that are like it but for the number:
    three entries in each sample, and the least duration in hours as the
    merge time. *)
Lemma calculateStats_counts_unmerged_witness :
  PRs (calculateStats [example_pull 1; example_unmerged; example_pull 3] []).1
  = 3 /\
  mergeDeltas [example_pull 1; example_unmerged; example_pull 3] !! 1%nat
  = Some (-0x1.38bffe4ddaebep+21)%float /\
  commits [example_pull 1; example_unmerged; example_pull 3] !! 1%nat
  = Some 3%float.
Proof.
  pose proof (calculateStats_counts_unmerged
                [example_pull 1; example_unmerged; example_pull 3] []
                1 example_unmerged eq_refl eq_refl)
    as ((extra & Hrun) & _ & (H1 & H2 & _) & _ & H4).
  split_and!.
  - by rewrite Hrun.
  - rewrite H1, H4; [reflexivity|vm_compute; discriminate].
  - exact H2.
Defined.

(** * [run], on an example *)

Lemma run50_runs : run client50 example_opts run50_log (Some run50_stats, None).
Proof.
  unfold run, run50_log.
  apply (run_next _ _ "alice" ["bob"] [] run50.1 (allPRs run50.2)).
  { eapply pullRequests_run;
      [vm_compute; reflexivity|apply run_policy_exec'|vm_compute; reflexivity]. }
  apply (run_next _ _ "bob" [] _ run50_bob.1 (allPRs run50_bob.2)).
  { eapply pullRequests_run;
      [vm_compute; reflexivity|apply run_policy_exec'|vm_compute; reflexivity]. }
  apply run_render.
Qed.

(** Two authors, both pipelines return nil: two records, in order. *)
Lemma run_in_order_witness :
  run client50 example_opts run50_log (Some run50_stats, None) /\
  map fst run50_log = ["alice"; "bob"] /\
  map Author run50_stats = ["alice"; "bob"].
Proof.
  pose proof (run_in_order _ _ _ _ run50_runs) as (H1 & H2 & _).
  split_and!; [exact run50_runs|exact H1|exact H2].
Defined.

(** * More facts about the pipeline *)

(** ** [strings.Split] and the two tokens *)

Lemma Split_cons_inv c s sep :
  Split (String c s) sep =
  if Ascii.eqb c sep then EmptyString :: Split s sep
  else match Split s sep with
       | tok :: toks => String c tok :: toks
       | [] => [String c EmptyString]
       end.
Proof. done. Qed.

Lemma Split_one s sep b :
  Split s sep = [b] -> s = b /\ count_sep sep b = 0%nat.
Proof.
  revert b. induction s as [|c s IH]; intros b.
  - by intros [= <-].
  - rewrite Split_cons_inv. simpl. destruct (Ascii.eqb c sep) eqn:E.
    + intros [= <- Hs]. pose proof (Split_length s sep) as Hl.
      by rewrite Hs in Hl.
    + destruct (Split s sep) as [|tok toks] eqn:Es.
      { pose proof (Split_length s sep) as Hl. by rewrite Es in Hl. }
      intros [= <- ->]. destruct (IH tok eq_refl) as [-> Hc].
      simpl. by rewrite E.
Qed.

Lemma Split_two s sep a b :
  Split s sep = [a; b] ->
  s = a +:+ String sep b /\
  count_sep sep a = 0%nat /\ count_sep sep b = 0%nat.
Proof.
  revert a. induction s as [|c s IH]; intros a; [done|].
  rewrite Split_cons_inv. destruct (Ascii.eqb c sep) eqn:E.
  - intros [= <- Hs]. apply Ascii.eqb_eq in E as ->.
    by destruct (Split_one _ _ _ Hs) as [-> Hc].
  - destruct (Split s sep) as [|tok toks] eqn:Es; [done|].
    intros [= <- ->]. destruct (IH tok eq_refl) as (-> & Ha & Hb).
    split_and!; [done| |done]. simpl. by rewrite E.
Qed.

Section PipelineMore.
Variable gc : github.Client.
Variable prOpts : SearchPROpts.
Variables repo author : string.

Local Abbreviation step := (step gc prOpts repo author).
Local Abbreviation exec := (exec gc prOpts repo author).
Local Abbreviation fetched := (fetched gc repo).
Local Abbreviation in_flight := (in_flight gc repo).

(** ** One detail call per pull-request match *)

Lemma gets_app tr1 tr2 : gets (tr1 ++ tr2) = gets tr1 ++ gets tr2.
Proof. apply omap_app. Qed.

Lemma calls_step s a s' ev :
  step a s = Some (s', ev) ->
  gets ev ++ waiting s' ≡ₚ waiting s ++ pulls (emitted ev).
Proof.
  intros Hs. unfold waiting, pulls.
  step_cases Hs; simpl; rewrite ?app_nil_r; try done;
    repeat match goal with
           | G : negb _ = true |- _ => apply negb_true_iff in G
           | G : negb _ = false |- _ => apply negb_false_iff in G
           end;
    try lazymatch goal with
        | Hw : pool s !! ?w = Some ?g0 |- context [<[?w := ?g]> (pool s)] =>
            destruct (omap_insert_split held _ w g0 g Hw) as (Rh & Hh1 & Hh2);
            cbn [held option_list] in Hh1, Hh2;
            rewrite ?Hh1, ?Hh2
        end;
    try match goal with G : buf (issues s) = _ |- _ => rewrite G end;
    try match goal with
        | G : buf _ = ?x :: ?l |- _ => change (x :: l) with ([x] ++ l) in *
        end;
    rewrite ?omap_app; simpl; unfold pull_number;
    repeat match goal with G : github.IsPullRequest _ = _ |- _ => rewrite G end;
    simpl; try solve_Permutation.
  destruct (github.IsPullRequest i); simpl; solve_Permutation.
Qed.

Lemma calls_exec tr s :
  exec init tr s -> pulls (emitted tr) ≡ₚ gets tr ++ waiting s.
Proof.
  induction 1 as [|tr s a s' ev Hex IH Hs]; [done|].
  rewrite emitted_app, gets_app. unfold pulls at 1. rewrite omap_app.
  fold (pulls (emitted tr)) (pulls (emitted ev)).
  rewrite IH, <-!app_assoc. apply Permutation_app_head.
  by rewrite (calls_step _ _ _ _ Hs).
Qed.

(** Detail calls are made for the owner and the name the repository
    identifier splits into. *)
Lemma gets_owner_name tr s :
  exec init tr s ->
  Forall (fun ev => match ev with
                    | EvGet _ o n _ => o = owner repo /\ n = name repo
                    | _ => True
                    end) tr.
Proof.
  induction 1 as [|tr s a s' ev Hex IH Hs]; [constructor|].
  apply Forall_app. split; [done|].
  step_cases Hs; repeat constructor.
Qed.

(** X4: the pipeline makes no detail call for a match that is not a pull
    request and at most one for a match that is: the numbers of the detail
    calls of an execution are among the numbers of the pull-request matches
    emitted so far, each call using up one match; and when [pullRequests]
    returns a nil error, every pull-request match emitted got exactly one
    detail call. *)
Theorem one_detail_call_per_pull tr s :
  exec init tr s ->
  gets tr ⊆+ pulls (emitted tr) /\
  (forall prs, main s = MReturned (prs, None) ->
               gets tr ≡ₚ pulls (emitted tr)).
Proof.
  intros Hex. pose proof (calls_exec _ _ Hex) as Hc. split.
  - rewrite Hc. by apply submseteq_inserts_r.
  - intros prs Hm.
    destruct (returned_nil_state _ _ _ _ _ _ _ Hex Hm)
      as (_ & _ & _ & Hw & Hi & _).
    rewrite Hc. unfold waiting. rewrite Hi, (omap_all_None held).
    + by rewrite !app_nil_r.
    + eapply Forall_impl; [exact Hw|]. by intros g ->.
Qed.

(** ** What is returned was fetched *)

Lemma flow_step s a s' ev :
  honours_ctx gc -> step a s = Some (s', ev) ->
  in_flight s' ⊆+ in_flight s ++ omap fetched (emitted ev).
Proof.
  intros [_ Hh] Hs. unfold in_flight_def.
  step_cases Hs; simpl; rewrite ?app_nil_r; try done;
    repeat match goal with
           | G : negb _ = true |- _ => apply negb_true_iff in G
           | G : negb _ = false |- _ => apply negb_false_iff in G
           end;
    try lazymatch goal with
        | Hw : pool s !! ?w = Some ?g0 |- context [<[?w := ?g]> (pool s)] =>
            destruct (omap_insert_split held _ w g0 g Hw) as (Rh & Hh1 & Hh2);
            destruct (omap_insert_split inflight _ w g0 g Hw) as (Ri & Hi1 & Hi2);
            cbn [held inflight option_list] in Hh1, Hh2, Hi1, Hi2;
            rewrite ?Hh1, ?Hh2, ?Hi1, ?Hi2
        end;
    try match goal with G : buf (issues s) = _ |- _ => rewrite G end;
    try match goal with G : buf (prs s) = _ |- _ => rewrite G end;
    try match goal with
        | G : buf _ = ?x :: ?l |- _ => change (x :: l) with ([x] ++ l) in *
        end;
    rewrite ?omap_app; simpl;
    try lazymatch goal with
        | G : github.PullRequests_Get gc (ctx_done s) _ _ ?n = (_, _, ?o) |- _ =>
            destruct (ctx_done s) eqn:Hd;
            [pose proof (Hh (owner repo) (name repo) n) as Hne;
             rewrite G in Hne; simpl in Hne; try done|]
        end;
    try (erewrite (fetched_not_pr gc repo) by eassumption);
    try (erewrite (fetched_err gc repo) by eassumption);
    try (erewrite (fetched_ok gc repo) by eassumption);
    simpl; try solve_submseteq;
    try (destruct (fetched _); simpl; solve_submseteq).
Qed.

Lemma flow_sub tr s :
  honours_ctx gc -> exec init tr s -> in_flight s ⊆+ omap fetched (emitted tr).
Proof.
  intros Hh. induction 1 as [|tr s a s' ev Hex IH Hs]; [done|].
  rewrite emitted_app, omap_app.
  etrans; [by eapply flow_step|]. by apply submseteq_skips_r.
Qed.

(** X3: whatever [pullRequests] returns, with an error or without, every
    record of the collection is the detail record of a pull-request match
    the search stage emitted, fetched while the context was live, and no
    match gives more than one record (the client honouring the context). *)
Theorem returned_records_were_fetched tr res :
  honours_ctx gc -> pullRequests gc prOpts repo author tr res ->
  res.1 ⊆+ omap fetched (emitted tr).
Proof.
  intros Hh [_ -> ->|s _ Hex Hm]; [done|].
  destruct (invariants _ _ _ _ _ _ Hex) as (_ & Hg & _).
  destruct (gi_ret _ Hg _ Hm) as (-> & _). simpl.
  etrans; [|by apply flow_sub]. unfold in_flight_def. solve_submseteq.
Qed.

(** X6: when the repository identifier passes the format check, the owner
    and the name every detail call is made with are its two tokens: owner,
    "/" and name put together give the identifier back, and neither holds
    a "/". *)
Theorem owner_and_name_recompose tr s :
  len (ownerAndRepo repo) = ownerRepoTokenLen -> exec init tr s ->
  owner repo +:+ "/" +:+ name repo = repo /\
  count_sep "/" (owner repo) = 0%nat /\
  count_sep "/" (name repo) = 0%nat /\
  Forall (fun ev => match ev with
                    | EvGet _ o n _ => o = owner repo /\ n = name repo
                    | _ => True
                    end) tr.
Proof.
  intros Hlen Hex. unfold owner, name, ownerAndRepo in *.
  destruct (Split repo "/") as [|a [|b [|]]] eqn:E;
    try (unfold len, ownerRepoTokenLen in Hlen; simpl in Hlen; lia).
  destruct (Split_two _ _ _ _ E) as (Hr & Ha & Hb). simpl.
  split_and!; [by rewrite Hr|done|done|].
  pose proof (gets_owner_name _ _ Hex) as Hg.
  unfold owner, name, ownerAndRepo in Hg. by rewrite E in Hg.
Qed.

(** ** The error returned is the first cause *)

Local Abbreviation live_error := (live_error gc prOpts repo author).
Local Abbreviation cause_inv := (cause_inv gc prOpts repo author).

Lemma cause_init : cause_inv init.
Proof. split; try done. intros [|[|[|[|[|]]]]] g e; simpl; by intros [= <-]. Qed.

Lemma cause_step s a s' ev :
  group_inv s -> cause_inv s -> step a s = Some (s', ev) -> cause_inv s'.
Proof.
  intros Hg [He Hp Hw] Hs.
  pose proof (step_not_returned _ _ _ _ _ _ _ _ Hg Hs) as Hnr.
  assert (Hd : ctx_done s = true -> g_err s <> None).
  { intros Hd. destruct (gi_ctx _ Hg Hd); congruence. }
  step_cases Hs; split; simpl in *; try done; eauto;
    try (intros w0 g0 e0 Hl; pool_lookup Hl; simplify_eq/=; eauto);
    repeat match goal with
           | G : negb _ = true |- _ => apply negb_true_iff in G
           | G : negb _ = false |- _ => apply negb_false_iff in G
           end;
    try match goal with
        | G : producer s = _ |- context [pending (producer s)] =>
            rewrite G; simpl; by eauto
        end;
    try (intros e0 [= <-]);
    try match goal with
        | G : pool s !! _ = Some (Exiting (Some ?x)), G0 : g_err s = None |- _ =>
            destruct (Hw _ _ x G eq_refl); [done|congruence]
        | G0 : g_err s = None |- live_error ?x =>
            destruct (Hp x eq_refl); [done|congruence]
        end;
    destruct (ctx_done s) eqn:Ed; try (right; by apply Hd); left.
  - left. exists page. by rewrite Heqp0.
  - right. exists i, p0, r. simplify_eq. split_and!; try done.
    + by apply Z.eqb_neq.
    + by rewrite Heqo1.
  - right. exists i, p0, r. simplify_eq. split_and!; try done.
    + by apply Z.eqb_neq.
    + by rewrite Heqo1.
Qed.

Lemma cause_exec tr s : exec init tr s -> cause_inv s.
Proof.
  induction 1 as [|tr s a s' ev Hex IH Hs]; [apply cause_init|].
  destruct (invariants _ _ _ _ _ _ Hex) as (_ & Hg & _).
  by eapply cause_step.
Qed.

(** X5: an error [pullRequests] returns is never a consequence of the
    cancellation: it is [errRepoFmt], returned before anything ran, or the
    error some stage came to while the context was live, which is the error
    of a search call, or the error a worker makes of a detail response that
    is not a 200 (the error of closing its body, or the one with the
    status, the number and the body).  What a goroutine returns because
    the context was cancelled (the error of a call made with the cancelled
    context, the context's error at a worker's select) comes after the
    recorded error and is dropped. *)
Theorem returned_error_is_the_cause tr prs e :
  pullRequests gc prOpts repo author tr (prs, Some e) ->
  (tr = [] /\ prs = [] /\ e = errRepoFmt /\
   len (ownerAndRepo repo) <> ownerRepoTokenLen) \/
  (len (ownerAndRepo repo) = ownerRepoTokenLen /\ live_error e).
Proof.
  intros [Hn -> [= -> ->]|s Hlen Hex Hm]; [by left|right].
  split; [done|].
  destruct (invariants _ _ _ _ _ _ Hex) as (_ & Hg & _).
  destruct (gi_ret _ Hg _ Hm) as ([= _ He] & _).
  by apply (ca_err _ _ _ _ _ (cause_exec _ _ Hex)).
Qed.

(** ** The queues stay within their capacity *)

Lemma queue_bound tr s :
  exec init tr s ->
  len (buf (issues s)) <= workerChanSize /\
  len (buf (prs s)) <= workerChanSize /\
  (length (buf (issues s)) <= length (emitted tr))%nat.
Proof.
  induction 1 as [|tr s a s' ev Hex (IH1 & IH2 & IH3) Hs].
  { unfold len, workerChanSize. simpl. lia. }
  rewrite emitted_app, length_app. unfold len, workerChanSize, has_room in *.
  step_cases Hs; simpl; unfold has_room, len, workerChanSize in *;
    repeat match goal with
           | G : (_ <? _) = true |- _ => apply Z.ltb_lt in G
           | G : buf _ = _ |- _ => rewrite G in *
           end;
    simpl in *; rewrite ?length_app; simpl; lia.
Qed.

(** ** Where the pipeline can get stuck *)

Lemma forallb_false_lookup {A} (P : A -> bool) l :
  forallb P l = false -> exists w x, l !! w = Some x /\ P x = false.
Proof.
  induction l as [|y l IH]; simpl; [done|].
  destruct (P y) eqn:E; simpl.
  - intros (w & x & Hw & Hx)%IH. by exists (S w), x.
  - intros _. by exists 0%nat, y.
Qed.

(** In [g.Wait()], some goroutine can move unless the producer is at a send
    on a full input queue. *)
Lemma wait_progress tr s :
  exec init tr s -> main s = MWait ->
  (forall i rest next, producer s = Running (PSend (i :: rest) next) ->
                       has_room (issues s) = true) ->
  exists a s' ev, step a s = Some (s', ev).
Proof.
  intros Hex Hm Hroom.
  destruct (invariants _ _ _ _ _ _ Hex) as ([Hp Hl Hw Hc Hi Hn] & Hg & [Hd1 Hd2]).
  destruct Hd1 as [Hbuf Hcl]; [congruence|].
  assert (Hall : Forall (fun g => counted g = false) (pool s)).
  { apply count_of_zero. rewrite <-Hw. by apply Hc. }
  destruct (forallb is_Done (pool s)) eqn:Ed.
  - destruct (producer s) as [[page|[|i rest] next]|e|e|e] eqn:Ep;
      simpl in Hi.
    + exists AProducer. unfold step_def, producer_step. rewrite Hp, Ep.
      destruct (github.Search_Issues _ _ _ _) as [[sr resp] [e|]]; eauto.
    + exists AProducer. unfold step_def, producer_step. rewrite Hp, Ep.
      destruct (next =? 0); eauto.
    + exists AProducer. unfold step_def, producer_step.
      rewrite Hp, Ep, Hi, (Hroom _ _ _ eq_refl). eauto.
    + exists AProducer. unfold step_def, producer_step. rewrite Hp, Ep, Hi.
      eauto.
    + exists AProducer. unfold step_def, producer_step. rewrite Hp, Ep.
      destruct (g_exit e s). eauto.
    + exists AMain. unfold step_def, main_step. rewrite Hp, Hm, Ep, Ed.
      simpl. eauto.
  - destruct (forallb_false_lookup _ _ Ed) as (w & g & Hg' & Hnd).
    pose proof (Forall_lookup_1 _ _ _ _ Hall Hg') as Hcnt. simpl in Hcnt.
    destruct g as [pc|e|e|e]; try done.
    exists (AWorker w false). unfold step_def, worker_step. rewrite Hp, Hg'.
    destruct (g_exit e s). eauto.
Qed.

Lemma progress tr s :
  exec init tr s -> is_returned (main s) = false ->
  (forall i rest next, producer s = Running (PSend (i :: rest) next) ->
                       has_room (issues s) = true) ->
  exists a s' ev, step a s = Some (s', ev).
Proof.
  intros Hex Hm Hroom. destruct (main s) eqn:E; [|by eapply wait_progress|done].
  by eapply reduce_progress.
Qed.

(** X2: the pipeline has one deadlock only.  A state in which no goroutine
    can move is a state after [pullRequests] returned, or it is this one:
    the caller is in [g.Wait()], every worker has returned with an error
    (so the context is cancelled), and the producer is at [issues <- i] with
    the input queue full. *)
Theorem stuck_only_at_blocked_send tr s :
  exec init tr s -> stuck step s ->
  is_returned (main s) = true \/
  (main s = MWait /\
   (exists i rest next, producer s = Running (PSend (i :: rest) next)) /\
   len (buf (issues s)) = workerChanSize /\
   Forall (fun g => exists e, g = Done (Some e)) (pool s) /\
   g_err s <> None /\ ctx_done s = true).
Proof.
  intros Hex Hst.
  destruct (is_returned (main s)) eqn:Hr; [by left|right].
  assert (Hno : ~ exists a s' ev, step a s = Some (s', ev)).
  { intros (a & s' & ev & Hs). by rewrite (Hst a) in Hs. }
  assert (Hp : exists i rest next,
             producer s = Running (PSend (i :: rest) next) /\
             has_room (issues s) = false).
  { destruct (producer s) as [[page|[|i rest] next]|e|e|e] eqn:Ep;
      try (destruct Hno; eapply progress; [done|done|intros; congruence]).
    destruct (has_room (issues s)) eqn:Eroom; [|by exists i, rest, next].
    destruct Hno. eapply progress; [done|done|]. by intros. }
  destruct Hp as (i & rest & next & Ep & Eroom).
  destruct (invariants _ _ _ _ _ _ Hex) as ([Hpn Hl Hw Hc Hi Hn] & Hg & [Hd1 Hd2]).
  assert (Hm : main s = MWait).
  { destruct (main s) eqn:Hm; [|done|done].
    destruct Hno. by eapply reduce_progress. }
  destruct Hd1 as [Hbuf Hcl]; [congruence|].
  assert (Hall : Forall (fun g => counted g = false) (pool s)).
  { apply count_of_zero. rewrite <-Hw. by apply Hc. }
  rewrite Ep in Hi. simpl in Hi.
  assert (Hpool : Forall (fun g => exists e, g = Done (Some e)) (pool s)).
  { apply Forall_lookup. intros w g Hg'.
    pose proof (Forall_lookup_1 _ _ _ _ Hall Hg') as Hcnt. simpl in Hcnt.
    destruct g as [pc|e|e|[e|]]; try done.
    - destruct Hno. exists (AWorker w false). unfold step_def, worker_step.
      rewrite Hpn, Hg'. destruct (g_exit e s). eauto.
    - by exists e.
    - destruct (Hd2 _ _ Hg' eq_refl) as [_ Hcl']. congruence. }
  assert (Herr : g_err s <> None).
  { destruct (pool s) as [|g l] eqn:E; [done|].
    apply Forall_cons_1 in Hpool as [[e ->] _].
    apply (gi_pool _ Hg 0%nat e). by rewrite E. }
  split_and!; try done.
  - by eauto.
  - destruct (queue_bound _ _ Hex) as (Hb & _).
    unfold has_room in Eroom. apply Z.ltb_ge in Eroom. lia.
  - by apply (gi_err _ Hg).
Qed.

(** ** When the matches fit the input queue *)

(** Whatever was cancelled, the producer emits a prefix of what the search
    stage emits on its own, and while it runs what is left is still to
    come. *)
Lemma producer_within tr s ms r :
  honours_ctx gc -> searchStage gc prOpts repo author 0 ms r ->
  exec init tr s ->
  exists ms', ms = emitted tr ++ ms' /\
              (future gc prOpts repo author (producer s) ms' r \/
               stopped (producer s)).
Proof.
  intros [Hh _] Hst.
  induction 1 as [|tr s a s' ev Hex IH Hs]; [exists ms; by split; [|left]|].
  destruct IH as (ms' & -> & Hf). clear Hst.
  rewrite emitted_app.
  step_cases Hs; simpl; rewrite ?app_nil_r;
    try (by exists ms');
    try (exists ms'; split; [done|by right]);
    try match goal with
        | G : producer s = _ |- context [producer s] =>
            rewrite G; by exists ms'
        end;
    (destruct Hf as [Hf|Hf]; [|by destruct Hf]);
    try lazymatch goal with
        | G : github.Search_Issues gc (ctx_done s) ?q ?o = _ |- _ =>
            destruct (ctx_done s) eqn:Hd;
            [pose proof (Hh q o) as Hne; rewrite G in Hne; simpl in Hne;
             try done|]
        end.
  - inversion Hf as [? ? ? ? Hq|? ? ? Hq Hn|? ? ? ? ? Hq Hn]; subst;
      rewrite Heqp0 in Hq; simplify_eq.
    + eexists. split; [done|]. left. exists []. rewrite app_nil_r.
      split; [done|]. by rewrite Hn.
    + eexists. split; [done|]. left. eexists. split; [done|].
      by rewrite (proj2 (Z.eqb_neq _ _)).
  - destruct Hf as (m & -> & Hm).
    match goal with G : (_ =? 0) = false |- _ => rewrite G in Hm end.
    exists m. split; [done|by left].
  - destruct Hf as (m & -> & Hm). exists (l ++ m).
    split; [by rewrite <-app_assoc|]. left. by exists m.
Qed.

Section Fits.
Variable rank : Z -> nat.
Hypothesis Hrank : pagination_ends gc (sba prOpts repo author) rank.
Hypothesis Hhon : honours_ctx gc.
Variable ms : list github.Issue.
Variable r : option error.
Hypothesis Hms : searchStage gc prOpts repo author 0 ms r.
Hypothesis Hfit : len ms <= workerChanSize.

Lemma send_has_room tr s i rest next :
  exec init tr s -> producer s = Running (PSend (i :: rest) next) ->
  has_room (issues s) = true.
Proof.
  intros Hex Hp.
  destruct (producer_within _ _ _ _ Hhon Hms Hex) as (ms' & Hsplit & Hf).
  rewrite Hp in Hf. destruct Hf as [(m & -> & _)|[]].
  destruct (queue_bound _ _ Hex) as (_ & _ & Hb).
  unfold has_room. apply Z.ltb_lt. unfold len in *.
  rewrite Hsplit, !length_app in Hfit. simpl in Hfit. lia.
Qed.

(** X7: when all the matches of the search fit the input queue (there are
    at most 1024 of them), [pullRequests] returns: on every schedule,
    whatever fails and whenever, no goroutine blocks for ever and the caller
    gets past [g.Wait()].  (Pagination is finite and the client honours
    the context.) *)
Theorem returns_when_matches_fit tr s :
  exec init tr s ->
  inevitably step (fun s => is_returned (main s) = true) s.
Proof.
  remember (pages_left rank s) as k eqn:Ek.
  remember (work_left s) as m eqn:Em.
  revert m tr s Ek Em.
  induction k as [k IHk] using lt_wf_ind.
  induction m as [m IHm] using lt_wf_ind.
  intros tr s -> -> Hex.
  destruct (is_returned (main s)) eqn:Hm; [by apply inevitably_now|].
  apply inevitably_later.
  { eapply progress; [done|done|]. intros. by eapply send_has_room. }
  intros a s' ev Hs.
  assert (Hex' : exec init (tr ++ ev) s') by by eapply exec_step.
  destruct (step_decreases _ _ _ _ _ Hrank _ _ _ _ Hs) as [Hlt|[Heq Hlt]].
  - by eapply IHk.
  - eapply IHm; [exact Hlt|by rewrite Heq|done|done].
Qed.
End Fits.
End PipelineMore.

(** * More example runs *)

Lemma example_client_honours_ctx pages detail :
  honours_ctx (example_client pages detail).
Proof. by split. Qed.

(** The run in which all four workers are gone and the producer is blocked
    at its send of match 1029. *)
Lemma stuck_only_at_blocked_send_witness :
  stuck (step client_flood example_opts "jtsiros/devstats" "alice")
    run_flood.2 /\
  (is_returned (main run_flood.2) = true \/
   (main run_flood.2 = MWait /\
    (exists i rest next,
       producer run_flood.2 = Running (PSend (i :: rest) next)) /\
    len (buf (issues run_flood.2)) = workerChanSize /\
    Forall (fun g => exists e, g = Done (Some e)) (pool run_flood.2) /\
    g_err run_flood.2 <> None /\ ctx_done run_flood.2 = true)).
Proof.
  assert (Hex : exec client_flood example_opts "jtsiros/devstats" "alice" init
                  run_flood.1 run_flood.2) by apply run_phases_exec.
  assert (Hst : stuck (step client_flood example_opts "jtsiros/devstats" "alice")
                  run_flood.2) by (apply stuck_check; vm_compute; reflexivity).
  split; [exact Hst|].
  exact (stuck_only_at_blocked_send _ _ _ _ _ _ Hex Hst).
Defined.

Lemma run_partial_returns :
  pullRequests client_partial example_opts "jtsiros/devstats" "alice"
    run_partial.1 (allPRs run_partial.2, Some "PR GET (500): [8] - boom").
Proof.
  eapply pullRequests_run;
    [vm_compute; reflexivity|apply run_policy_exec'|vm_compute; reflexivity].
Qed.

(** Ten matches, the detail call of the eighth answers 500: the seven
    records fetched before are returned with the error. *)
Lemma returned_records_were_fetched_witness :
  pullRequests client_partial example_opts "jtsiros/devstats" "alice"
    run_partial.1 (allPRs run_partial.2, Some "PR GET (500): [8] - boom") /\
  length (allPRs run_partial.2) = 7%nat /\
  allPRs run_partial.2 ⊆+
  omap (fetched client_partial "jtsiros/devstats") (emitted run_partial.1).
Proof.
  split_and!; [exact run_partial_returns|vm_compute; reflexivity|].
  exact (returned_records_were_fetched client_partial example_opts
           "jtsiros/devstats" "alice" _ _
           (example_client_honours_ctx _ _) run_partial_returns).
Defined.

(** Fifty pull-request matches: fifty detail calls, one for each. *)
Lemma one_detail_call_per_pull_witness :
  exec client50 example_opts "jtsiros/devstats" "alice" init run50.1 run50.2 /\
  length (gets run50.1) = 50%nat /\
  gets run50.1 ≡ₚ pulls (emitted run50.1).
Proof.
  assert (Hex : exec client50 example_opts "jtsiros/devstats" "alice" init
                  run50.1 run50.2) by apply run_policy_exec'.
  split_and!; [exact Hex|vm_compute; reflexivity|].
  refine (proj2 (one_detail_call_per_pull _ _ _ _ _ _ Hex)
            (allPRs run50.2) _).
  vm_compute. reflexivity.
Defined.

(** The error returned with the seven records is the one made of the 500
    answer to the detail call of match 8. *)
Lemma returned_error_is_the_cause_witness :
  (run_partial.1 = [] /\ allPRs run_partial.2 = [] /\
   "PR GET (500): [8] - boom" = errRepoFmt /\
   len (ownerAndRepo "jtsiros/devstats") <> ownerRepoTokenLen) \/
  (len (ownerAndRepo "jtsiros/devstats") = ownerRepoTokenLen /\
   live_error client_partial example_opts "jtsiros/devstats" "alice"
     "PR GET (500): [8] - boom").
Proof.
  exact (returned_error_is_the_cause _ _ _ _ _ _ _ run_partial_returns).
Defined.

(** "jtsiros/devstats" is "jtsiros", "/" and "devstats". *)
Lemma owner_and_name_recompose_witness :
  owner "jtsiros/devstats" = "jtsiros" /\
  name "jtsiros/devstats" = "devstats" /\
  Forall (fun ev => match ev with
                    | EvGet _ o n _ => o = "jtsiros" /\ n = "devstats"
                    | _ => True
                    end) run50.1.
Proof.
  assert (Hex : exec client50 example_opts "jtsiros/devstats" "alice" init
                  run50.1 run50.2) by apply run_policy_exec'.
  assert (Hlen : len (ownerAndRepo "jtsiros/devstats") = ownerRepoTokenLen)
    by reflexivity.
  split_and!; [reflexivity|reflexivity|].
  exact (proj2 (proj2 (proj2
    (owner_and_name_recompose client50 example_opts "jtsiros/devstats" "alice"
       _ _ Hlen Hex)))).
Defined.

Lemma client50_pagination_ends query :
  pagination_ends client50 query (fun _ => 0%nat).
Proof.
  intros done page sr resp H Hn. destruct done; simplify_eq/=.
Qed.

Lemma client50_searchStage :
  searchStage client50 example_opts "jtsiros/devstats" "alice" 0
    (example_matches 1 50) None.
Proof.
  by apply (searchStage_last client50 example_opts "jtsiros/devstats" "alice" 0
              {| github.Issues := example_matches 1 50 |}
              (example_response 0 200 None)).
Qed.

(** Fifty matches fit the queue: from the start, every schedule ends with
    [pullRequests] returned. *)
Lemma returns_when_matches_fit_witness :
  len (example_matches 1 50) <= workerChanSize /\
  inevitably (step client50 example_opts "jtsiros/devstats" "alice")
    (fun s => is_returned (main s) = true) init.
Proof.
  assert (Hfit : len (example_matches 1 50) <= workerChanSize)
    by (vm_compute; discriminate).
  split; [exact Hfit|].
  exact (returns_when_matches_fit client50 example_opts "jtsiros/devstats"
           "alice" (fun _ => 0%nat) (client50_pagination_ends _)
           (example_client_honours_ctx _ _) (example_matches 1 50) None
           client50_searchStage Hfit [] init
           (exec_refl _ _ _ _ _)).
Defined.

(** * The statistics and the order of the sample *)

Lemma abs_not_negative_zero x : not_negative_zero (PrimFloat.abs x).
Proof.
  unfold not_negative_zero. rewrite FloatAxioms.abs_spec.
  by destruct (Prim2SF x) as [[|]|[|]| |[|] m e].
Qed.

Lemma same_number_eq x y :
  same_number x y -> not_negative_zero x -> not_negative_zero y -> x = y.
Proof.
  intros [->|(s & s' & Hx & Hy)] Hnx Hny; [done|].
  unfold not_negative_zero in *. apply Prim2SF_inj. rewrite Hx, Hy in *.
  by destruct s, s'.
Qed.

(** The distance to either zero is the same float64. *)
Lemma abs_sub_same_number x m m' :
  same_number m m' -> PrimFloat.abs (x - m) = PrimFloat.abs (x - m').
Proof.
  intros [->|(s & s' & Hm & Hm')]; [done|].
  apply Prim2SF_inj.
  rewrite !FloatAxioms.abs_spec, !FloatAxioms.sub_spec, Hm, Hm'.
  unfold SF64sub, SFsub.
  destruct (Prim2SF x) as [[|]|[|]| |[|] mx ex]; try done; by destruct s, s'.
Qed.

Lemma nth_middle_elem (c : list float64) :
  (length c mod 2 =? 0)%nat = false -> nth (length c / 2) c 0%float ∈ c.
Proof.
  intros Hodd. apply list_elem_of_In, nth_In.
  destruct c as [|x c]; [done|]. apply Nat.Div0.div_lt_upper_bound.
  simpl. lia.
Qed.

(** The median of a sample without negative zeros is the same float64 for
    every order of the sample. *)
Lemma median_perm_eq l l' :
  l ≡ₚ l' -> Forall not_negative_zero l -> median l = median l'.
Proof.
  intros Hp Hl. assert (Hl' : Forall not_negative_zero l') by by rewrite <-Hp.
  unfold median.
  assert (Hc : sort.insertionSort l ≡ₚ sort.insertionSort l')
    by by rewrite !insertionSort_perm.
  rewrite <-(Permutation_length Hc).
  pose proof (insertionSort_sorted l) as Hs.
  pose proof (insertionSort_sorted l') as Hs'.
  destruct (_ =? 0)%nat eqn:E.
  - apply mean_pair; by apply sorted_perm_nth.
  - apply same_number_eq; [by apply sorted_perm_nth| |].
    + eapply Forall_forall; [|by apply nth_middle_elem].
      by rewrite insertionSort_perm.
    + rewrite (Permutation_length Hc) in *.
      eapply Forall_forall; [|by apply nth_middle_elem].
      by rewrite insertionSort_perm.
Qed.

Lemma mad_perm l l' : l ≡ₚ l' -> mad l = mad l'.
Proof.
  intros Hp. unfold mad.
  pose proof (median_perm _ _ Hp) as Hm.
  rewrite <-(map_ext _ _ (fun x => abs_sub_same_number x _ _ Hm)).
  apply median_perm_eq; [by apply Permutation_map|].
  apply Forall_forall. intros y (x & -> & _)%list_elem_of_fmap.
  apply abs_not_negative_zero.
Qed.

Lemma stats_of_perm l l' : l ≡ₚ l' -> same_spread (stats_of l) (stats_of l').
Proof.
  intros Hp. destruct l as [|x l], l' as [|x' l'].
  - split; [by left|done].
  - by apply Permutation_nil_l in Hp.
  - by apply Permutation_nil_r in Hp.
  - split; simpl; [by apply same_number_float_eq, median_perm|by apply mad_perm].
Qed.


(** X9: what [calculateStats] computes depends on the enriched set as a
    collection, except for the means: for two orders of one set, the count
    is the same, and for each of merge time, commits, change size and
    comments the medians are the same number and the median absolute
    deviations the same float64.  (The means are sums taken in the order of
    the set.) *)
Theorem calculateStats_order_independent prs prs' h h' :
  prs ≡ₚ prs' ->
  PRs (calculateStats prs h).1 = PRs (calculateStats prs' h').1 /\
  same_spread (MergeTime (calculateStats prs h).1)
              (MergeTime (calculateStats prs' h').1) /\
  same_spread (Commits (calculateStats prs h).1)
              (Commits (calculateStats prs' h').1) /\
  same_spread (ChangeSize (calculateStats prs h).1)
              (ChangeSize (calculateStats prs' h').1) /\
  same_spread (Comments (calculateStats prs h).1)
              (Comments (calculateStats prs' h').1).
Proof.
  intros Hp.
  destruct (calculateStats_run prs h) as (extra & ->).
  destruct (calculateStats_run prs' h') as (extra' & ->). simpl.
  split_and!.
  - unfold len. by rewrite (Permutation_length Hp).
  - apply stats_of_perm. unfold mergeDeltas. by apply Permutation_map.
  - apply stats_of_perm. unfold commits. by apply Permutation_map.
  - apply stats_of_perm. unfold changeSize. by apply Permutation_map.
  - apply stats_of_perm. unfold comments. by apply Permutation_map.
Qed.


(** Three records and the same three with the first two exchanged. *)
Lemma calculateStats_order_independent_witness :
  PRs (calculateStats [example_pull 1; example_unmerged; example_pull 3] []).1 =
  PRs (calculateStats [example_unmerged; example_pull 1; example_pull 3] []).1 /\
  same_spread
    (ChangeSize
       (calculateStats [example_pull 1; example_unmerged; example_pull 3] []).1)
    (ChangeSize
       (calculateStats [example_unmerged; example_pull 1; example_pull 3] []).1).
Proof.
  pose proof (calculateStats_order_independent
                [example_pull 1; example_unmerged; example_pull 3]
                [example_unmerged; example_pull 1; example_pull 3] [] []
                (Permutation_swap _ _ _)) as (H1 & _ & _ & H4 & _).
  split; [exact H1|exact H4].
Defined.

(** * The result and the schedule *)

Section Schedules.
Variable gc : github.Client.
Variable prOpts : SearchPROpts.
Variables repo author : string.

Lemma searchStage_fun page ms r ms' r' :
  searchStage gc prOpts repo author page ms r ->
  searchStage gc prOpts repo author page ms' r' ->
  ms = ms' /\ r = r'.
Proof.
  intros H. revert ms' r'.
  induction H as [page sr resp e Hq|page sr resp Hq Hn|
                  page sr resp ms r Hq Hn Hst IH];
    intros ms' r' H';
    inversion H' as [? ? ? ? Hq'|? ? ? Hq' Hn'|? ? ? ? ? Hq' Hn' Hst']; subst;
    rewrite Hq in Hq'; simplify_eq; try done.
  destruct (IH _ _ Hst') as [-> ->]. done.
Qed.

(** A nil error: the search stage ran to its end, and the collection is
    made of the records of what it emitted. *)
Lemma returned_nil_fetched tr prs :
  pullRequests gc prOpts repo author tr (prs, None) ->
  searchStage gc prOpts repo author 0 (emitted tr) None /\
  prs ≡ₚ omap (fetched gc repo) (emitted tr).
Proof.
  intros [? ? [=]|s _ Hex Hm].
  destruct (returned_nil_state _ _ _ _ _ _ _ Hex Hm)
    as (-> & Hge & Hp & Hw & Hi & Hprs).
  pose proof (live_calls _ _ _ _ _ _ Hex Hge) as Hlive. split.
  - rewrite <-(app_nil_r (emitted tr)).
    apply (producer_future _ _ _ _ _ _ Hex Hlive). by rewrite Hp.
  - rewrite (flow _ _ _ _ _ _ Hex Hlive).
    + unfold in_flight_def. rewrite Hi, Hprs. simpl.
      rewrite (omap_all_None held), (omap_all_None inflight); [done| |].
      all: eapply Forall_impl; [exact Hw|]; by intros g ->.
    + eapply Forall_impl; [exact Hw|]. by intros g ->.
Qed.

(** X10: the goroutines' schedule shows in the order of the result only.
    Two calls of [pullRequests] for one author that both return a nil
    error, whatever the interleavings, emitted the same matches in the same
    order, made the same detail calls, and return the same records up to
    their order. *)
Theorem results_do_not_depend_on_schedule tr prs tr' prs' :
  pullRequests gc prOpts repo author tr (prs, None) ->
  pullRequests gc prOpts repo author tr' (prs', None) ->
  emitted tr = emitted tr' /\ gets tr ≡ₚ gets tr' /\ prs ≡ₚ prs'.
Proof.
  intros H H'.
  destruct (returned_nil_fetched _ _ H) as [Hs Hp].
  destruct (returned_nil_fetched _ _ H') as [Hs' Hp'].
  destruct (searchStage_fun _ _ _ _ _ Hs Hs') as [He _].
  split_and!; [done| |by rewrite Hp, Hp', He].
  destruct H as [? ? [=]|s _ Hex Hm], H' as [? ? [=]|s' _ Hex' Hm'].
  pose proof (calls_exec _ _ _ _ _ _ Hex) as Hc.
  pose proof (calls_exec _ _ _ _ _ _ Hex') as Hc'.
  destruct (returned_nil_state _ _ _ _ _ _ _ Hex Hm)
    as (_ & _ & _ & Hw & Hi & _).
  destruct (returned_nil_state _ _ _ _ _ _ _ Hex' Hm')
    as (_ & _ & _ & Hw' & Hi' & _).
  unfold waiting in Hc, Hc'.
  rewrite Hi, (omap_all_None held), !app_nil_r in Hc
    by (eapply Forall_impl; [exact Hw|]; by intros g ->).
  rewrite Hi', (omap_all_None held), !app_nil_r in Hc'
    by (eapply Forall_impl; [exact Hw'|]; by intros g ->).
  by rewrite <-Hc, <-Hc', He.
Qed.
End Schedules.

Lemma run50_returns :
  pullRequests client50 example_opts "jtsiros/devstats" "alice"
    run50.1 (allPRs run50.2, None).
Proof.
  eapply pullRequests_run;
    [vm_compute; reflexivity|apply run_policy_exec'|vm_compute; reflexivity].
Qed.

Lemma run50_interleaved_returns :
  pullRequests client50 example_opts "jtsiros/devstats" "alice"
    run50_interleaved.1 (allPRs run50_interleaved.2, None).
Proof.
  eapply pullRequests_run;
    [vm_compute; reflexivity|apply run_phases_exec|vm_compute; reflexivity].
Qed.

(** Two schedules of the fifty matches: the records come in another order,
    and are the same. *)
Lemma results_do_not_depend_on_schedule_witness :
  allPRs run50.2 <> allPRs run50_interleaved.2 /\
  emitted run50.1 = emitted run50_interleaved.1 /\
  gets run50.1 ≡ₚ gets run50_interleaved.1 /\
  allPRs run50.2 ≡ₚ allPRs run50_interleaved.2.
Proof.
  split.
  - intros H. vm_compute in H. discriminate H.
  - exact (results_do_not_depend_on_schedule _ _ _ _ _ _ _ _
             run50_returns run50_interleaved_returns).
Defined.

(** * [run], end to end *)

(** X11: [run] checks the repository identifier once for each author, inside
    [pullRequests], and not before.  With an identifier that does not split
    into two tokens, a call for no author renders the empty table and
    returns nil, and a call for one author or more returns [errRepoFmt] at
    the first of them; no remote call is made. *)
Theorem run_stops_at_repo_format gc prOpts log res :
  len (ownerAndRepo (Repo prOpts)) <> ownerRepoTokenLen ->
  run gc prOpts log res ->
  match Authors prOpts with
  | [] => log = [] /\ res = (Some [], None)
  | a :: _ => log = [(a, [])] /\ res = (None, Some errRepoFmt)
  end.
Proof.
  intros Hn Hrun. unfold run in Hrun.
  destruct (Authors prOpts) as [|a authors].
  - by inversion Hrun.
  - inversion Hrun as [|? ? ? tr prs e Hp|? ? ? tr prs ? ? Hp]; subst.
    + by destruct Hp as [_ -> [= _ ->]|s Hlen _ _].
    + by destruct Hp as [_ _ [=]|s Hlen _ _].
Qed.

(** The repository flag left at "cockroach", its default. *)
Lemma run_stops_at_repo_format_witness :
  run client50 default_repo_opts [("alice", [])] (None, Some errRepoFmt) /\
  [("alice", @nil event)] = [("alice", [])] /\
  (@None (list ContributorStats), Some errRepoFmt) = (None, Some errRepoFmt).
Proof.
  assert (Hn : len (ownerAndRepo (Repo default_repo_opts)) <> ownerRepoTokenLen)
    by (vm_compute; discriminate).
  assert (Hrun : run client50 default_repo_opts [("alice", [])]
                   (None, Some errRepoFmt)).
  { apply (run_fail _ _ "alice" ["bob"] [] [] []).
    by apply pullRequests_fmt. }
  split; [exact Hrun|].
  exact (run_stops_at_repo_format _ _ _ _ Hn Hrun).
Defined.

(** X12: what [run] renders.  When [run] returns nil, the record of each
    author holds the author's login, the number of the pull-request matches
    of the author's search whose detail call succeeded, and the statistics
    of the merge times, commits, change sizes and comments of the records of
    those matches, taken in the order the pipeline returned them. *)
Theorem run_renders_what_was_fetched gc prOpts log cstats :
  run gc prOpts log (Some cstats, None) ->
  Forall2 (fun entry c =>
             Author c = entry.1 /\
             PRs c = len (omap (fetched gc (Repo prOpts)) (emitted entry.2)) /\
             exists prs,
               prs ≡ₚ omap (fetched gc (Repo prOpts)) (emitted entry.2) /\
               MergeTime c = stats_of (mergeDeltas prs) /\
               Commits c = stats_of (commits prs) /\
               ChangeSize c = stats_of (changeSize prs) /\
               Comments c = stats_of (comments prs)) log cstats.
Proof.
  intros Hrun%run_from_spec. destruct Hrun as (_ & new & -> & Hall).
  simpl. eapply Forall2_impl; [exact Hall|].
  intros [a tr] c (prs & Hp & ->). simpl in *.
  destruct (returned_nil_fetched _ _ _ _ _ _ Hp) as [_ Hperm].
  unfold stats_for. destruct (calculateStats_run prs []) as (extra & ->).
  simpl. split_and!; [done| |].
  - unfold len. by rewrite (Permutation_length Hperm).
  - by exists prs.
Qed.

(** The fifty matches of each of the two authors, five failed detail calls
    each: 45 in the count of both. *)
Lemma run_renders_what_was_fetched_witness :
  map PRs run50_stats = [45; 45] /\
  Forall2 (fun entry c =>
             Author c = entry.1 /\
             PRs c = len (omap (fetched client50 (Repo example_opts))
                            (emitted entry.2)) /\
             exists prs,
               prs ≡ₚ omap (fetched client50 (Repo example_opts))
                        (emitted entry.2) /\
               MergeTime c = stats_of (mergeDeltas prs) /\
               Commits c = stats_of (commits prs) /\
               ChangeSize c = stats_of (changeSize prs) /\
               Comments c = stats_of (comments prs)) run50_log run50_stats.
Proof.
  split; [vm_compute; reflexivity|].
  exact (run_renders_what_was_fetched _ _ _ _ run50_runs).
Defined.

(** * Rendering *)

(** ** A cell of statistics splits back into its three numbers *)

Lemma count_sep_app sep a b :
  count_sep sep (a +:+ b) = (count_sep sep a + count_sep sep b)%nat.
Proof.
  induction a as [|c a IH]; [done|].
  change (String c a +:+ b) with (String c (a +:+ b)). simpl.
  rewrite IH. lia.
Qed.

Lemma string_of_uint_no_slash d :
  count_sep "/" (NilEmpty.string_of_uint d) = 0%nat.
Proof. induction d; simpl; done. Qed.

Lemma fmt_d_no_slash z : count_sep "/" (fmt_d z) = 0%nat.
Proof.
  unfold fmt_d, NilZero.string_of_int, NilZero.string_of_uint.
  destruct (Z.to_int z) as [d|d]; destruct d; simpl;
    by rewrite ?string_of_uint_no_slash.
Qed.

Lemma fixed2_no_slash neg n : count_sep "/" (fixed2 neg n) = 0%nat.
Proof.
  unfold fixed2, two_digits. rewrite !count_sep_app, !fmt_d_no_slash.
  destruct neg, (_ <? 10); by rewrite ?count_sep_app, ?fmt_d_no_slash.
Qed.

Lemma shortFmt_no_slash f : count_sep "/" (shortFmt f) = 0%nat.
Proof.
  unfold shortFmt.
  destruct (Prim2SF f) as [neg|[|]| |neg m e]; try done;
    apply fixed2_no_slash.
Qed.

Lemma Split_no_sep s sep : count_sep sep s = 0%nat -> Split s sep = [s].
Proof.
  induction s as [|c s IH]; [done|]. simpl.
  destruct (Ascii.eqb c sep); [done|]. intros Hs. by rewrite IH.
Qed.

Lemma Split_app_sep a b sep :
  count_sep sep a = 0%nat ->
  Split (a +:+ String sep b) sep = a :: Split b sep.
Proof.
  induction a as [|c a IH].
  - intros _. change ("" +:+ String sep b) with (String sep b).
    simpl. by rewrite Ascii.eqb_refl.
  - change (String c a +:+ String sep b) with (String c (a +:+ String sep b)).
    simpl. destruct (Ascii.eqb c sep); [done|]. intros Ha. by rewrite IH.
Qed.

(** X13: a cell that [combined] makes of a statistic splits on "/" into
    exactly the three numbers it was made of, as [shortFmt] prints them:
    mean, median, median absolute deviation.  Nothing [shortFmt] prints
    holds a "/", whatever the float64 (not a number and the infinities
    included). *)
Theorem combined_splits s :
  Split (combined s) "/" =
  [shortFmt (Mean s); shortFmt (Median s);
   shortFmt (MedianAbsoluteDeviation s)] /\
  forall f, count_sep "/" (shortFmt f) = 0%nat.
Proof.
  split; [|apply shortFmt_no_slash]. unfold combined.
  change (?a +:+ "/" +:+ ?b) with (a +:+ String "/" b).
  rewrite Split_app_sep by apply shortFmt_no_slash.
  change (?a +:+ "/" +:+ ?b) with (a +:+ String "/" b).
  rewrite Split_app_sep by apply shortFmt_no_slash.
  by rewrite Split_no_sep by apply shortFmt_no_slash.
Qed.

(** ** What [shortFmt] prints of a finite value *)




(** ** The table *)

Lemma render_fold stats t prs :
  exists prs',
    fold_left render_step stats (t, prs) =
    ({| table.header := table.header t;
        table.rows :=
          table.rows t ++
          map (fun c => [table.Str (Author c);
                         table.Str (combined (MergeTime c));
                         table.Str (combined (Comments c));
                         table.Str (combined (Commits c));
                         table.Str (combined (ChangeSize c));
                         table.Int (PRs c)]) stats;
        table.footer := table.footer t;
        table.separators := table.separators t;
        table.style := table.style t |}, prs').
Proof.
  revert t prs. induction stats as [|c stats IH]; intros t prs; simpl.
  - exists prs. rewrite app_nil_r. by destruct t.
  - destruct (IH (table.AppendRow
                    [table.Str (Author c);
                     table.Str (combined (MergeTime c));
                     table.Str (combined (Comments c));
                     table.Str (combined (Commits c));
                     table.Str (combined (ChangeSize c));
                     table.Int (PRs c)] t) (int64 (prs + PRs c)))
      as (prs' & ->).
    exists prs'. simpl. by rewrite <-app_assoc.
Qed.

Lemma run_authors gc prOpts log cstats :
  run gc prOpts log (Some cstats, None) -> map Author cstats = Authors prOpts.
Proof.
  intros Hrun%run_from_spec. destruct Hrun as (Hlog & new & -> & Hall).
  simpl. rewrite <-Hlog. clear Hlog.
  induction Hall as [|[a tr] c log new (prs & _ & ->) _ IH]; [done|].
  simpl. by rewrite IH.
Qed.

(** X15: the table [run] renders.  It has the one header row of six titles
    and no footer: the sum of the counts, which [render] adds up, is shown
    nowhere.  It has one row for each requested author, in the order they
    were requested (the logins of the records are the requested authors),
    and each row has six cells, under the titles: the login, the cells of
    merge time, comments, commits and change size, and the count. *)
Theorem run_renders_a_row_per_author gc prOpts log cstats :
  run gc prOpts log (Some cstats, None) ->
  table.header (render cstats).1 =
  [[table.Str "Author";
    table.Str "Merge Time (mean/median/mad) hours";
    table.Str "Comments (mean/median/mad)";
    table.Str "Commits (mean/median/mad)";
    table.Str "Change Size +/- (mean/median/mad)";
    table.Str "# of PRs"]] /\
  table.footer (render cstats).1 = [] /\
  map Author cstats = Authors prOpts /\
  table.rows (render cstats).1 =
  map (fun c => [table.Str (Author c);
                 table.Str (combined (MergeTime c));
                 table.Str (combined (Comments c));
                 table.Str (combined (Commits c));
                 table.Str (combined (ChangeSize c));
                 table.Int (PRs c)]) cstats.
Proof.
  intros Hrun. pose proof (run_authors _ _ _ _ Hrun) as Ha.
  unfold render.
  destruct (render_fold cstats
              (table.AppendHeader
                 [table.Str "Author";
                  table.Str "Merge Time (mean/median/mad) hours";
                  table.Str "Comments (mean/median/mad)";
                  table.Str "Commits (mean/median/mad)";
                  table.Str "Change Size +/- (mean/median/mad)";
                  table.Str "# of PRs"] table.NewWriter) 0) as (prs' & ->).
  by simpl.
Qed.

(** The two authors of the example: two rows. *)
Lemma run_renders_a_row_per_author_witness :
  map (fun row => head row) (table.rows (render run50_stats).1) =
  [Some (table.Str "alice"); Some (table.Str "bob")] /\
  map Author run50_stats = Authors example_opts.
Proof.
  split; [vm_compute; reflexivity|].
  exact (proj1 (proj2 (proj2
    (run_renders_a_row_per_author _ _ _ _ run50_runs)))).
Defined.

(** * Back-pressure and shutdown *)

Section Shutdown.
Variable gc : github.Client.
Variable prOpts : SearchPROpts.
Variables repo author : string.

Local Abbreviation step := (step gc prOpts repo author).
Local Abbreviation exec := (exec gc prOpts repo author).

Lemma omap_length_le {A B} (f : A -> option B) l :
  (length (omap f l) <= length l)%nat.
Proof.
  induction l as [|x l IH]; [done|].
  change (x :: l) with ([x] ++ l). rewrite omap_app, !length_app.
  simpl. destruct (f x); simpl; lia.
Qed.

(** X16: back-pressure.  Neither queue ever holds more than 1024 entries,
    and the search never runs more than 1028 pull-request matches ahead of
    the detail calls: the matches emitted and not yet fetched are in the
    input queue or in the hands of one of the four workers. *)
Theorem producer_stays_close tr s :
  exec init tr s ->
  len (buf (issues s)) <= workerChanSize /\
  len (buf (prs s)) <= workerChanSize /\
  len (pulls (emitted tr)) <= len (gets tr) + workerChanSize + nWorkers.
Proof.
  intros Hex. destruct (queue_bound _ _ _ _ _ _ Hex) as (Hi & Hp & _).
  split_and!; [done|done|].
  pose proof (calls_exec _ _ _ _ _ _ Hex) as Hc.
  apply Permutation_length in Hc. rewrite length_app in Hc.
  destruct (invariants _ _ _ _ _ _ Hex) as ([_ Hl _ _ _ _] & _ & _).
  unfold waiting, pulls in Hc. rewrite length_app in Hc.
  pose proof (omap_length_le pull_number (buf (issues s))).
  pose proof (omap_length_le pull_number (omap held (pool s))).
  pose proof (omap_length_le held (pool s)).
  unfold len, pulls, workerChanSize, nWorkers in *. lia.
Qed.

Lemma closes_issues_exec tr s :
  exec init tr s ->
  count_of closes_issues tr = if closed (issues s) then 1 else 0.
Proof.
  induction 1 as [|tr s a s' ev Hex IH Hs]; [done|].
  rewrite count_of_app, IH.
  step_cases Hs; simpl; try done; try lia;
    repeat match goal with G : closed _ = _ |- _ => rewrite G end; lia.
Qed.

(** X17: shutdown.  When [pullRequests] has returned, with an error or
    without, no goroutine of the pipeline is left running: the producer
    and the four workers have all returned.  Both queues are closed, each
    closed exactly once, and the output queue is empty; matches may be left
    in the input queue only when an error is returned. *)
Theorem no_goroutine_outlives_the_call tr s out e :
  exec init tr s -> main s = MReturned (out, e) ->
  is_Done (producer s) = true /\
  Forall (fun g => is_Done g = true) (pool s) /\
  closed (issues s) = true /\ count_of closes_issues tr = 1 /\
  closed (prs s) = true /\ count_of closes_prs tr = 1 /\
  buf (prs s) = [] /\
  (e = None -> buf (issues s) = []).
Proof.
  intros Hex Hm.
  destruct (invariants _ _ _ _ _ _ Hex) as (Hc & Hg & Hd).
  destruct (gi_ret _ Hg _ Hm) as ([= -> ->] & Hp & Hw).
  destruct (di_prs _ Hd) as [Hbuf Hcl]; [by rewrite Hm|].
  assert (Hci : closed (issues s) = true).
  { rewrite (ci_issues _ _ Hc). by destruct (producer s). }
  split_and!; try done.
  - by rewrite (closes_issues_exec _ _ Hex), Hci.
  - by rewrite (ci_closes _ _ Hc), Hcl.
  - intros He.
    destruct (returned_nil_state _ _ _ _ _ _ _ Hex
                (eq_trans Hm (f_equal (fun e => MReturned (allPRs s, e)) He)))
      as (_ & _ & _ & _ & Hi & _). done.
Qed.
End Shutdown.

(** The run that queues the 1024 matches before any worker moves. *)
Lemma producer_stays_close_witness :
  len (buf (issues run_flood.2)) = 1024 /\
  len (pulls (emitted run_flood.1)) = 1028 /\
  len (gets run_flood.1) = 4 /\
  len (pulls (emitted run_flood.1)) <=
  len (gets run_flood.1) + workerChanSize + nWorkers.
Proof.
  assert (Hex : exec client_flood example_opts "jtsiros/devstats" "alice"
                  init run_flood.1 run_flood.2) by apply run_phases_exec.
  split_and!; [vm_compute; reflexivity..|].
  exact (proj2 (proj2 (producer_stays_close _ _ _ _ _ _ Hex))).
Defined.

(** The run that returns seven records and an error: three matches are
    left in the input queue. *)
Lemma no_goroutine_outlives_the_call_witness :
  main run_partial.2 =
  MReturned (allPRs run_partial.2, Some "PR GET (500): [8] - boom") /\
  is_Done (producer run_partial.2) = true /\
  Forall (fun g => is_Done g = true) (pool run_partial.2) /\
  closed (issues run_partial.2) = true /\
  count_of closes_issues run_partial.1 = 1.
Proof.
  assert (Hm : main run_partial.2 =
               MReturned (allPRs run_partial.2, Some "PR GET (500): [8] - boom"))
    by (vm_compute; reflexivity).
  assert (Hex : exec client_partial example_opts "jtsiros/devstats" "alice"
                  init run_partial.1 run_partial.2) by apply run_policy_exec'.
  pose proof (no_goroutine_outlives_the_call _ _ _ _ _ _ _ _ Hex Hm)
    as (H1 & H2 & H3 & H4 & _).
  split_and!; [exact Hm|exact H1|exact H2|exact H3|exact H4].
Defined.

(** * The deviation is not negative *)

Lemma binary_round_aux_sign_clear prec emax m e l :
  sf_sign_clear (binary_round_aux prec emax false m e l).
Proof.
  unfold binary_round_aux.
  destruct (shr_fexp _ _ _ _ _) as [mrs' e'].
  destruct (shr_fexp _ _ _ _ _) as [mrs'' e''].
  destruct (shr_m mrs''); simpl; try done. by destruct (_ <=? _).
Qed.

Lemma binary_normalize_sign_clear prec emax m e :
  sf_sign_clear (binary_normalize prec emax (Z.pos m) e false).
Proof.
  unfold binary_normalize, binary_round.
  destruct (shl_align _ _ _). apply binary_round_aux_sign_clear.
Qed.

Lemma add_sign_clear x y : sign_clear x -> sign_clear y -> sign_clear (x + y).
Proof.
  unfold sign_clear. rewrite FloatAxioms.add_spec. unfold SF64add, SFadd.
  destruct (Prim2SF x) as [[|]|[|]| |[|] mx ex],
           (Prim2SF y) as [[|]|[|]| |[|] my ey]; simpl; try done.
  intros _ _. apply binary_normalize_sign_clear.
Qed.

Lemma div_sign_clear x y : sign_clear x -> sign_clear y -> sign_clear (x / y).
Proof.
  unfold sign_clear. rewrite FloatAxioms.div_spec. unfold SF64div, SFdiv.
  destruct (Prim2SF x) as [[|]|[|]| |[|] mx ex],
           (Prim2SF y) as [[|]|[|]| |[|] my ey]; simpl; try done.
  intros _ _. destruct (SFdiv_core_binary _ _ _ _ _ _) as [[mz ez] lz].
  apply binary_round_aux_sign_clear.
Qed.

Lemma abs_sign_clear x : sign_clear (PrimFloat.abs x).
Proof.
  unfold sign_clear. rewrite FloatAxioms.abs_spec.
  by destruct (Prim2SF x) as [[|]|[|]| |[|] m e].
Qed.

Lemma nth_sign_clear l i :
  Forall sign_clear l -> sign_clear (nth i l 0%float).
Proof.
  intros Hl. rewrite nth_lookup. destruct (l !! i) as [x|] eqn:E; simpl.
  - by eapply Forall_lookup_1.
  - done.
Qed.

Lemma median_sign_clear l : Forall sign_clear l -> sign_clear (median l).
Proof.
  intros Hl. unfold median.
  assert (Hc : Forall sign_clear (sort.insertionSort l))
    by by rewrite insertionSort_perm.
  destruct (_ =? 0)%nat; [|by apply nth_sign_clear].
  unfold mean. simpl fold_left.
  apply div_sign_clear; [|done].
  apply add_sign_clear; [apply add_sign_clear|]; try by apply nth_sign_clear.
  done.
Qed.

Lemma sign_clear_not_below_zero x : sign_clear x -> (x <? 0)%float = false.
Proof.
  unfold sign_clear. rewrite FloatAxioms.ltb_spec. unfold SFltb.
  change (Prim2SF 0) with (S754_zero false).
  by destruct (Prim2SF x) as [[|]|[|]| |[|] m e].
Qed.

(** X18: the median absolute deviation [calcStats] gives is never negative:
    whatever the sample, its sign bit is clear or it is not a number, so
    [mad < 0] is false and [shortFmt] prints it without a minus sign. *)
Theorem calcStats_mad_not_negative h s :
  valid h s ->
  sign_clear (MedianAbsoluteDeviation (calcStats s h).1) /\
  (MedianAbsoluteDeviation (calcStats s h).1 <? 0)%float = false.
Proof.
  intros Hv. destruct (calcStats_run h s Hv) as (extra & ->). simpl.
  assert (H : sign_clear (MedianAbsoluteDeviation (stats_of (read h s)))).
  { destruct (read h s) as [|x l]; [done|]. simpl. unfold mad.
    apply median_sign_clear, Forall_forall.
    intros y (z & -> & _)%list_elem_of_fmap. apply abs_sign_clear. }
  split; [done|by apply sign_clear_not_below_zero].
Qed.

(** The sample -3, -1, 4: the deviations from -1 are 2, 0 and 5. *)
Lemma calcStats_mad_not_negative_witness :
  MedianAbsoluteDeviation (calcStats (whole 0 3) [[-3; -1; 4]%float]).1
  = 2%float /\
  (MedianAbsoluteDeviation (calcStats (whole 0 3) [[-3; -1; 4]%float]).1
   <? 0)%float = false.
Proof.
  assert (Hv : valid [[-3; -1; 4]%float] (whole 0 3)).
  { eexists. split; [reflexivity|simpl; lia]. }
  split; [vm_compute; reflexivity|].
  exact (proj2 (calcStats_mad_not_negative _ _ Hv)).
Defined.

(** * When every status other than 200 comes with an error *)

Section Non200.
Variable gc : github.Client.
Variable prOpts : SearchPROpts.
Variables repo author : string.
Hypothesis Hstatus : non200_is_error gc.

Local Abbreviation step := (step gc prOpts repo author).
Local Abbreviation exec := (exec gc prOpts repo author).

(** No worker is the first to return an error: a worker that has one found
    the context cancelled. *)
Lemma worker_error_is_late tr s :
  exec init tr s ->
  (forall w g, pool s !! w = Some g -> errored g = true -> g_err s <> None) /\
  (g_err s <> None -> stopped (producer s)).
Proof.
  induction 1 as [|tr s a s' ev Hex [IHw IHp] Hs].
  { split; [|done]. intros [|[|[|[|[|]]]]] g; simpl; by intros [= <-]. }
  destruct (invariants _ _ _ _ _ _ Hex) as (_ & Hg & _).
  pose proof (step_not_returned _ _ _ _ _ _ _ _ Hg Hs) as Hnr.
  assert (Hd : ctx_done s = true -> g_err s <> None).
  { intros Hd. destruct (gi_ctx _ Hg Hd); congruence. }
  step_cases Hs; (split; [intros w0 g0 Hl He|]); simpl in *;
    try pool_lookup Hl; simplify_eq/=; eauto;
    try match goal with
        | G : producer s = _ |- _ => rewrite G in IHp; by eauto
        end;
    try match goal with
        | G : github.PullRequests_Get gc _ _ _ _ = (_, ?r, None),
          G0 : negb (github.StatusCode ?r =? 200) = true |- _ =>
            rewrite (Hstatus _ _ _ _ _ _ G) in G0; done
        end.
  all: rewrite Heqg; exact IHp.
Qed.

(** In [g.Wait()] some goroutine can move. *)
Lemma wait_progress_non200 tr s :
  exec init tr s -> main s = MWait ->
  exists a s' ev, step a s = Some (s', ev).
Proof.
  intros Hex Hm.
  destruct (producer s) as [[page|[|i rest] next]|e|e|e] eqn:Ep;
    try (eapply wait_progress; [done|done|intros; congruence]).
  destruct (has_room (issues s)) eqn:Eroom.
  { eapply wait_progress; [done|done|]. by intros. }
  destruct (invariants _ _ _ _ _ _ Hex)
    as ([Hpn Hl Hw Hc Hi Hn] & Hg & [Hd1 Hd2]).
  destruct (worker_error_is_late _ _ Hex) as [Hlate Hstop].
  destruct Hd1 as [Hbuf Hcl]; [congruence|].
  assert (Hall : Forall (fun g => counted g = false) (pool s)).
  { apply count_of_zero. rewrite <-Hw. by apply Hc. }
  rewrite Ep in Hi, Hstop. simpl in Hi, Hstop.
  destruct (pool s) as [|g l] eqn:E; [done|].
  apply Forall_cons_1 in Hall as [Hg0 _].
  assert (Hl0 : pool s !! 0%nat = Some g) by by rewrite E.
  destruct g as [pc|e|e|[e|]]; try done.
  - exists (AWorker 0 false). unfold step_def, worker_step.
    rewrite Hpn, Hl0. destruct (g_exit e s). eauto.
  - destruct Hstop. by apply (Hlate 0%nat (Done (Some e))).
  - destruct (Hd2 0%nat (Done None) eq_refl eq_refl) as [_ Hcl']. congruence.
Qed.

Section Ends.
Variable rank : Z -> nat.
Hypothesis Hrank : pagination_ends gc (sba prOpts repo author) rank.

(** X19: with a client that returns an error with every answer other than
    a 200, [pullRequests] returns on every schedule and for any number of
    matches (pagination being finite): no worker is then the first to
    return an error, so when the context is cancelled the producer has
    returned, and it is never left blocked at its send. *)
Theorem returns_when_non200_is_error tr s :
  exec init tr s ->
  inevitably step (fun s => is_returned (main s) = true) s.
Proof.
  remember (pages_left rank s) as k eqn:Ek.
  remember (work_left s) as m eqn:Em.
  revert m tr s Ek Em.
  induction k as [k IHk] using lt_wf_ind.
  induction m as [m IHm] using lt_wf_ind.
  intros tr s -> -> Hex.
  destruct (main s) eqn:Hm; [| |by apply inevitably_now; rewrite Hm].
  all: apply inevitably_later;
    [first [by eapply reduce_progress|by eapply wait_progress_non200]|].
  all: intros a s' ev Hs;
    assert (Hex' : exec init (tr ++ ev) s') by (by eapply exec_step);
    destruct (step_decreases _ _ _ _ _ Hrank _ _ _ _ Hs) as [Hlt|[Heq Hlt]];
    [by eapply IHk|eapply IHm; [exact Hlt|by rewrite Heq|done|done]].
Qed.
End Ends.
End Non200.

Lemma example_client_non200 pages :
  non200_is_error (example_client pages (fun _ => (200, None, None))).
Proof. intros [|] o n k pr resp; simpl; by intros [= <- <-]. Qed.

Lemma client1100_pagination_ends query :
  pagination_ends client1100 query rank1100.
Proof.
  intros done page sr resp H Hn. destruct done; [done|].
  unfold rank1100. simpl in H.
  destruct (Z.max page 1 <? 11) eqn:E; simplify_eq/=; try done.
  apply Z.ltb_lt in E. lia.
Qed.

(** Eleven hundred matches, more than the input queue holds: from the
    start, every schedule ends with [pullRequests] returned. *)
Lemma returns_when_non200_is_error_witness :
  non200_is_error client1100 /\
  inevitably (step client1100 example_opts "jtsiros/devstats" "alice")
    (fun s => is_returned (main s) = true) init.
Proof.
  assert (Hs : non200_is_error client1100) by apply example_client_non200.
  split; [exact Hs|].
  exact (returns_when_non200_is_error client1100 example_opts
           "jtsiros/devstats" "alice" Hs rank1100
           (client1100_pagination_ends _) [] init (exec_refl _ _ _ _ _)).
Defined.
